(** * Integer-partition enumeration, its driver and the post-hoc sampler

    A shallow embedding of the partition code of the repository

    - [partitions_file.py] and [partions_file2.py] ([main]): for every
      [N] in [range(1, 81)] the array [IP = [N] + [0] * 79] is emitted
      and then rewritten in place by the transition step until the scan
      for the rightmost part greater than one stops at index zero;
    - [partitions/00_create_partitions_code.py]
      ([generate_n80_partitions_sqlite_only]): the same loop for [N = 80]
      with a clock-gated progress line and commit;
    - [partitions/02_random_sampling.py] ([random_sample_sqlite]):
      [SELECT * FROM partitions ORDER BY RANDOM() LIMIT 100000].

    Python integers are [Z]; the floor division [//] and the modulo [%]
    of Python are [Z.div] and [Z.modulo].  The array [IP] is a [list Z];
    reads and writes go through [getitem] and [setitem], which follow
    Python's indexing (negative indices count from the end, anything else
    out of range raises). *)

From stdpp Require Import base list list_numbers option sorting strings pretty.
From Stdlib Require Import ZArith QArith Lia Lqa Ascii.

Local Open Scope Z_scope.

(** ** Python lists as arrays *)

Module Py.

(** The position a Python index denotes in a list of length [len];
    [None] stands for [IndexError]. *)
Definition norm_index (len : nat) (i : Z) : option nat :=
  if bool_decide (0 ≤ i < Z.of_nat len) then Some (Z.to_nat i)
  else if bool_decide (- Z.of_nat len ≤ i < 0) then Some (Z.to_nat (Z.of_nat len + i))
  else None.

(** [l[i]] *)
Definition getitem (l : list Z) (i : Z) : option Z :=
  match norm_index (length l) i with
  | Some k => l !! k
  | None => None
  end.

(** [l[i] = v] *)
Definition setitem (l : list Z) (i : Z) (v : Z) : option (list Z) :=
  match norm_index (length l) i with
  | Some k => Some (<[k:=v]> l)
  | None => None
  end.

(** [sum(l)] *)
Fixpoint sum (l : list Z) : Z :=
  match l with
  | [] => 0
  | x :: t => x + sum t
  end.

(** [range(a, b)]; [range(b)] is [range 0 b]. *)
Definition range (a b : Z) : list Z := seqZ a (b - a).

(** [for i in idxs: IP = body i IP], stopping at the first exception. *)
Fixpoint for_each (idxs : list Z) (body : Z → list Z → option (list Z))
    (IP : list Z) : option (list Z) :=
  match idxs with
  | [] => Some IP
  | i :: rest =>
      match body i IP with
      | Some IP' => for_each rest body IP'
      | None => None
      end
  end.

End Py.

(** ** The transition step *)

(** What one pass through the body of [while True:] does. *)
Inductive step_result : Type :=
  | Terminal                (* [break]: the scan stopped at [J == 0] *)
  | Next (IP : list Z)      (* the array after the in-place update *)
  | Raised.                 (* a Python exception *)

(** [J = 0; while J < 80 and IP[J] > 1: J += 1].  [J] goes up by one per
    iteration and the test bounds it by 80, so 80 units of fuel are
    enough from [J = 0]; running out of fuel while the test still holds
    is reported as [None], as is an [IndexError]. *)
Fixpoint scan (fuel : nat) (IP : list Z) (J : Z) : option Z :=
  if bool_decide (J < 80) then
    match Py.getitem IP J with
    | None => None
    | Some x =>
        if bool_decide (x > 1) then
          match fuel with
          | O => None
          | S fuel' => scan fuel' IP (J + 1)
          end
        else Some J
    end
  else Some J.

(** [for i in range(count): if part_to_modify + i < 80: IP[part_to_modify + i] = new_value] *)
Definition fill (part_to_modify count new_value : Z) (IP : list Z) : option (list Z) :=
  Py.for_each (Py.range 0 count)
    (fun i IP =>
       if bool_decide (part_to_modify + i < 80)
       then Py.setitem IP (part_to_modify + i) new_value
       else Some IP)
    IP.

(** [if part_to_modify + count < 80: IP[part_to_modify + count] = remainder] *)
Definition put_remainder (part_to_modify count remainder : Z) (IP : list Z)
    : option (list Z) :=
  if bool_decide (part_to_modify + count < 80)
  then Py.setitem IP (part_to_modify + count) remainder
  else Some IP.

(** [for i in range(next_position, 80): IP[i] = 0] *)
Definition zero_out (next_position : Z) (IP : list Z) : option (list Z) :=
  Py.for_each (Py.range next_position 80) (fun i IP => Py.setitem IP i 0) IP.

(** The values the step computes before it writes. *)
Record step_vars : Type := StepVars {
  part_to_modify : Z;
  remaining : Z;
  new_value : Z;
  count : Z;
  remainder : Z
}.

(** [part_to_modify + count + (1 if remainder > 0 else 0)] *)
Definition next_position (sv : step_vars) : Z :=
  part_to_modify sv + count sv + (if bool_decide (remainder sv > 0) then 1 else 0).

(** The first half of the loop body, up to [remainder]. *)
Inductive prepared : Type :=
  | Break                    (* [if J == 0: break] *)
  | Fault                    (* an exception: [IndexError], [ZeroDivisionError] *)
  | Values (sv : step_vars).

Definition prepare (N : Z) (IP : list Z) : prepared :=
  match scan 80 IP 0 with
  | None => Fault
  | Some J =>
      if bool_decide (J = 0) then Break
      else
        let part_to_modify := J - 1 in
        (* [IP[:part_to_modify]]; [part_to_modify] is not negative here,
           the scan starts at 0 and [J] is not 0 *)
        let sum_before := Py.sum (take (Z.to_nat part_to_modify) IP) in
        let remaining := N - sum_before in
        match Py.getitem IP part_to_modify with
        | None => Fault
        | Some current_value =>
            let new_value := current_value - 1 in
            if bool_decide (new_value = 0) then Fault
            else
              let count := remaining `div` new_value in
              let remainder := remaining `mod` new_value in
              Values (StepVars part_to_modify remaining new_value count remainder)
        end
  end.

(** The second half: the three writes. *)
Definition update (sv : step_vars) (IP : list Z) : option (list Z) :=
  match fill (part_to_modify sv) (count sv) (new_value sv) IP with
  | None => None
  | Some IP1 =>
      match put_remainder (part_to_modify sv) (count sv) (remainder sv) IP1 with
      | None => None
      | Some IP2 => zero_out (next_position sv) IP2
      end
  end.

(** The body of the [while True:] loop of the three generators, for the
    target [N] (the loop variable of [main], the literal 80 of
    [generate_n80_partitions_sqlite_only]). *)
Definition transition (N : Z) (IP : list Z) : step_result :=
  match prepare N IP with
  | Break => Terminal
  | Fault => Raised
  | Values sv =>
      match update sv IP with
      | None => Raised
      | Some IP' => Next IP'
      end
  end.

(** [IP = [N] + [0] * 79] *)
Definition initial (N : Z) : list Z := N :: replicate 79 0.

(** [[val for val in IP if val > 0]] *)
Definition non_zero_parts (IP : list Z) : list Z :=
  filter (fun val => val > 0) IP.

(** ** The enumeration loop *)

(** How a run ended: the loop broke out, an exception was raised, or the
    fuel ran out first. *)
Inductive run_status : Type := Completed | Crashed | Unfinished.

(** [while True:] with [fuel] bounding the number of passes; the result
    lists the arrays emitted after the initial one, in order. *)
Fixpoint loop (fuel : nat) (N : Z) (IP : list Z) : list (list Z) * run_status :=
  match fuel with
  | O => ([], Unfinished)
  | S fuel' =>
      match transition N IP with
      | Terminal => ([], Completed)
      | Raised => ([], Crashed)
      | Next IP' =>
          let '(out, st) := loop fuel' N IP' in (IP' :: out, st)
      end
  end.

(** One iteration of [for N in range(1, 81):] in [main]: the initial
    partition is written, then every array the loop produces. *)
Definition enumerate (fuel : nat) (N : Z) : list (list Z) * run_status :=
  let '(out, st) := loop fuel N (initial N) in (initial N :: out, st).

(** ** [main]: one run per target *)

(** The targets of [for N in range(1, 81):]. *)
Definition main_targets : list Z := Py.range 1 81.

(** [main] of [partitions_file.py] and [partions_file2.py]: the runs for
    the targets in order, stopping at the first that does not complete.
    [fuel] bounds the passes of each inner loop. *)
Fixpoint main_from (fuel : nat) (targets : list Z)
    : list (Z * list (list Z)) * run_status :=
  match targets with
  | [] => ([], Completed)
  | N :: rest =>
      let '(out, st) := enumerate fuel N in
      match st with
      | Completed =>
          let '(runs, st') := main_from fuel rest in ((N, out) :: runs, st')
      | _ => ([(N, out)], st)
      end
  end.

Definition main (fuel : nat) : list (Z * list (list Z)) * run_status :=
  main_from fuel main_targets.

(** ** [generate_n80_partitions_sqlite_only] *)

(** A row of the table [partitions]: the non-zero parts (the source joins
    them with spaces into [partition_text]), [part_count], [largest_part]. *)
Record row : Type := Row {
  partition_text : list Z;
  part_count : Z;
  largest_part : Z
}.

(** [max(l)]; [None] on the empty list, where Python raises. *)
Definition py_max (l : list Z) : option Z :=
  match l with
  | [] => None
  | x :: t => Some (foldl Z.max x t)
  end.

(** The values bound to the [INSERT] statement for the array [IP]. *)
Definition make_row (IP : list Z) : option row :=
  let non_zero := non_zero_parts IP in
  match py_max non_zero with
  | None => None
  | Some largest => Some (Row non_zero (Z.of_nat (length non_zero)) largest)
  end.

(** The connection: the rows made durable by [conn.commit()] and those
    inserted since, which belong to the open transaction. *)
Record database : Type := Database {
  committed : list row;
  pending : list row
}.

Definition execute_insert (r : row) (db : database) : database :=
  Database (committed db) (pending db ++ [r]).

Definition commit (db : database) : database :=
  Database (committed db ++ pending db) [].

(** The variables of the generator that outlive one pass of its loop.
    [progress] records the counts at which a progress line was printed. *)
Record generator : Type := Generator {
  IP_of : list Z;
  partition_count : Z;
  last_print_time : Q;
  conn : database;
  progress : list Z
}.

(** The [while True:] loop of lines 51-115.  [clock t] is the value of
    the [t]-th call of [time.time()] (seconds, a rational here); the loop
    makes one call per pass.  Of the arithmetic of the progress line only
    the division [partition_count / elapsed] matters to the run: it
    raises when [elapsed] is zero. *)
Fixpoint generate_loop (fuel : nat) (clock : Z → Q) (start_time : Q) (t : Z)
    (g : generator) : generator * run_status :=
  match fuel with
  | O => (g, Unfinished)
  | S fuel' =>
      match transition 80 (IP_of g) with
      | Terminal => (g, Completed)
      | Raised => (g, Crashed)
      | Next IP' =>
          match make_row IP' with
          | None =>
              (Generator IP' (partition_count g) (last_print_time g) (conn g)
                 (progress g), Crashed)
          | Some r =>
              let conn1 := execute_insert r (conn g) in
              let partition_count := (partition_count g + 1)%Z in
              let current_time := clock t in
              if Qle_bool 10 (current_time - last_print_time g) then
                let elapsed := (current_time - start_time)%Q in
                if Qeq_bool elapsed 0 then
                  (Generator IP' partition_count (last_print_time g) conn1
                     (progress g), Crashed)
                else
                  let conn2 :=
                    if bool_decide (partition_count `mod` 100000 = 0)%Z
                    then commit conn1 else conn1 in
                  generate_loop fuel' clock start_time (t + 1)%Z
                    (Generator IP' partition_count current_time conn2
                       (progress g ++ [partition_count]))
              else
                generate_loop fuel' clock start_time (t + 1)%Z
                  (Generator IP' partition_count (last_print_time g) conn1
                     (progress g))
          end
      end
  end.

(** The whole function, lines 8-126: the initial partition is inserted,
    the loop runs, and a completed loop is followed by the final
    [conn.commit()] and the closing report.  The first two clock readings
    are [start_time] and [last_print_time]; every pass of the loop that
    inserts a row reads the clock once, so the readings made up to the
    end of the loop are those numbered 0 to [partition_count], and
    [total_time = time.time() - start_time] takes the next one.  Of the
    report only the division [partition_count/total_time] matters to the
    run: it raises when [total_time] is zero, after the rows have been
    committed. *)
Definition generate_n80_partitions_sqlite_only (fuel : nat) (clock : Z → Q)
    : generator * run_status :=
  let start_time := clock 0%Z in
  let IP := initial 80 in
  match make_row IP with
  | None => (Generator IP 0 (clock 1%Z) (Database [] []) [], Crashed)
  | Some r =>
      let g0 := Generator IP 1 (clock 1%Z) (execute_insert r (Database [] [])) [] in
      let '(g, st) := generate_loop fuel clock start_time 2 g0 in
      match st with
      | Completed =>
          let total_time := (clock (partition_count g + 1)%Z - start_time)%Q in
          (Generator (IP_of g) (partition_count g) (last_print_time g)
             (commit (conn g)) (progress g),
           if Qeq_bool total_time 0 then Crashed else Completed)
      | _ => (g, st)
      end
  end.

(** A clock that advances 50 microseconds from one reading to the next. *)
Definition steady_clock (t : Z) : Q := t # 20000.

(** ** [random_sample_sqlite] *)

(** [ORDER BY RANDOM()]: one call of [RANDOM()] per row, [random i] being
    the value of the [i]-th call. *)
Fixpoint draw_keys {A} (random : Z → Z) (i : Z) (rows : list A) : list (Z * A) :=
  match rows with
  | [] => []
  | r :: rest => (random i, r) :: draw_keys random (i + 1) rest
  end.

Definition key_le {A} (a b : Z * A) : Prop := a.1 ≤ b.1.

Global Instance key_le_dec {A} (a b : Z * A) : Decision (key_le a b).
Proof. unfold key_le. apply _. Defined.

(** The rows in the order of their keys (the order of rows with equal
    keys is left open by SQL; the merge sort here keeps one of them). *)
Definition order_by_random {A} (random : Z → Z) (rows : list A) : list A :=
  snd <$> merge_sort key_le (draw_keys random 0 rows).

(** The outcome of a sampling call. *)
Inductive sample_error : Type := InvalidSampleSize.

Inductive sample_outcome (A : Type) : Type :=
  | Sampled (sampled_df : list A)
  | Rejected (e : sample_error).
Arguments Sampled {A} _.
Arguments Rejected {A} _.

(** [LIMIT 100000] *)
Definition sample_limit : nat := Z.to_nat 100000.

(** [SELECT * FROM partitions ORDER BY RANDOM() LIMIT 100000] over the
    rows [table] of the table [partitions]; the function has no parameter, no
    seed and no [raise]: every call returns the data frame. *)
Definition random_sample_sqlite {A} (table : list A) (random : Z → Z)
    : sample_outcome A :=
  Sampled (take sample_limit (order_by_random random table)).

(** Test data for the sampler: a table of [n] rows with the row ids
    [i], [i + 1], ..., and two ways [RANDOM()] may fall. *)
Fixpoint id_rows (n : nat) (i : Z) : list Z :=
  match n with
  | O => []
  | S n' => i :: id_rows n' (i + 1)
  end.

Definition rising_draws (i : Z) : Z := i.
Definition falling_draws (i : Z) : Z := - i.

(** ** Specification-side notions *)

(** The array that holds the parts [l] followed by capacity padding. *)
Definition pad (l : list Z) : list Z := l ++ replicate (80 - length l) 0.

(** As many copies of [m] as fit in [n], then what is left, if any. *)
Definition greedy (n m : Z) : list Z :=
  replicate (Z.to_nat (n `div` m)) m
  ++ (if bool_decide (n `mod` m > 0) then [n `mod` m] else []).

(** [l] is a partition of [N]: positive parts, non-increasing, of sum [N]. *)
Definition is_partition (N : Z) (l : list Z) : Prop :=
  Forall (fun x => x > 0) l ∧ Sorted Z.ge l ∧ Py.sum l = N.

(** The invariant of the array: a partition of [N] in the first cells,
    zero in all the others, 80 cells in all. *)
Definition canonical (N : Z) (IP : list Z) : Prop :=
  ∃ l, IP = pad l ∧ (length l ≤ 80)%nat ∧ is_partition N l.

(** The cells of the array up to the first zero. *)
Fixpoint nonzero_prefix (IP : list Z) : list Z :=
  match IP with
  | [] => []
  | x :: rest => if bool_decide (x = 0) then [] else x :: nonzero_prefix rest
  end.

(** The invariant as the data model words it: the non-zero cells add up
    to [N] and the non-zero prefix is non-increasing; with it, that the
    non-zero cells are that prefix and are positive, and that the array
    keeps its 80 cells. *)
Definition invariant (N : Z) (IP : list Z) : Prop :=
  Py.sum (filter (fun x => x ≠ 0) IP) = N
  ∧ Sorted Z.ge (nonzero_prefix IP)
  ∧ filter (fun x => x ≠ 0) IP = nonzero_prefix IP
  ∧ non_zero_parts IP = nonzero_prefix IP
  ∧ length IP = 80%nat.

(** The states the loop of [main] goes through for the target [N]. *)
Inductive reachable (N : Z) : list Z → Prop :=
  | reach_initial : reachable N (initial N)
  | reach_next IP IP' :
      reachable N IP → transition N IP = Next IP' → reachable N IP'.

(** Python's [a < b] on lists: the lexicographic order. *)
Fixpoint lex_lt (a b : list Z) : bool :=
  match a, b with
  | [], [] => false
  | [], _ :: _ => true
  | _ :: _, [] => false
  | x :: a', y :: b' =>
      if bool_decide (x < y) then true
      else if bool_decide (x = y) then lex_lt a' b' else false
  end.

(** The cells the three writes of a step assign to, in program order. *)
Definition write_indices (sv : step_vars) : list Z :=
  filter (fun i => i < 80) ((fun i => part_to_modify sv + i) <$> Py.range 0 (count sv))
  ++ (if bool_decide (part_to_modify sv + count sv < 80)
      then [part_to_modify sv + count sv] else [])
  ++ Py.range (next_position sv) 80.

(** The partitions of [n] into parts of at most [m], largest first part
    first: those that start with [m], then those with smaller parts. *)
Fixpoint parts (fuel : nat) (n m : Z) : list (list Z) :=
  match fuel with
  | O => []
  | S fuel' =>
      if bool_decide (n = 0) then [[]]
      else if bool_decide (m ≤ 0) then []
      else (if bool_decide (m ≤ n) then cons m <$> parts fuel' (n - m) m else [])
           ++ parts fuel' n (m - 1)
  end.

Definition partitions (N : Z) : list (list Z) :=
  parts (S (Z.to_nat N + Z.to_nat N)) N N.

(** The number of partitions of [n] into parts of at most [m], by the
    recurrence [p(n, m) = p(n - m, m) + p(n, m - 1)], [p(0, m) = 1],
    [p(n, 0) = 0] for [n > 0]. *)
Fixpoint count_le (fuel : nat) (n m : Z) : Z :=
  match fuel with
  | O => 0
  | S fuel' =>
      if bool_decide (n = 0) then 1
      else if bool_decide (m ≤ 0) then 0
      else (if bool_decide (m ≤ n) then count_le fuel' (n - m) m else 0)
           + count_le fuel' n (m - 1)
  end.

(** The partition-counting function [p(N)]. *)
Definition p (N : Z) : Z := count_le (S (Z.to_nat N + Z.to_nat N)) N N.

(** The arrays of a run, each the successor of the one before under the
    transition, the last one terminal. *)
Fixpoint follows (N : Z) (IP : list Z) (rest : list (list Z)) : Prop :=
  match rest with
  | [] => transition N IP = Terminal
  | IP' :: rest' => transition N IP = Next IP' ∧ follows N IP' rest'
  end.

(** The same for lists of parts under a common prefix [pre], without the
    condition on the last one. *)
Fixpoint linked (N : Z) (pre a : list Z) (rest : list (list Z)) : Prop :=
  match rest with
  | [] => True
  | b :: rest' =>
      transition N (pad (pre ++ a)) = Next (pad (pre ++ b)) ∧ linked N pre b rest'
  end.

(** The same numbers row by row: [count_row K m] holds [p(n, m)] for
    [n = 0 .. K].  Row [m] comes from row [m - 1] by
    [p(n, m) = p(n, m - 1) + p(n - m, m)], the second summand read back
    from the part of the row already built ([acc], most recent first). *)
Fixpoint next_row (k : nat) (old acc : list Z) : list Z :=
  match old with
  | [] => reverse acc
  | x :: old' => next_row k old' ((x + default 0 (acc !! (k - 1)%nat)) :: acc)
  end.

Fixpoint count_row (K m : nat) : list Z :=
  match m with
  | O => (fun n => if decide (n = 0%nat) then 1 else 0) <$> seq 0 (S K)
  | S m' => next_row m (count_row K m') []
  end.

(** [p(n, m)] with the fuel it needs. *)
Definition count_at (n m : nat) : Z :=
  count_le (S (n + m)) (Z.of_nat n) (Z.of_nat m).

(** ** Text written by the programs *)

(** [str(val)] of an integer. *)
Definition py_str (val : Z) : string := pretty val.

(** [sep.join(items)] *)
Fixpoint py_join (sep : string) (items : list string) : string :=
  match items with
  | [] => EmptyString
  | [s] => s
  | s :: rest => s +:+ sep +:+ py_join sep rest
  end.

Fixpoint spaces (n : nat) : string :=
  match n with
  | O => EmptyString
  | S n' => String " "%char (spaces n')
  end.

(** [f"{val:{width}d}"]: the decimal digits, right-aligned with spaces to
    [width] characters, longer numbers left as they are. *)
Definition format_d (width : nat) (val : Z) : string :=
  spaces (width - String.length (py_str val)) +:+ py_str val.

(** Whether a text contains a space, the separator of [partition_str]. *)
Fixpoint has_space (s : string) : bool :=
  match s with
  | EmptyString => false
  | String c s' => bool_decide (c = " "%char) || has_space s'
  end.

(** [" ".join(str(val) for val in IP if val > 0)] *)
Definition partition_str (IP : list Z) : string :=
  py_join " " (py_str <$> non_zero_parts IP).

(** [str(IP)] of a list of integers. *)
Definition py_str_list (IP : list Z) : string :=
  "[" +:+ py_join ", " (py_str <$> IP) +:+ "]".

(** ** [main] of [partitions_file.py]: the printed lines *)

(** The cells, each formatted with [3d], joined with nothing between. *)
Definition partition_line (IP : list Z) : string :=
  py_join EmptyString (format_d 3 <$> IP).

(** The [while True:] loop with its [print]. *)
Fixpoint print_loop (fuel : nat) (N : Z) (IP : list Z) (lines : list string)
    : list string * run_status :=
  match fuel with
  | O => (lines, Unfinished)
  | S fuel' =>
      match transition N IP with
      | Terminal => (lines, Completed)
      | Raised => (lines, Crashed)
      | Next IP' => print_loop fuel' N IP' (lines ++ [partition_line IP'])
      end
  end.

(** The body of [for N in range(1, 81):]: the number, the initial
    partition, the partitions of the loop, an empty line. *)
Definition print_number (fuel : nat) (N : Z) (lines : list string)
    : list string * run_status :=
  let IP := initial N in
  let '(lines', st) :=
    print_loop fuel N IP (lines ++ [format_d 10 N; partition_line IP]) in
  match st with
  | Completed => (lines' ++ [EmptyString], Completed)
  | _ => (lines', st)
  end.

(** ** [main] of [partions_file2.py]: CSV file and table *)

(** A connection to a table of rows of type [A]: the rows made durable by
    [conn.commit()] and those inserted since. *)
Record connection (A : Type) : Type := Connection {
  durable : list A;
  uncommitted : list A
}.
Arguments Connection {A} _ _.
Arguments durable {A} _.
Arguments uncommitted {A} _.

Definition conn_insert {A} (r : A) (c : connection A) : connection A :=
  Connection (durable c) (uncommitted c ++ [r]).

Definition conn_commit {A} (c : connection A) : connection A :=
  Connection (durable c ++ uncommitted c) [].

(** A field handed to [csv_writer.writerow]. *)
Inductive cell : Type :=
  | CInt (z : Z)
  | CStr (s : string)
  | CBool (b : bool).

Module Basic.

(** The values of one [INSERT] of [main]. *)
Record row : Type := Row {
  number : Z;
  partition_text : string;
  partition_json : string;
  part_count : Z
}.

(** [['number', 'partition', 'part_count'] + [f'part_{i+1}' for i in range(80)]] *)
Definition header : list string :=
  ["number"; "partition"; "part_count"]%string
  ++ ((fun i => "part_" +:+ py_str (i + 1)) <$> Py.range 0 80).

(** The CSV file and the connection. *)
Record files : Type := Files {
  csv : list (list cell);
  db : connection row
}.

(** [[N, partition_str, part_count] + IP], the line handed to
    [csv_writer.writerow]. *)
Definition csv_row (N : Z) (IP : list Z) : list cell :=
  let partition_str := partition_str IP in
  let part_count := Z.of_nat (length (non_zero_parts IP)) in
  [CInt N; CStr partition_str; CInt part_count] ++ (CInt <$> IP).

(** [(N, partition_str, str(IP), part_count)], the values of the [INSERT]. *)
Definition row_of (N : Z) (IP : list Z) : row :=
  let partition_str := partition_str IP in
  let part_count := Z.of_nat (length (non_zero_parts IP)) in
  Row N partition_str (py_str_list IP) part_count.

(** The two writes that follow each new array. *)
Definition write (N : Z) (IP : list Z) (f : files) : files :=
  Files (csv f ++ [csv_row N IP]) (conn_insert (row_of N IP) (db f)).

(** The [while True:] loop of [main]. *)
Fixpoint write_loop (fuel : nat) (N : Z) (IP : list Z) (f : files)
    : files * run_status :=
  match fuel with
  | O => (f, Unfinished)
  | S fuel' =>
      match transition N IP with
      | Terminal => (f, Completed)
      | Raised => (f, Crashed)
      | Next IP' => write_loop fuel' N IP' (write N IP' f)
      end
  end.

(** [for N in range(1, 81):] with the commit after each number. *)
Fixpoint main_from (fuel : nat) (targets : list Z) (f : files)
    : files * run_status :=
  match targets with
  | [] => (f, Completed)
  | N :: rest =>
      let '(f', st) := write_loop fuel N (initial N) (write N (initial N) f) in
      match st with
      | Completed => main_from fuel rest (Files (csv f') (conn_commit (db f')))
      | _ => (f', st)
      end
  end.

(** [main]: the header line, then the numbers 1 to 80. *)
Definition main (fuel : nat) : files * run_status :=
  main_from fuel main_targets (Files [CStr <$> header] (Connection [] [])).

End Basic.

(** ** [advanced_main] and [write_partition_data] *)

(** [min(l)]; [None] on the empty list, where Python raises. *)
Definition py_min (l : list Z) : option Z :=
  match l with
  | [] => None
  | x :: t => Some (foldl Z.min x t)
  end.

Module Advanced.

Record row : Type := Row {
  number : Z;
  partition_text : string;
  partition_array : string;
  part_count : Z;
  largest_part : Z;
  smallest_part : Z;
  is_primary_partition : bool
}.

Definition header : list string :=
  ["number"; "partition"; "part_count"; "largest_part"; "smallest_part";
   "is_primary"]%string
  ++ ((fun i => "part_" +:+ py_str (i + 1)) <$> Py.range 0 80).

Record files : Type := Files {
  csv : list (list cell);
  db : connection row
}.

(** [max(non_zero_parts) if non_zero_parts else 0], and the same for [min]. *)
Definition largest (non_zero : list Z) : Z := default 0 (py_max non_zero).
Definition smallest (non_zero : list Z) : Z := default 0 (py_min non_zero).

(** The row [write_partition_data] computes for the array [IP]. *)
Definition row_of (N : Z) (IP : list Z) (is_primary : bool) : row :=
  let non_zero := non_zero_parts IP in
  Row N (partition_str IP) (py_str_list IP) (Z.of_nat (length non_zero))
      (largest non_zero) (smallest non_zero) is_primary.

(** [csv_row]: the six fields, extended with the cells of [IP]. *)
Definition csv_row (N : Z) (IP : list Z) (is_primary : bool) : list cell :=
  let r := row_of N IP is_primary in
  [CInt N; CStr (partition_text r); CInt (part_count r);
   CInt (largest_part r); CInt (smallest_part r); CBool is_primary]
  ++ (CInt <$> IP).

Definition write_partition_data (N : Z) (IP : list Z) (f : files)
    (is_primary : bool) : files :=
  Files (csv f ++ [csv_row N IP is_primary])
        (conn_insert (row_of N IP is_primary) (db f)).

Fixpoint write_loop (fuel : nat) (N : Z) (IP : list Z) (f : files)
    : files * run_status :=
  match fuel with
  | O => (f, Unfinished)
  | S fuel' =>
      match transition N IP with
      | Terminal => (f, Completed)
      | Raised => (f, Crashed)
      | Next IP' => write_loop fuel' N IP' (write_partition_data N IP' f false)
      end
  end.

Fixpoint main_from (fuel : nat) (targets : list Z) (f : files)
    : files * run_status :=
  match targets with
  | [] => (f, Completed)
  | N :: rest =>
      let '(f', st) :=
        write_loop fuel N (initial N)
          (write_partition_data N (initial N) f true) in
      match st with
      | Completed => main_from fuel rest (Files (csv f') (conn_commit (db f')))
      | _ => (f', st)
      end
  end.

Definition advanced_main (fuel : nat) : files * run_status :=
  main_from fuel main_targets (Files [CStr <$> header] (Connection [] [])).

End Advanced.

(** The columns of a row of [advanced_main] that [main] stores as well. *)
Definition basic_columns (r : Advanced.row) : Basic.row :=
  Basic.Row (Advanced.number r) (Advanced.partition_text r)
            (Advanced.partition_array r) (Advanced.part_count r).

(** The fields of a line of [partitions_detailed.csv] that
    [partitions.csv] has as well: all but the fourth, fifth and sixth. *)
Definition basic_fields (line : list cell) : list cell :=
  take 3 line ++ drop 6 line.

Definition basic_files (f : Advanced.files) : Basic.files :=
  Basic.Files (basic_fields <$> Advanced.csv f)
    (Connection (basic_columns <$> durable (Advanced.db f))
                (basic_columns <$> uncommitted (Advanced.db f))).

(** ** [verify_database] *)

(** What [verify_database] prints: the row count, the rows with the least
    and the greatest id (id and [partition_text]), and the number of rows
    per [part_count] for the ten least values of [part_count]. *)
Record verification : Type := Verification {
  total : Z;
  first_row : Z * list Z;
  last_row : Z * list Z;
  distribution : list (Z * Z)
}.

(** The rows of a table created empty, with the ids [AUTOINCREMENT] gives
    them: 1, 2, ... in the order of insertion. *)
Definition with_ids (rows : list row) : list (Z * row) :=
  zip (seqZ 1 (Z.of_nat (length rows))) rows.

(** The query that groups the rows by [part_count], counts each group
    and orders the groups by [part_count]: one pass over the rows that
    keeps the groups sorted. *)
Fixpoint count_into (k : Z) (groups : list (Z * Z)) : list (Z * Z) :=
  match groups with
  | [] => [(k, 1)]
  | (k', c) :: rest =>
      if bool_decide (k < k') then (k, 1) :: groups
      else if bool_decide (k = k') then (k', c + 1) :: rest
      else (k', c) :: count_into k rest
  end.

Definition group_by_part_count (rows : list row) : list (Z * Z) :=
  foldl (fun groups r => count_into (part_count r) groups) [] rows.

(** The order of the groups: by [part_count]. *)
Definition group_lt (a b : Z * Z) : Prop := a.1 < b.1.

(** [verify_database] over the rows the table holds; [None] when
    [fetchone()] returns [None] and the subscript [first[0]] raises. *)
Definition verify_database (table : list row) : option verification :=
  let rows := with_ids table in
  match head rows, last rows with
  | Some f, Some l =>
      Some (Verification (Z.of_nat (length rows))
              (f.1, partition_text f.2) (l.1, partition_text l.2)
              (take 10 (group_by_part_count table)))
  | _, _ => None
  end.

(** * Properties *)

(** ** Indexing and the loops over indices *)

Lemma getitem_nat (l : list Z) (i : nat) :
  (i < length l)%nat → Py.getitem l (Z.of_nat i) = l !! i.
Proof.
  intros Hi. unfold Py.getitem, Py.norm_index.
  rewrite bool_decide_true by lia. by rewrite Nat2Z.id.
Qed.

Lemma setitem_nat (l : list Z) (i : nat) (v : Z) :
  (i < length l)%nat → Py.setitem l (Z.of_nat i) v = Some (<[i:=v]> l).
Proof.
  intros Hi. unfold Py.setitem, Py.norm_index.
  rewrite bool_decide_true by lia. by rewrite Nat2Z.id.
Qed.

Lemma sum_app (l k : list Z) : Py.sum (l ++ k) = Py.sum l + Py.sum k.
Proof. induction l as [|x l IH]; simpl; lia. Qed.

Lemma sum_replicate (n : nat) (x : Z) : Py.sum (replicate n x) = Z.of_nat n * x.
Proof. induction n as [|n IH]; [done|]. rewrite replicate_S. simpl Py.sum. lia. Qed.

(** A loop whose [j]-th pass writes [v] at position [a + j] leaves [v] in
    the [n] cells from [a] on and nothing else changed. *)
Lemma for_each_writes (body : Z → list Z → option (list Z)) (v : Z) (n : nat) :
  ∀ (s : Z) (a : nat) (l : list Z),
    (a + n ≤ length l)%nat →
    (∀ (j : nat) (l' : list Z), (j < n)%nat → length l' = length l →
       body (s + Z.of_nat j) l' = Some (<[(a + j)%nat := v]> l')) →
    Py.for_each (seqZ s (Z.of_nat n)) body l
    = Some (take a l ++ replicate n v ++ drop (a + n) l).
Proof.
  induction n as [|n IH]; intros s a l Hlen Hbody.
  - simpl. by rewrite Nat.add_0_r, take_drop.
  - rewrite seqZ_cons by lia. simpl Py.for_each.
    specialize (Hbody 0%nat l) as H0. rewrite Z.add_0_r, Nat.add_0_r in H0.
    rewrite H0 by (done || lia).
    replace (Z.pred (Z.of_nat (S n))) with (Z.of_nat n) by lia.
    rewrite (IH (Z.succ s) (S a)).
    + f_equal. rewrite (take_S_r _ _ v) by (apply list_lookup_insert_eq; lia).
      rewrite take_insert_ge by lia. rewrite drop_insert_lt by lia.
      rewrite <- app_assoc. simpl. rewrite Nat.add_succ_r. done.
    + rewrite length_insert. lia.
    + intros j l' Hj Hl'. rewrite length_insert in Hl'.
      specialize (Hbody (S j) l').
      replace (Z.succ s + Z.of_nat j) with (s + Z.of_nat (S j)) by lia.
      rewrite Hbody by (done || lia). do 2 f_equal. lia.
Qed.

Lemma fill_spec (a n : nat) (v : Z) (l : list Z) :
  length l = 80%nat → (a + n ≤ 80)%nat →
  fill (Z.of_nat a) (Z.of_nat n) v l
  = Some (take a l ++ replicate n v ++ drop (a + n) l).
Proof.
  intros Hl Han. unfold fill, Py.range. rewrite Z.sub_0_r.
  apply for_each_writes; [lia|]. intros j l' Hj Hl'. simpl.
  rewrite Z.add_0_l, bool_decide_true by lia. rewrite <- Nat2Z.inj_add.
  apply setitem_nat. lia.
Qed.

Lemma zero_out_spec (a : nat) (l : list Z) :
  length l = 80%nat → (a ≤ 80)%nat →
  zero_out (Z.of_nat a) l = Some (take a l ++ replicate (80 - a) 0).
Proof.
  intros Hl Ha. unfold zero_out, Py.range.
  replace (80 - Z.of_nat a) with (Z.of_nat (80 - a)) by lia.
  rewrite (for_each_writes _ 0 (80 - a) (Z.of_nat a) a l).
  - rewrite drop_ge by lia. by rewrite app_nil_r.
  - lia.
  - intros j l' Hj Hl'. rewrite <- Nat2Z.inj_add. apply setitem_nat. lia.
Qed.

(** ** The scan *)

Lemma scan_stops (IP : list Z) (k : nat) (y : Z) :
  (∀ (i : nat) x, (i < k)%nat → IP !! i = Some x → x > 1) →
  IP !! k = Some y → y ≤ 1 → (k < 80)%nat →
  ∀ (fuel j : nat), (j ≤ k)%nat → (k - j ≤ fuel)%nat →
    scan fuel IP (Z.of_nat j) = Some (Z.of_nat k).
Proof.
  intros Hbig Hk Hy Hk80.
  assert (Hlen : (k < length IP)%nat) by (by eapply lookup_lt_Some).
  induction fuel as [|fuel IH]; intros j Hj Hfuel.
  - assert (j = k) as -> by lia. simpl.
    rewrite bool_decide_true by lia. rewrite getitem_nat, Hk by done.
    by rewrite bool_decide_false by lia.
  - simpl. rewrite bool_decide_true by lia. rewrite getitem_nat by lia.
    destruct (decide (j = k)) as [->|Hne].
    + rewrite Hk. by rewrite bool_decide_false by lia.
    + destruct (lookup_lt_is_Some_2 IP j) as [x Hx]; [lia|]. rewrite Hx.
      rewrite bool_decide_true by (apply (Hbig j); [lia|done]).
      replace (Z.of_nat j + 1) with (Z.of_nat (S j)) by lia.
      apply IH; lia.
Qed.

Local Arguments scan : simpl never.

Lemma scan_app (pre tl : list Z) (y : Z) :
  Forall (fun x => x > 1) pre → head tl = Some y → y ≤ 1 →
  length (pre ++ tl) = 80%nat →
  scan 80 (pre ++ tl) 0 = Some (Z.of_nat (length pre)).
Proof.
  intros Hpre Hhd Hy Hlen. destruct tl as [|y' tl]; [done|]. simplify_eq/=.
  rewrite length_app in Hlen. simpl in Hlen.
  apply (scan_stops _ (length pre) y) with (fuel := 80%nat) (j := 0%nat);
    [|by apply list_lookup_middle|done|lia..].
  intros i x Hi Hx. rewrite lookup_app_l in Hx by done.
  by apply (Forall_lookup_1 (fun x => x > 1) pre i x).
Qed.

(** ** The three writes in closed form *)

Lemma update_spec (a q : nat) (nv r rem : Z) (IP : list Z) :
  let extra := if bool_decide (r > 0) then [r] else [] in
  length IP = 80%nat → (a + q + length extra ≤ 80)%nat →
  update (StepVars (Z.of_nat a) rem nv (Z.of_nat q) r) IP
  = Some (take a IP ++ replicate q nv ++ extra
          ++ replicate (80 - (a + q + length extra)) 0).
Proof.
  intros extra Hlen Hfit. unfold update, next_position. simpl.
  rewrite fill_spec by lia.
  set (IP1 := take a IP ++ replicate q nv ++ drop (a + q) IP).
  assert (Hlen1 : length IP1 = 80%nat).
  { unfold IP1. rewrite !length_app, length_take, length_replicate, length_drop. lia. }
  assert (Htake1 : take (a + q) IP1 = take a IP ++ replicate q nv).
  { unfold IP1. rewrite app_assoc. apply take_app_length'.
    rewrite length_app, length_take, length_replicate. lia. }
  unfold put_remainder, extra in *. clear extra.
  destruct (bool_decide (r > 0)) eqn:Hr; simpl in Hfit.
  - rewrite bool_decide_true by lia. rewrite <- Nat2Z.inj_add.
    rewrite setitem_nat by lia.
    replace (Z.of_nat (a + q) + 1) with (Z.of_nat (S (a + q))) by lia.
    rewrite zero_out_spec by (rewrite ?length_insert; lia).
    rewrite (take_S_r _ _ r) by (apply list_lookup_insert_eq; lia).
    rewrite take_insert_ge, Htake1 by lia.
    rewrite <- !app_assoc. simpl. do 5 f_equal. lia.
  - rewrite Z.add_0_r, <- Nat2Z.inj_add.
    destruct (decide (Z.of_nat (a + q) < 80)) as [Hlt|Hge];
      [rewrite bool_decide_true by done|rewrite bool_decide_false by done].
    + rewrite setitem_nat by lia.
      rewrite zero_out_spec by (rewrite ?length_insert; lia).
      rewrite take_insert_ge, Htake1 by lia.
      rewrite <- !app_assoc. simpl. by rewrite Nat.add_0_r.
    + rewrite zero_out_spec by lia. rewrite Htake1.
      rewrite <- !app_assoc. simpl. by rewrite Nat.add_0_r.
Qed.

(** ** Sizes and sums of lists of parts *)

Lemma length_le_sum (l : list Z) :
  Forall (fun x => x > 0) l → Z.of_nat (length l) ≤ Py.sum l.
Proof. induction 1 as [|x l Hx _ IH]; simpl; lia. Qed.

Lemma length_le_sum_big (l : list Z) :
  Forall (fun x => x > 1) l → 2 * Z.of_nat (length l) ≤ Py.sum l.
Proof. induction 1 as [|x l Hx _ IH]; simpl; lia. Qed.

Lemma length_pad (l : list Z) : (length l ≤ 80)%nat → length (pad l) = 80%nat.
Proof. intros Hl. unfold pad. rewrite length_app, length_replicate. lia. Qed.

Lemma non_zero_parts_pad (l : list Z) :
  Forall (fun x => x > 0) l → non_zero_parts (pad l) = l.
Proof.
  intros Hl. unfold non_zero_parts, pad. rewrite filter_app.
  assert (Hz : ∀ n, filter (fun val : Z => val > 0) (replicate n 0) = []).
  { induction n as [|n IH]; [done|]. rewrite replicate_S.
    rewrite filter_cons_False by lia. done. }
  rewrite Hz, app_nil_r.
  induction Hl as [|x l Hx _ IH]; [done|].
  rewrite filter_cons_True by done. by rewrite IH.
Qed.

Lemma sum_pad (l : list Z) : Py.sum (pad l) = Py.sum l.
Proof. unfold pad. rewrite sum_app, sum_replicate. lia. Qed.

(** ** The redistribution [greedy] *)

Section Greedy.
Variables n m : Z.
Hypothesis Hn : 0 ≤ n.
Hypothesis Hm : 0 < m.

Lemma greedy_sum : Py.sum (greedy n m) = n.
Proof.
  unfold greedy. rewrite sum_app, sum_replicate.
  pose proof (Z.div_pos n m Hn Hm). pose proof (Z.mod_pos_bound n m Hm).
  pose proof (Z.div_mod n m ltac:(lia)).
  rewrite Z2Nat.id by done. case_bool_decide; simpl; lia.
Qed.

Lemma greedy_pos : Forall (fun x => x > 0) (greedy n m).
Proof.
  unfold greedy. apply Forall_app. split.
  - apply Forall_replicate. lia.
  - case_bool_decide; [|done]. apply Forall_singleton. done.
Qed.

Lemma greedy_le : Forall (fun x => x ≤ m) (greedy n m).
Proof.
  unfold greedy. pose proof (Z.mod_pos_bound n m Hm). apply Forall_app. split.
  - apply Forall_replicate. lia.
  - case_bool_decide; [|done]. apply Forall_singleton. lia.
Qed.

Lemma greedy_length : Z.of_nat (length (greedy n m)) ≤ n.
Proof. rewrite <- greedy_sum at 2. apply length_le_sum, greedy_pos. Qed.

Lemma greedy_sorted : StronglySorted Z.ge (greedy n m).
Proof.
  unfold greedy. pose proof (Z.mod_pos_bound n m Hm).
  apply StronglySorted_app; split_and!.
  - intros x1 x2 [-> _]%elem_of_replicate Hx2.
    case_bool_decide; [|by apply elem_of_nil in Hx2].
    apply list_elem_of_singleton in Hx2 as ->. lia.
  - generalize (Z.to_nat (n `div` m)). intros q.
    induction q as [|q IH]; [constructor|]. rewrite replicate_S.
    constructor; [done|]. apply Forall_replicate. lia.
  - case_bool_decide; repeat constructor.
Qed.
End Greedy.

(** ** The transition from a state in canonical shape

    A partition that is not all ones is [pre ++ v :: replicate k 1] with
    every part of [pre] and [v] above one. *)

Section Canonical_step.
Variables (N : Z) (pre : list Z) (v : Z) (k : nat).
Hypothesis Hpre : Forall (fun x => x > 1) pre.
Hypothesis Hv : v > 1.
Hypothesis HN : Py.sum pre + v + Z.of_nat k = N.
Hypothesis H80 : N ≤ 80.

Local Abbreviation l := (pre ++ v :: replicate k 1).

Lemma canonical_shape_length : (length l + 1 < 80 + 1)%nat ∧ (length pre + 2 + k ≤ 80)%nat.
Proof using Hpre Hv HN H80.
  pose proof (length_le_sum_big pre Hpre).
  rewrite length_app. simpl. rewrite length_replicate. lia.
Qed.

Lemma prepare_canonical :
  prepare N (pad l)
  = Values (StepVars (Z.of_nat (length pre)) (v + Z.of_nat k) (v - 1)
              ((v + Z.of_nat k) `div` (v - 1)) ((v + Z.of_nat k) `mod` (v - 1))).
Proof using Hpre Hv HN H80.
  destruct canonical_shape_length as [_ Hlen].
  assert (Hl : length l = (length pre + 1 + k)%nat).
  { rewrite length_app. simpl. rewrite length_replicate. lia. }
  assert (Hsplit : pad l = (pre ++ [v])
                     ++ (replicate k 1 ++ replicate (80 - length l) 0)).
  { unfold pad. by rewrite <- !app_assoc. }
  assert (Hhd : ∃ y, head (replicate k 1 ++ replicate (80 - length l) 0) = Some y
                     ∧ y ≤ 1).
  { rewrite Hl. clear Hl Hsplit HN. destruct k as [|k'].
    - destruct (80 - (length pre + 1 + 0))%nat as [|z] eqn:Hz; [lia|].
      exists 0. done.
    - exists 1. done. }
  destruct Hhd as (y & Hhd & Hy).
  unfold prepare. rewrite Hsplit at 1.
  rewrite (scan_app _ _ y); [|apply Forall_app; split; [done|by apply Forall_singleton]
                             |done|done|rewrite <- Hsplit; apply length_pad; lia].
  rewrite length_app. simpl length.
  rewrite bool_decide_false by lia.
  replace (Z.of_nat (length pre + 1) - 1) with (Z.of_nat (length pre)) by lia.
  rewrite Nat2Z.id.
  assert (Htake : take (length pre) (pad l) = pre).
  { unfold pad. rewrite <- app_assoc. by rewrite take_app_length. }
  rewrite Htake.
  rewrite getitem_nat by (rewrite length_pad; lia).
  assert (Hv' : pad l !! length pre = Some v).
  { unfold pad. rewrite <- app_assoc. by apply list_lookup_middle. }
  rewrite Hv'. rewrite bool_decide_false by lia.
  replace (N - Py.sum pre) with (v + Z.of_nat k) by lia. done.
Qed.

(** The quotient and the remainder of the redistribution. *)
Lemma canonical_count_bounds :
  let q := (v + Z.of_nat k) `div` (v - 1) in
  let r := (v + Z.of_nat k) `mod` (v - 1) in
  1 ≤ q ∧ 0 ≤ r < v - 1
  ∧ Z.of_nat (length pre) + q + (if bool_decide (r > 0) then 1 else 0) ≤ N.
Proof using Hpre Hv HN H80.
  intros q r.
  pose proof (Z.mod_pos_bound (v + Z.of_nat k) (v - 1) ltac:(lia)) as Hr.
  pose proof (Z.div_mod (v + Z.of_nat k) (v - 1) ltac:(lia)) as Hdm.
  fold q r in Hr, Hdm.
  assert (1 ≤ q) by (apply Z.div_le_lower_bound; lia).
  pose proof (length_le_sum_big pre Hpre).
  split_and!; [done|lia|lia|]. case_bool_decide; nia.
Qed.

Lemma transition_canonical :
  transition N (pad l) = Next (pad (pre ++ greedy (v + Z.of_nat k) (v - 1))).
Proof using Hpre Hv HN H80.
  destruct canonical_shape_length as [_ Hlen].
  destruct canonical_count_bounds as (Hq & Hr & Hfit).
  unfold transition. rewrite prepare_canonical.
  set (q := (v + Z.of_nat k) `div` (v - 1)) in *.
  set (r := (v + Z.of_nat k) `mod` (v - 1)) in *.
  rewrite <- (Z2Nat.id q) at 1 by lia.
  assert (Hfit' : (length pre + Z.to_nat q
                   + length (if bool_decide (r > 0)%Z then [r] else []) ≤ 80)%nat).
  { destruct (bool_decide (r > 0)); simpl; simpl in Hfit; lia. }
  assert (Hl : length l = (length pre + 1 + k)%nat).
  { rewrite length_app. simpl. rewrite length_replicate. lia. }
  rewrite update_spec by (done || apply length_pad; lia).
  f_equal. unfold pad at 2. unfold greedy. fold q r.
  assert (Htake : take (length pre) (pad l) = pre).
  { unfold pad. rewrite <- app_assoc. by rewrite take_app_length. }
  rewrite Htake, <- !app_assoc. do 3 f_equal.
  rewrite !length_app, length_replicate. f_equal. lia.
Qed.
End Canonical_step.

(** ** The shape of a partition and the invariant *)

Local Instance Zge_transitive : Transitive Z.ge.
Proof. intros x y z. lia. Qed.

Lemma partition_shape (l : list Z) :
  Forall (fun x => x > 0) l → StronglySorted Z.ge l →
  l = replicate (length l) 1
  ∨ ∃ pre v k, l = pre ++ v :: replicate k 1
               ∧ Forall (fun x => x > 1) pre ∧ v > 1.
Proof.
  induction 1 as [|x l Hx Hl IH]; intros Hs; [by left|].
  apply StronglySorted_inv in Hs as [Hs Hxl].
  destruct (IH Hs) as [Hones|(pre & v & k & -> & Hpre & Hv)].
  - destruct (decide (x = 1)) as [->|Hne].
    + left. simpl. by rewrite <- Hones.
    + right. exists [], x, (length l). simpl. rewrite <- Hones.
      split_and!; [done|constructor|lia].
  - right. exists (x :: pre), v, k. split_and!; [done| |done].
    constructor; [|done].
    assert (x >= v); [|lia].
    eapply (Forall_forall (Z.ge x)); [exact Hxl|].
    apply elem_of_app. right. apply list_elem_of_here.
Qed.

Lemma prepare_break (N : Z) (IP : list Z) (y : Z) :
  head IP = Some y → y ≤ 1 → length IP = 80%nat → prepare N IP = Break.
Proof.
  intros Hhd Hy Hlen. unfold prepare.
  pose proof (scan_app [] IP y) as Hscan. rewrite app_nil_l in Hscan.
  rewrite Hscan; [done|constructor|done..].
Qed.

Lemma transition_all_ones (N : Z) (n : nat) :
  (n ≤ 80)%nat → transition N (pad (replicate n 1)) = Terminal.
Proof.
  intros Hn. unfold transition.
  rewrite (prepare_break N _ (if decide (n = 0%nat) then 0 else 1)); [done| | |].
  - destruct n as [|n]; [done|]. done.
  - by destruct (decide _).
  - apply length_pad. by rewrite length_replicate.
Qed.

Lemma is_partition_strongly (N : Z) (l : list Z) :
  is_partition N l
  ↔ Forall (fun x => x > 0) l ∧ StronglySorted Z.ge l ∧ Py.sum l = N.
Proof.
  unfold is_partition. split; intros (Hp & Hs & Hsum); split_and!; try done.
  - by apply (Sorted_StronglySorted Z.ge (Transitive0 := Zge_transitive)).
  - by apply StronglySorted_Sorted.
Qed.

(** Every canonical array is terminal and all ones, or of the shape the
    transition lemma covers. *)
Lemma canonical_cases (N : Z) (IP : list Z) :
  N ≤ 80 → canonical N IP →
  (IP = pad (replicate (Z.to_nat N) 1) ∧ 0 ≤ N)
  ∨ ∃ pre v k, IP = pad (pre ++ v :: replicate k 1)
               ∧ Forall (fun x => x > 1) pre ∧ v > 1
               ∧ Py.sum pre + v + Z.of_nat k = N
               ∧ is_partition N (pre ++ v :: replicate k 1).
Proof.
  intros H80 (l & -> & Hlen & Hpart).
  pose proof Hpart as (Hpos & Hs & Hsum)%is_partition_strongly.
  destruct (partition_shape l Hpos Hs) as [Hones|(pre & v & k & -> & Hpre & Hv)].
  - left. rewrite Hones in Hsum. rewrite sum_replicate in Hsum.
    rewrite Hones at 1. split; [|lia]. do 2 f_equal. lia.
  - right. exists pre, v, k. split_and!; try done.
    rewrite sum_app in Hsum. simpl in Hsum. rewrite sum_replicate in Hsum. lia.
Qed.

Lemma next_is_partition (N : Z) (pre : list Z) (v : Z) (k : nat) :
  Forall (fun x => x > 1) pre → v > 1 →
  is_partition N (pre ++ v :: replicate k 1) →
  is_partition N (pre ++ greedy (v + Z.of_nat k) (v - 1)).
Proof.
  intros Hpre Hv (Hpos & Hs & Hsum)%is_partition_strongly.
  apply is_partition_strongly.
  apply StronglySorted_app in Hs as (Hcross & Hs1 & _).
  rewrite sum_app in Hsum. simpl in Hsum. rewrite sum_replicate in Hsum.
  split_and!.
  - apply Forall_app. split.
    + eapply Forall_impl; [exact Hpre|]. simpl. lia.
    + apply greedy_pos. lia.
  - apply StronglySorted_app. split_and!; [|done|apply greedy_sorted; lia].
    intros x1 x2 Hx1 Hx2.
    assert (x1 >= v) by (apply Hcross; [done|apply list_elem_of_here]).
    assert (x2 ≤ v - 1); [|lia].
    eapply (Forall_forall (fun x => x ≤ v - 1)); [|exact Hx2].
    apply greedy_le. lia.
  - rewrite sum_app, greedy_sum by lia. lia.
Qed.

Lemma canonical_initial (N : Z) : 0 ≤ N ≤ 80 → canonical N (initial N).
Proof.
  intros HN. destruct (decide (N = 0)) as [->|Hne].
  - exists []. split_and!; [done|simpl; lia|]. by split_and!.
  - exists [N]. split_and!; [done|simpl; lia|]. split_and!; simpl.
    + apply Forall_singleton. lia.
    + repeat constructor.
    + lia.
Qed.

Lemma canonical_next (N : Z) (IP IP' : list Z) :
  N ≤ 80 → canonical N IP → transition N IP = Next IP' → canonical N IP'.
Proof.
  intros H80 Hcan Hstep.
  destruct (canonical_cases N IP H80 Hcan)
    as [[-> HN]|(pre & v & k & -> & Hpre & Hv & Hsum & Hpart)].
  - rewrite transition_all_ones in Hstep by (rewrite ?length_replicate; lia). done.
  - rewrite (transition_canonical N pre v k) in Hstep by done.
    injection Hstep as <-.
    pose proof (next_is_partition N pre v k Hpre Hv Hpart) as Hpart'.
    exists (pre ++ greedy (v + Z.of_nat k) (v - 1)). split_and!; [done| |done].
    destruct Hpart' as (Hpos & _ & Hsum').
    pose proof (length_le_sum _ Hpos). lia.
Qed.

Lemma reachable_canonical (N : Z) (IP : list Z) :
  0 ≤ N ≤ 80 → reachable N IP → canonical N IP.
Proof.
  intros HN. induction 1 as [|IP IP' _ IH Hstep].
  - by apply canonical_initial.
  - eapply canonical_next; [lia|exact IH|exact Hstep].
Qed.

(** ** Facts of division behind [greedy] *)

Lemma greedy_zero (m : Z) : greedy 0 m = [].
Proof. unfold greedy. rewrite Zdiv_0_l, Zmod_0_l. done. Qed.

Lemma greedy_ge (n m : Z) : 0 < n ≤ m → greedy n m = [n].
Proof.
  intros Hnm. unfold greedy. destruct (decide (n = m)) as [->|Hne].
  - rewrite Z_div_same_full, Z_mod_same_full by lia. done.
  - rewrite Z.div_small, Z.mod_small by lia. simpl.
    by rewrite bool_decide_true by lia.
Qed.

Lemma greedy_step (n m : Z) : 0 < m ≤ n → greedy n m = m :: greedy (n - m) m.
Proof.
  intros Hnm. unfold greedy.
  assert (Hd : n `div` m = (n - m) `div` m + 1).
  { rewrite <- (Z_div_plus_full (n - m) 1 m) by lia. f_equal. lia. }
  assert (Hr : n `mod` m = (n - m) `mod` m).
  { rewrite <- (Z_mod_plus_full (n - m) 1 m). f_equal. lia. }
  pose proof (Z.div_pos (n - m) m ltac:(lia) ltac:(lia)).
  rewrite Hd, Hr. rewrite Z2Nat.inj_add by lia. rewrite Nat.add_comm. done.
Qed.

Lemma greedy_one (n : Z) : 0 ≤ n → greedy n 1 = replicate (Z.to_nat n) 1.
Proof.
  intros Hn. unfold greedy. rewrite Z.div_1_r, Z.mod_1_r. simpl.
  by rewrite app_nil_r.
Qed.

(** ** The list of partitions, in the order of the enumeration *)

Lemma parts_S (f : nat) (n m : Z) :
  parts (S f) n m
  = if bool_decide (n = 0) then [[]]
    else if bool_decide (m ≤ 0) then []
    else (if bool_decide (m ≤ n) then cons m <$> parts f (n - m) m else [])
         ++ parts f n (m - 1).
Proof. done. Qed.

Lemma parts_no_part (f : nat) (n m : Z) : n ≠ 0 → m ≤ 0 → parts f n m = [].
Proof.
  intros Hn Hm. destruct f as [|f]; [done|]. rewrite parts_S.
  rewrite bool_decide_false by done. by rewrite bool_decide_true by done.
Qed.

Lemma parts_one (f : nat) :
  ∀ n, 0 ≤ n → (Z.to_nat n + 1 < f)%nat →
       parts f n 1 = [replicate (Z.to_nat n) 1].
Proof.
  induction f as [|f IH]; intros n Hn Hf; [lia|]. rewrite parts_S.
  case_bool_decide as Hn0; [by subst|].
  rewrite bool_decide_false by lia. rewrite bool_decide_true by lia.
  rewrite IH by lia. rewrite parts_no_part by lia. simpl.
  replace (Z.to_nat n) with (S (Z.to_nat (n - 1))) by lia. done.
Qed.

Lemma linked_cons (N : Z) (pre : list Z) (m : Z) (a : list Z) (L : list (list Z)) :
  linked N (pre ++ [m]) a L → linked N pre (m :: a) (cons m <$> L).
Proof.
  revert a. induction L as [|b L IH]; intros a; [done|]. simpl.
  intros [Hstep Hrest]. split; [|by apply IH].
  by rewrite <- !app_assoc in Hstep.
Qed.

Lemma linked_app (N : Z) (pre : list Z) (L1 : list (list Z)) :
  ∀ a z b L2,
    linked N pre a L1 → last (a :: L1) = Some z →
    transition N (pad (pre ++ z)) = Next (pad (pre ++ b)) →
    linked N pre b L2 →
    linked N pre a (L1 ++ b :: L2).
Proof.
  induction L1 as [|c L1 IH]; intros a z b L2 H1 Hlast Hstep H2; simpl in *.
  - by simplify_eq.
  - destruct H1 as [Hac H1]. split; [done|]. by eapply IH.
Qed.

(** With enough fuel, [parts f n m] starts with the greedy partition,
    ends with the all-ones partition, and each of its elements is taken
    to the next one by the transition, under any prefix of parts above
    one. *)
Lemma parts_chain (f : nat) :
  ∀ (n m N : Z) (pre : list Z),
    0 ≤ n → 1 ≤ m → (Z.to_nat n + Z.to_nat m < f)%nat →
    Forall (fun x => x > 1) pre → Py.sum pre + n = N → N ≤ 80 →
    ∃ L, parts f n m = greedy n m :: L
         ∧ linked N pre (greedy n m) L
         ∧ last (greedy n m :: L) = Some (replicate (Z.to_nat n) 1).
Proof.
  induction f as [|f IH]; intros n m N pre Hn Hm Hf Hpre HN H80; [lia|].
  rewrite parts_S. case_bool_decide as Hn0.
  { subst n. exists []. by rewrite greedy_zero. }
  rewrite bool_decide_false by lia.
  destruct (decide (m = 1)) as [->|Hm1].
  { rewrite bool_decide_true by lia. rewrite parts_one by lia.
    rewrite parts_no_part by lia. exists []. rewrite greedy_one by lia. simpl.
    replace (Z.to_nat n) with (S (Z.to_nat (n - 1))) by lia. done. }
  case_bool_decide as Hmn.
  - destruct (IH (n - m) m N (pre ++ [m])) as (L1 & E1 & Hl1 & Hlast1);
      [lia|lia|lia| |rewrite sum_app; simpl; lia|done|].
    { apply Forall_app. split; [done|]. apply Forall_singleton. lia. }
    destruct (IH n (m - 1) N pre) as (L2 & E2 & Hl2 & Hlast2); [lia..|done|done|done|].
    rewrite E1, E2. rewrite (greedy_step n m) by lia.
    exists ((cons m <$> L1) ++ greedy n (m - 1) :: L2). split_and!.
    + done.
    + eapply (linked_app N pre _ _ (m :: replicate (Z.to_nat (n - m)) 1)).
      * by apply linked_cons.
      * change (last (cons m <$> (greedy (n - m) m :: L1))
                = Some (m :: replicate (Z.to_nat (n - m)) 1)).
        rewrite fmap_last, Hlast1. done.
      * rewrite (transition_canonical N pre m (Z.to_nat (n - m))) by (done || lia).
        do 3 f_equal. rewrite Z2Nat.id by lia. f_equal. lia.
      * done.
    + rewrite app_comm_cons, last_app, Hlast2. done.
  - destruct (IH n (m - 1) N pre) as (L2 & E2 & Hl2 & Hlast2); [lia..|done|done|done|].
    simpl. rewrite E2. rewrite (greedy_ge n (m - 1)) in * by lia.
    rewrite (greedy_ge n m) by lia. by exists L2.
Qed.

Lemma parts_sound (f : nat) :
  ∀ (n m : Z) (l : list Z), l ∈ parts f n m →
    Forall (fun x => x > 0) l ∧ StronglySorted Z.ge l ∧ Py.sum l = n
    ∧ Forall (fun x => x ≤ m) l.
Proof.
  induction f as [|f IH]; intros n m l Hl; [by apply elem_of_nil in Hl|].
  rewrite parts_S in Hl. case_bool_decide as Hn0.
  { apply list_elem_of_singleton in Hl as ->. subst n. by repeat constructor. }
  case_bool_decide as Hm0; [by apply elem_of_nil in Hl|].
  apply elem_of_app in Hl as [Hl|Hl].
  - case_bool_decide as Hmn; [|by apply elem_of_nil in Hl].
    apply list_elem_of_fmap in Hl as (t & -> & Ht).
    destruct (IH _ _ _ Ht) as (Hpos & Hs & Hsum & Hle).
    split_and!.
    + constructor; [lia|done].
    + constructor; [done|]. eapply Forall_impl; [exact Hle|]. simpl. lia.
    + simpl. lia.
    + constructor; [lia|done].
  - destruct (IH _ _ _ Hl) as (Hpos & Hs & Hsum & Hle).
    split_and!; try done. eapply Forall_impl; [exact Hle|]. simpl. lia.
Qed.

Lemma parts_complete (f : nat) :
  ∀ (n m : Z) (l : list Z),
    (Z.to_nat n + Z.to_nat m < f)%nat →
    Forall (fun x => x > 0) l → StronglySorted Z.ge l → Py.sum l = n →
    Forall (fun x => x ≤ m) l →
    l ∈ parts f n m.
Proof.
  induction f as [|f IH]; intros n m l Hf Hpos Hs Hsum Hle; [lia|].
  rewrite parts_S. destruct l as [|x t].
  { simpl in Hsum. subst n. rewrite bool_decide_true by done.
    apply list_elem_of_here. }
  apply Forall_cons in Hpos as [Hx Hpos]. apply Forall_cons in Hle as [Hxm Hle].
  apply StronglySorted_inv in Hs as [Hs Hxt]. simpl in Hsum.
  pose proof (length_le_sum t Hpos).
  rewrite !bool_decide_false by lia. apply elem_of_app.
  destruct (decide (x = m)) as [->|Hne].
  - left. rewrite bool_decide_true by lia.
    apply list_elem_of_fmap. exists t. split; [done|].
    apply IH; [lia|done|done|lia|].
    eapply Forall_impl; [exact Hxt|]. simpl. lia.
  - right. apply IH; [lia| | |simpl; lia|].
    + by constructor.
    + by constructor.
    + constructor; [lia|]. eapply Forall_impl; [exact Hxt|]. simpl. lia.
Qed.

Lemma parts_NoDup (f : nat) : ∀ n m, NoDup (parts f n m).
Proof.
  induction f as [|f IH]; intros n m; [constructor|].
  rewrite parts_S. case_bool_decide; [apply NoDup_singleton|].
  case_bool_decide; [constructor|].
  apply NoDup_app. split_and!.
  - case_bool_decide; [|constructor].
    apply (NoDup_fmap_2 (cons m)). apply IH.
  - intros l Hl1 Hl2. case_bool_decide; [|by apply elem_of_nil in Hl1].
    apply list_elem_of_fmap in Hl1 as (t & -> & _).
    apply parts_sound in Hl2 as (_ & _ & _ & Hle).
    apply Forall_cons in Hle as [Hle _]. lia.
  - apply IH.
Qed.

Lemma parts_length (f : nat) :
  ∀ n m, Z.of_nat (length (parts f n m)) = count_le f n m.
Proof.
  induction f as [|f IH]; intros n m; [done|].
  rewrite parts_S. simpl count_le. case_bool_decide; [done|].
  case_bool_decide; [done|].
  rewrite length_app, Nat2Z.inj_add, IH. f_equal.
  case_bool_decide; [|done]. by rewrite length_fmap, IH.
Qed.

(** [partitions N] lists every partition of [N] once. *)
Lemma partitions_spec (N : Z) (l : list Z) :
  0 ≤ N → l ∈ partitions N ↔ is_partition N l.
Proof.
  intros HN. unfold partitions. rewrite is_partition_strongly. split.
  - intros Hl. apply parts_sound in Hl. tauto.
  - intros (Hpos & Hs & Hsum). apply parts_complete; [lia|done..|].
    apply Forall_forall. intros x Hx.
    apply list_elem_of_split in Hx as (l1 & l2 & ->).
    apply Forall_app in Hpos as [Hp1 Hp2]. apply Forall_cons in Hp2 as [_ Hp2].
    rewrite sum_app in Hsum. simpl in Hsum.
    pose proof (length_le_sum _ Hp1). pose proof (length_le_sum _ Hp2). lia.
Qed.

(** ** The run of the loop *)

Lemma loop_follows (N : Z) (L : list (list Z)) :
  ∀ (IP : list Z) (fuel : nat),
    follows N IP L →
    loop fuel N IP
    = (take fuel L, if bool_decide (length L < fuel)%nat then Completed else Unfinished).
Proof.
  induction L as [|b L IH]; intros IP fuel HL; simpl in HL.
  - destruct fuel as [|fuel]; [done|]. simpl. by rewrite HL.
  - destruct HL as [Hstep HL]. destruct fuel as [|fuel]; [done|].
    simpl. rewrite Hstep, (IH b fuel HL). f_equal.
    destruct (decide (length L < fuel)%nat);
      [rewrite !bool_decide_true by lia|rewrite !bool_decide_false by lia]; done.
Qed.

Lemma linked_follows (N : Z) (L : list (list Z)) :
  ∀ a z, linked N [] a L → last (a :: L) = Some z →
         transition N (pad z) = Terminal →
         follows N (pad a) (pad <$> L).
Proof.
  induction L as [|b L IH]; intros a z Hl Hlast Hz; simpl in *.
  - by simplify_eq.
  - destruct Hl as [Hab Hl]. split; [done|]. by eapply IH.
Qed.

Lemma partitions_follows (N : Z) :
  0 ≤ N ≤ 80 →
  ∃ L, partitions N = greedy N N :: L
       ∧ pad (greedy N N) = initial N
       ∧ follows N (initial N) (pad <$> L)
       ∧ last (greedy N N :: L) = Some (replicate (Z.to_nat N) 1).
Proof.
  intros HN. destruct (decide (N = 0)) as [->|Hne].
  - exists []. split_and!; [done..| |done].
    apply (transition_all_ones 0 0). lia.
  - destruct (parts_chain (S (Z.to_nat N + Z.to_nat N)) N N N [])
      as (L & E & Hl & Hlast); [lia..|constructor|simpl; lia|lia|].
    exists L. assert (Hinit : pad (greedy N N) = initial N).
    { by rewrite greedy_ge by lia. }
    split_and!; try done. rewrite <- Hinit.
    eapply linked_follows; [done..|].
    apply transition_all_ones. lia.
Qed.

(** The arrays a run emits are the partitions of [N], padded, in the
    order of [partitions N]; the run completes once the fuel covers them. *)
Lemma enumerate_partitions (N : Z) (fuel : nat) :
  0 ≤ N ≤ 80 →
  enumerate fuel N
  = (take (S fuel) (pad <$> partitions N),
     if bool_decide (length (partitions N) ≤ fuel)%nat then Completed else Unfinished).
Proof.
  intros HN. destruct (partitions_follows N HN) as (L & E & Hinit & HL & _).
  unfold enumerate. rewrite (loop_follows N _ _ _ HL), E.
  rewrite fmap_cons, Hinit. simpl. by rewrite length_fmap.
Qed.

Lemma partitions_length (N : Z) : Z.of_nat (length (partitions N)) = p N.
Proof. apply parts_length. Qed.

Lemma enumerate_complete_run (N : Z) (fuel : nat) :
  0 ≤ N ≤ 80 → (Z.to_nat (p N) ≤ fuel)%nat →
  enumerate fuel N = (pad <$> partitions N, Completed).
Proof.
  intros HN Hfuel. pose proof (partitions_length N) as Hlen.
  rewrite enumerate_partitions by done.
  rewrite bool_decide_true by lia.
  by rewrite take_ge by (rewrite length_fmap; lia).
Qed.

Lemma partitions_positive (N : Z) :
  Forall (fun l => Forall (fun x => x > 0) l) (partitions N).
Proof.
  apply Forall_forall. intros l Hl. unfold partitions in Hl.
  by apply parts_sound in Hl as (? & _).
Qed.

Lemma non_zero_parts_padded (L : list (list Z)) :
  Forall (fun l => Forall (fun x => x > 0) l) L →
  non_zero_parts <$> (pad <$> L) = L.
Proof.
  induction 1 as [|l L Hl _ IH]; [done|].
  rewrite !fmap_cons, IH. by rewrite non_zero_parts_pad.
Qed.

(** ** The partition numbers row by row *)

Lemma count_le_S (f : nat) (n m : Z) :
  count_le (S f) n m
  = if bool_decide (n = 0) then 1
    else if bool_decide (m ≤ 0) then 0
    else (if bool_decide (m ≤ n) then count_le f (n - m) m else 0)
         + count_le f n (m - 1).
Proof. done. Qed.

Lemma count_le_fuel (f1 : nat) :
  ∀ (f2 : nat) (n m : Z),
    (Z.to_nat n + Z.to_nat m < f1)%nat → (Z.to_nat n + Z.to_nat m < f2)%nat →
    count_le f1 n m = count_le f2 n m.
Proof.
  induction f1 as [|f1 IH]; intros f2 n m H1 H2; [lia|].
  destruct f2 as [|f2]; [lia|]. rewrite !count_le_S.
  case_bool_decide; [done|]. case_bool_decide; [done|]. f_equal.
  - case_bool_decide; [|done]. apply IH; lia.
  - apply IH; lia.
Qed.

Lemma count_first_row (n : nat) : count_at n 0 = if decide (n = 0%nat) then 1 else 0.
Proof.
  unfold count_at. rewrite count_le_S.
  destruct (decide (n = 0%nat)) as [->|Hn]; [done|].
  rewrite bool_decide_false by lia. by rewrite bool_decide_true by lia.
Qed.

Lemma count_next_row (n m : nat) :
  count_at n (S m) = count_at n m + (if decide (S m ≤ n)%nat then count_at (n - S m) (S m) else 0).
Proof.
  unfold count_at. rewrite count_le_S. destruct (decide (n = 0%nat)) as [->|Hn].
  - done.
  - rewrite !bool_decide_false by lia.
    replace (Z.of_nat (S m) - 1) with (Z.of_nat m) by lia.
    rewrite (count_le_fuel _ (S (n + m)) (Z.of_nat n) (Z.of_nat m)) by lia.
    rewrite Z.add_comm. f_equal.
    destruct (decide (S m ≤ n)%nat) as [Hle|Hgt].
    + rewrite bool_decide_true by lia.
      replace (Z.of_nat n - Z.of_nat (S m)) with (Z.of_nat (n - S m)) by lia.
      apply count_le_fuel; lia.
    + by rewrite bool_decide_false by lia.
Qed.

Lemma next_row_spec (k : nat) (g old : nat → Z) :
  (1 ≤ k)%nat →
  (∀ n, g n = old n + (if decide (k ≤ n)%nat then g (n - k)%nat else 0)) →
  ∀ (len j : nat),
    next_row k (old <$> seq j len) (reverse (g <$> seq 0 j))
    = g <$> seq 0 (j + len).
Proof.
  intros Hk Hg. induction len as [|len IH]; intros j.
  - simpl. by rewrite reverse_involutive, Nat.add_0_r.
  - simpl seq. rewrite fmap_cons. simpl next_row.
    assert (Hback : default 0 (reverse (g <$> seq 0 j) !! (k - 1)%nat)
                    = if decide (k ≤ j)%nat then g (j - k)%nat else 0).
    { destruct (decide (k ≤ j)%nat) as [Hle|Hgt].
      - rewrite reverse_lookup by (rewrite length_fmap, length_seq; lia).
        rewrite length_fmap, length_seq, list_lookup_fmap.
        rewrite lookup_seq_lt by lia. simpl. f_equal. lia.
      - rewrite lookup_ge_None_2; [done|].
        rewrite length_reverse, length_fmap, length_seq. lia. }
    rewrite Hback, <- Hg.
    replace (g j :: reverse (g <$> seq 0 j)) with (reverse (g <$> seq 0 (S j))).
    + rewrite IH. by rewrite Nat.add_succ_r.
    + by rewrite seq_S, fmap_app, reverse_app.
Qed.

Lemma count_row_spec (K m : nat) :
  count_row K m = (fun n => count_at n m) <$> seq 0 (S K).
Proof.
  induction m as [|m IH].
  - apply list_fmap_ext. intros _ n _. by rewrite count_first_row.
  - change (count_row K (S m)) with (next_row (S m) (count_row K m) []).
    rewrite IH.
    apply (next_row_spec (S m) (fun n => count_at n (S m)) (fun n => count_at n m)
             ltac:(lia) (fun n => count_next_row n m) (S K) 0%nat).
Qed.

Lemma p_row (n : nat) : p (Z.of_nat n) = default 0 (count_row n n !! n).
Proof.
  rewrite count_row_spec, list_lookup_fmap, lookup_seq_lt by lia. simpl.
  unfold p, count_at. by rewrite Nat2Z.id.
Qed.

Lemma p_80 : p 80 = 15796476.
Proof. change 80 with (Z.of_nat 80). rewrite p_row. by vm_compute. Qed.

(** ** Reachable states and the trace of a run *)

Lemma loop_reachable (N : Z) (fuel : nat) :
  ∀ IP IP', reachable N IP → IP' ∈ (loop fuel N IP).1 → reachable N IP'.
Proof.
  induction fuel as [|fuel IH]; intros IP IP' Hr Hin; simpl in Hin.
  - by apply elem_of_nil in Hin.
  - destruct (transition N IP) as [|IP1|] eqn:Hstep;
      try (by apply elem_of_nil in Hin).
    destruct (loop fuel N IP1) as [out st] eqn:Hloop. simpl in Hin.
    assert (Hr1 : reachable N IP1) by (by eapply reach_next).
    apply elem_of_cons in Hin as [->|Hin]; [done|].
    apply (IH IP1); [done|]. by rewrite Hloop.
Qed.

Lemma enumerate_reachable (N : Z) (fuel : nat) (IP : list Z) :
  IP ∈ (enumerate fuel N).1 → reachable N IP.
Proof.
  unfold enumerate. destruct (loop fuel N (initial N)) as [out st] eqn:Hloop.
  simpl. intros [->|Hin]%elem_of_cons; [constructor|].
  apply (loop_reachable N fuel (initial N)); [constructor|]. by rewrite Hloop.
Qed.

Lemma loop_consecutive (N : Z) (fuel : nat) :
  ∀ IP (i : nat) a b,
    reachable N IP →
    (IP :: (loop fuel N IP).1) !! i = Some a →
    (IP :: (loop fuel N IP).1) !! S i = Some b →
    reachable N a ∧ transition N a = Next b.
Proof.
  induction fuel as [|fuel IH]; intros IP i a b Hr Ha Hb; simpl in Ha, Hb.
  - by destruct i.
  - destruct (transition N IP) as [|IP1|] eqn:Hstep; try (by destruct i).
    destruct (loop fuel N IP1) as [out st] eqn:Hloop. simpl in Ha, Hb.
    destruct i as [|i]; simpl in Ha, Hb.
    + by simplify_eq.
    + apply (IH IP1 i); [by eapply reach_next|by rewrite Hloop..].
Qed.

Lemma enumerate_consecutive (N : Z) (fuel i : nat) (a b : list Z) :
  (enumerate fuel N).1 !! i = Some a → (enumerate fuel N).1 !! S i = Some b →
  reachable N a ∧ transition N a = Next b.
Proof.
  unfold enumerate. destruct (loop fuel N (initial N)) as [out st] eqn:Hloop.
  intros Ha Hb. apply (loop_consecutive N fuel (initial N) i);
    [constructor|by rewrite Hloop..].
Qed.

(** ** The invariant in the words of the data model *)

Lemma filter_nonzero_pad (l : list Z) :
  Forall (fun x => x > 0) l → filter (fun x => x ≠ 0) (pad l) = l.
Proof.
  intros Hl. unfold pad. rewrite filter_app.
  assert (Hz : ∀ n, filter (fun x : Z => x ≠ 0) (replicate n 0) = []).
  { induction n as [|n IH]; [done|]. rewrite replicate_S.
    rewrite filter_cons_False by (intros ?; done). done. }
  rewrite Hz, app_nil_r.
  induction Hl as [|x l Hx _ IH]; [done|].
  rewrite filter_cons_True by lia. by rewrite IH.
Qed.

Lemma nonzero_prefix_pad (l : list Z) :
  Forall (fun x => x > 0) l → nonzero_prefix (pad l) = l.
Proof.
  intros Hl. unfold pad. generalize (80 - length l)%nat. intros n.
  induction Hl as [|x l Hx _ IH]; simpl.
  - by destruct n.
  - rewrite bool_decide_false by lia. by rewrite IH.
Qed.

Lemma canonical_invariant (N : Z) (IP : list Z) :
  canonical N IP → invariant N IP.
Proof.
  intros (l & -> & Hlen & Hpos & Hs & Hsum). unfold invariant.
  rewrite filter_nonzero_pad, nonzero_prefix_pad, non_zero_parts_pad by done.
  split_and!; try done. by apply length_pad.
Qed.

(** * The claims *)

(** ** Counting *)

Lemma p_small : p 0 = 1 ∧ p 1 = 1 ∧ p 5 = 7 ∧ p 10 = 42.
Proof. by vm_compute. Qed.

(** C1. For every target [N] the arrays can hold, [0 ≤ N ≤ 80], a run
    with enough fuel completes and emits exactly [p N] arrays, no array
    twice; their non-zero parts are the list [partitions N], which has no
    duplicate and contains exactly the partitions of [N].  [p] takes the
    values [p 0 = 1], [p 1 = 1], [p 5 = 7], [p 10 = 42],
    [p 80 = 15796476]. *)
Theorem emitted_count_is_partition_number (N : Z) (HN : 0 ≤ N ≤ 80) :
  (∀ fuel, (Z.to_nat (p N) ≤ fuel)%nat →
     (enumerate fuel N).2 = Completed
     ∧ Z.of_nat (length (enumerate fuel N).1) = p N
     ∧ NoDup (enumerate fuel N).1
     ∧ non_zero_parts <$> (enumerate fuel N).1 = partitions N)
  ∧ NoDup (partitions N)
  ∧ (∀ l, l ∈ partitions N ↔ is_partition N l)
  ∧ p 0 = 1 ∧ p 1 = 1 ∧ p 5 = 7 ∧ p 10 = 42 ∧ p 80 = 15796476.
Proof.
  pose proof (partitions_length N) as Hlen.
  split_and!; try apply p_small; try apply p_80.
  - intros fuel Hfuel. rewrite enumerate_complete_run by done. cbn [fst snd].
    pose proof (non_zero_parts_padded _ (partitions_positive N)) as Hparts.
    split_and!; [done|by rewrite length_fmap| |done].
    apply (NoDup_fmap_1 non_zero_parts). rewrite Hparts. apply parts_NoDup.
  - apply parts_NoDup.
  - intros l. apply partitions_spec. lia.
Qed.

Lemma emitted_count_is_partition_number_witness :
  0 ≤ 5 ≤ 80
  ∧ (∀ fuel, (Z.to_nat (p 5) ≤ fuel)%nat →
       (enumerate fuel 5).2 = Completed
       ∧ Z.of_nat (length (enumerate fuel 5).1) = p 5
       ∧ NoDup (enumerate fuel 5).1
       ∧ non_zero_parts <$> (enumerate fuel 5).1 = partitions 5).
Proof.
  split; [lia|].
  apply (emitted_count_is_partition_number 5). lia.
Defined.

(** ** The invariant *)

(** C2. For [0 ≤ N ≤ 80], every state the loop reaches, and so every
    array a run emits, satisfies [invariant]: the non-zero cells add up
    to [N] and the non-zero prefix is non-increasing. *)
Theorem invariant_at_every_step (N : Z) (HN : 0 ≤ N ≤ 80) :
  (∀ IP, reachable N IP → invariant N IP)
  ∧ (∀ fuel IP, IP ∈ (enumerate fuel N).1 → invariant N IP).
Proof.
  assert (H : ∀ IP, reachable N IP → invariant N IP).
  { intros IP Hr. by apply canonical_invariant, reachable_canonical. }
  split; [done|]. intros fuel IP Hin. by eapply H, enumerate_reachable.
Qed.

(** The bound [N ≤ 80] is the capacity of the array.  One cell short, the
    guards do cut: for the target 81 the step from the array of
    [[2, 1, ..., 1]] (80 parts) keeps 80 ones, whose sum is 80. *)
Example step_beyond_capacity :
  canonical 81 (pad (2 :: replicate 79 1))
  ∧ transition 81 (pad (2 :: replicate 79 1)) = Next (replicate 80 1)
  ∧ Py.sum (replicate 80 1) = 80.
Proof.
  split_and!; [|by vm_compute..].
  exists (2 :: replicate 79 1). split_and!; [done|by vm_compute|].
  split_and!; [| |by vm_compute].
  - constructor; [lia|]. apply Forall_replicate. lia.
  - apply StronglySorted_Sorted. constructor; [|apply Forall_replicate; lia].
    generalize 79%nat. intros n. induction n as [|n IH]; [constructor|].
    rewrite replicate_S. constructor; [done|]. apply Forall_replicate. lia.
Qed.

Lemma invariant_at_every_step_witness :
  0 ≤ 5 ≤ 80
  ∧ (∀ IP, reachable 5 IP → invariant 5 IP)
  ∧ (∀ fuel IP, IP ∈ (enumerate fuel 5).1 → invariant 5 IP).
Proof.
  split; [lia|]. apply (invariant_at_every_step 5). lia.
Defined.

(** ** The order of emission for [N = 5] *)

Lemma partitions_5 :
  partitions 5
  = [[5]; [4; 1]; [3; 2]; [3; 1; 1]; [2; 2; 1]; [2; 1; 1; 1]; [1; 1; 1; 1; 1]].
Proof. by vm_compute. Qed.

(** C3. For [N = 5] a run with fuel for seven passes or more completes,
    and the arrays it emits are the seven partitions [5], [4,1], [3,2],
    [3,1,1], [2,2,1], [2,1,1,1], [1,1,1,1,1], padded, in that order. *)
Theorem enumeration_of_five (extra : nat) :
  enumerate (7 + extra) 5
  = (pad <$> [[5]; [4; 1]; [3; 2]; [3; 1; 1]; [2; 2; 1]; [2; 1; 1; 1];
              [1; 1; 1; 1; 1]], Completed)
  ∧ non_zero_parts <$> (enumerate (7 + extra) 5).1
    = [[5]; [4; 1]; [3; 2]; [3; 1; 1]; [2; 2; 1]; [2; 1; 1; 1]; [1; 1; 1; 1; 1]]
  ∧ length (enumerate (7 + extra) 5).1 = 7%nat.
Proof.
  assert (E : enumerate (7 + extra) 5
              = (pad <$> partitions 5, Completed)).
  { rewrite enumerate_partitions by lia. rewrite partitions_5.
    rewrite bool_decide_true by (simpl; lia).
    rewrite take_ge by (simpl; lia). done. }
  rewrite E, partitions_5. split_and!; [done|by vm_compute|done].
Qed.

Example enumerate_5_direct :
  enumerate 7 5
  = (pad <$> [[5]; [4; 1]; [3; 2]; [3; 1; 1]; [2; 2; 1]; [2; 1; 1; 1];
              [1; 1; 1; 1; 1]], Completed).
Proof. by vm_compute. Qed.

(** ** The order of consecutive arrays *)

Lemma lex_lt_app (pre a b : list Z) : lex_lt (pre ++ a) (pre ++ b) = lex_lt a b.
Proof.
  induction pre as [|x pre IH]; [done|]. simpl.
  rewrite bool_decide_false by lia. by rewrite bool_decide_true by done.
Qed.

Lemma step_decreases (N : Z) (IP IP' : list Z) :
  N ≤ 80 → canonical N IP → transition N IP = Next IP' → lex_lt IP' IP = true.
Proof.
  intros H80 Hcan Hstep.
  destruct (canonical_cases N IP H80 Hcan)
    as [[-> HN]|(pre & v & k & -> & Hpre & Hv & Hsum & Hpart)].
  - rewrite transition_all_ones in Hstep by (rewrite ?length_replicate; lia). done.
  - rewrite (transition_canonical N pre v k) in Hstep by done.
    injection Hstep as <-. rewrite greedy_step by lia.
    unfold pad. rewrite <- !app_assoc, lex_lt_app. simpl.
    by rewrite bool_decide_true by lia.
Qed.

(** C4. For [0 ≤ N ≤ 80], of two arrays a run emits one after the other,
    the later one is below the earlier one in the lexicographic order of
    the 80-cell arrays. *)
Theorem consecutive_arrays_decrease (N : Z) (HN : 0 ≤ N ≤ 80)
    (fuel i : nat) (a b : list Z) :
  (enumerate fuel N).1 !! i = Some a →
  (enumerate fuel N).1 !! S i = Some b →
  length a = 80%nat ∧ length b = 80%nat ∧ lex_lt b a = true ∧ lex_lt a b = false.
Proof.
  intros Ha Hb.
  destruct (enumerate_consecutive N fuel i a b Ha Hb) as [Hr Hstep].
  pose proof (reachable_canonical N a HN Hr) as Hcan.
  pose proof (canonical_next N a b ltac:(lia) Hcan Hstep) as Hcan'.
  pose proof (step_decreases N a b ltac:(lia) Hcan Hstep) as Hlt.
  split_and!; [by apply canonical_invariant in Hcan as (_ & _ & _ & _ & ?)
              |by apply canonical_invariant in Hcan' as (_ & _ & _ & _ & ?)
              |done|].
  clear -Hlt. revert b Hlt. induction a as [|x a IH]; intros [|y b] Hlt; try done.
  simpl in *. repeat case_bool_decide; try done; try lia. by apply IH.
Qed.

Lemma consecutive_arrays_decrease_witness :
  0 ≤ 5 ≤ 80
  ∧ (enumerate 7 5).1 !! 1%nat = Some (pad [4; 1])
  ∧ (enumerate 7 5).1 !! 2%nat = Some (pad [3; 2])
  ∧ lex_lt (pad [3; 2]) (pad [4; 1]) = true.
Proof.
  assert (H5 : 0 ≤ 5 ≤ 80) by lia.
  assert (Ha : (enumerate 7 5).1 !! 1%nat = Some (pad [4; 1])) by (by vm_compute).
  assert (Hb : (enumerate 7 5).1 !! 2%nat = Some (pad [3; 2])) by (by vm_compute).
  split_and!; [done..|].
  apply (consecutive_arrays_decrease 5 H5 7 1 _ _ Ha Hb).
Defined.

(** ** Termination at the all-ones partition *)

Lemma terminal_iff_all_ones (N : Z) (IP : list Z) :
  0 ≤ N ≤ 80 → reachable N IP →
  transition N IP = Terminal ↔ non_zero_parts IP = replicate (Z.to_nat N) 1.
Proof.
  intros HN Hr. pose proof (reachable_canonical N IP HN Hr) as Hcan.
  destruct (canonical_cases N IP ltac:(lia) Hcan)
    as [[-> _]|(pre & v & k & -> & Hpre & Hv & Hsum & Hpart)].
  - rewrite transition_all_ones by (rewrite ?length_replicate; lia).
    rewrite non_zero_parts_pad by (apply Forall_replicate; lia). done.
  - rewrite (transition_canonical N pre v k) by (done || lia).
    destruct Hpart as (Hpos & _). rewrite non_zero_parts_pad by done.
    split; [done|]. intros Heq.
    assert (Hin : v ∈ replicate (Z.to_nat N) 1).
    { rewrite <- Heq. apply elem_of_app. right. apply list_elem_of_here. }
    apply elem_of_replicate_inv in Hin. lia.
Qed.

(** C5. For [0 ≤ N ≤ 80], the step breaks out of the loop exactly in the
    reachable states whose parts are [N] ones (no part at all for
    [N = 0]); the initial array is such a state when [N ≤ 1]; a run with
    enough fuel completes and, for [N ≥ 1], the last array it emits holds
    [N] ones; for [N = 1] the run emits the single array of [1] and its
    loop makes no transition. *)
Theorem terminal_exactly_at_all_ones (N : Z) (HN : 0 ≤ N ≤ 80) :
  (∀ IP, reachable N IP →
     transition N IP = Terminal ↔ non_zero_parts IP = replicate (Z.to_nat N) 1)
  ∧ (N ≤ 1 → transition N (initial N) = Terminal)
  ∧ (∀ fuel, (Z.to_nat (p N) ≤ fuel)%nat →
       (enumerate fuel N).2 = Completed
       ∧ (1 ≤ N →
          last (enumerate fuel N).1 = Some (pad (replicate (Z.to_nat N) 1))
          ∧ last (non_zero_parts <$> (enumerate fuel N).1)
            = Some (replicate (Z.to_nat N) 1)))
  ∧ (∀ fuel, loop (S fuel) 1 (initial 1) = ([], Completed)
             ∧ enumerate (S fuel) 1 = ([pad [1]], Completed)
             ∧ non_zero_parts <$> (enumerate (S fuel) 1).1 = [[1]]).
Proof.
  split_and!.
  - intros IP Hr. by apply terminal_iff_all_ones.
  - intros H1. assert (N = 0 ∨ N = 1) as [-> | ->] by lia.
    + apply (transition_all_ones 0 0). lia.
    + apply (transition_all_ones 1 1). lia.
  - intros fuel Hfuel. rewrite enumerate_complete_run by done. cbn [fst snd].
    split; [done|]. intros _.
    destruct (partitions_follows N HN) as (L & E & _ & _ & Hlast).
    rewrite non_zero_parts_padded by apply partitions_positive.
    rewrite fmap_last, E, Hlast. done.
  - intros fuel.
    assert (Hloop : loop (S fuel) 1 (initial 1) = ([], Completed)).
    { pose proof (transition_all_ones 1 1 ltac:(lia)) as Hone.
      change (pad (replicate 1 1)) with (initial 1) in Hone.
      change (loop (S fuel) 1 (initial 1))
        with (match transition 1 (initial 1) with
              | Terminal => ([], Completed)
              | Raised => ([], Crashed)
              | Next IP' =>
                  let '(out, st) := loop fuel 1 IP' in (IP' :: out, st)
              end).
      by rewrite Hone. }
    split_and!; [done|unfold enumerate; by rewrite Hloop..].
Qed.

Lemma terminal_exactly_at_all_ones_witness :
  0 ≤ 5 ≤ 80
  ∧ (transition 5 (pad [1; 1; 1; 1; 1]) = Terminal
     ↔ non_zero_parts (pad [1; 1; 1; 1; 1]) = replicate (Z.to_nat 5) 1).
Proof.
  assert (H5 : 0 ≤ 5 ≤ 80) by lia. split; [done|].
  apply (terminal_exactly_at_all_ones 5 H5).
  apply (enumerate_reachable 5 7).
  apply (list_elem_of_lookup_2 _ 6%nat). by vm_compute.
Defined.

(** ** The writes of a step *)

Lemma prepare_values_shape (N : Z) (IP : list Z) (sv : step_vars) :
  N ≤ 80 → canonical N IP → prepare N IP = Values sv →
  ∃ pre v k, IP = pad (pre ++ v :: replicate k 1)
             ∧ Forall (fun x => x > 1) pre ∧ v > 1
             ∧ Py.sum pre + v + Z.of_nat k = N
             ∧ sv = StepVars (Z.of_nat (length pre)) (v + Z.of_nat k) (v - 1)
                      ((v + Z.of_nat k) `div` (v - 1))
                      ((v + Z.of_nat k) `mod` (v - 1)).
Proof.
  intros H80 Hcan Hsv.
  destruct (canonical_cases N IP H80 Hcan)
    as [[-> HN]|(pre & v & k & -> & Hpre & Hv & Hsum & Hpart)].
  - pose proof (transition_all_ones N (Z.to_nat N) ltac:(lia)) as Hterm.
    unfold transition in Hterm. rewrite Hsv in Hterm.
    by destruct (update sv _).
  - exists pre, v, k. split_and!; try done.
    rewrite (prepare_canonical N pre v k) in Hsv by done. by simplify_eq.
Qed.

(** C10. For [0 ≤ N ≤ 80], in every reachable state from which the step
    goes on, [part_to_modify + count + (1 if remainder > 0 else 0) ≤ 80];
    every cell the step assigns to has an index in [0 .. 79]; no guard
    cuts a write: the [count] indices of the first loop all pass the
    guard, a positive remainder is written, and the array after the step
    is the cells before [part_to_modify], then [count] copies of
    [new_value], then the remainder if positive, then zeros. *)
Theorem writes_stay_in_bounds (N : Z) (IP : list Z) (sv : step_vars)
    (HN : 0 ≤ N ≤ 80) (Hr : reachable N IP) (Hsv : prepare N IP = Values sv) :
  let extra := if bool_decide (remainder sv > 0) then [remainder sv] else [] in
  0 ≤ part_to_modify sv ∧ 1 ≤ count sv ∧ 0 ≤ remainder sv < new_value sv
  ∧ part_to_modify sv + count sv
    + (if bool_decide (remainder sv > 0) then 1 else 0) ≤ 80
  ∧ Forall (fun i => 0 ≤ i < 80) (write_indices sv)
  ∧ filter (fun i => i < 80)
      ((fun i => part_to_modify sv + i) <$> Py.range 0 (count sv))
    = (fun i => part_to_modify sv + i) <$> Py.range 0 (count sv)
  ∧ (remainder sv > 0 → part_to_modify sv + count sv < 80)
  ∧ transition N IP
    = Next (take (Z.to_nat (part_to_modify sv)) IP
            ++ replicate (Z.to_nat (count sv)) (new_value sv)
            ++ extra
            ++ replicate (80 - Z.to_nat (next_position sv)) 0).
Proof.
  intros extra.
  pose proof (reachable_canonical N IP HN Hr) as Hcan.
  destruct (prepare_values_shape N IP sv ltac:(lia) Hcan Hsv)
    as (pre & v & k & -> & Hpre & Hv & Hsum & ->).
  destruct (canonical_count_bounds N pre v k Hpre Hv Hsum ltac:(lia))
    as (Hq & Hrem & Hfit).
  unfold extra, write_indices, next_position. clear extra. simpl.
  set (q := (v + Z.of_nat k) `div` (v - 1)) in *.
  set (r := (v + Z.of_nat k) `mod` (v - 1)) in *.
  assert (Hbound : Z.of_nat (length pre) + q
                   + (if bool_decide (r > 0) then 1 else 0) ≤ 80) by lia.
  assert (Hall : Forall (fun i => i < 80)
                   ((fun i => Z.of_nat (length pre) + i) <$> Py.range 0 q)).
  { apply Forall_forall. intros x (i & -> & Hi)%list_elem_of_fmap.
    apply elem_of_seqZ in Hi. destruct (bool_decide (r > 0)); lia. }
  assert (Hfilter : filter (fun i => i < 80)
                      ((fun i => Z.of_nat (length pre) + i) <$> Py.range 0 q)
                    = (fun i => Z.of_nat (length pre) + i) <$> Py.range 0 q).
  { generalize Hall. generalize ((fun i => Z.of_nat (length pre) + i) <$> Py.range 0 q).
    induction 1 as [|x l Hx _ IH]; [done|].
    rewrite filter_cons_True by done. by rewrite IH. }
  split_and!; try lia; try done.
  - rewrite Hfilter. apply Forall_app. split; [|apply Forall_app; split].
    + apply Forall_forall. intros x (i & -> & Hi)%list_elem_of_fmap.
      apply elem_of_seqZ in Hi. destruct (bool_decide (r > 0)); lia.
    + destruct (decide (Z.of_nat (length pre) + q < 80)) as [Hlt|Hge];
        [rewrite bool_decide_true by done|by rewrite bool_decide_false by done].
      apply Forall_singleton. lia.
    + apply Forall_forall. intros x Hx. apply elem_of_seqZ in Hx.
      destruct (bool_decide (r > 0)); lia.
  - intros Hpos. rewrite bool_decide_true in Hbound by done. lia.
  - rewrite (transition_canonical N pre v k) by (done || lia).
    f_equal. unfold pad at 1, greedy. fold q r.
    rewrite Nat2Z.id.
    destruct (canonical_shape_length N pre v k Hpre Hv Hsum ltac:(lia))
      as [_ Hlen].
    assert (Htake : take (length pre) (pad (pre ++ v :: replicate k 1)) = pre).
    { unfold pad. rewrite <- app_assoc. by rewrite take_app_length. }
    rewrite Htake, <- !app_assoc. do 3 f_equal.
    rewrite !length_app, length_replicate. f_equal.
    destruct (bool_decide (r > 0)); simpl; lia.
Qed.

Lemma writes_stay_in_bounds_witness :
  0 ≤ 5 ≤ 80
  ∧ reachable 5 (pad [4; 1])
  ∧ prepare 5 (pad [4; 1]) = Values (StepVars 0 5 3 1 2)
  ∧ 0 + 1 + 1 ≤ 80
  ∧ transition 5 (pad [4; 1]) = Next (pad [3; 2]).
Proof.
  assert (H5 : 0 ≤ 5 ≤ 80) by lia.
  assert (Hr : reachable 5 (pad [4; 1])).
  { apply (enumerate_reachable 5 7).
    apply (list_elem_of_lookup_2 _ 1%nat). by vm_compute. }
  assert (Hsv : prepare 5 (pad [4; 1]) = Values (StepVars 0 5 3 1 2))
    by (by vm_compute).
  split_and!; [done..| |].
  - apply (writes_stay_in_bounds 5 _ _ H5 Hr Hsv).
  - apply (writes_stay_in_bounds 5 _ _ H5 Hr Hsv).
Defined.

(** ** Commits of [generate_n80_partitions_sqlite_only] *)

Lemma make_row_pad (l : list Z) :
  Forall (fun x => x > 0) l → l ≠ [] → is_Some (make_row (pad l)).
Proof.
  intros Hpos Hne. unfold make_row. rewrite non_zero_parts_pad by done.
  destruct l as [|x l]; [done|]. simpl. eauto.
Qed.

Lemma generate_loop_S (fuel : nat) (clock : Z → Q) (start : Q) (t : Z)
    (g : generator) :
  generate_loop (S fuel) clock start t g
  = match transition 80 (IP_of g) with
    | Terminal => (g, Completed)
    | Raised => (g, Crashed)
    | Next IP' =>
        match make_row IP' with
        | None =>
            (Generator IP' (partition_count g) (last_print_time g) (conn g)
               (progress g), Crashed)
        | Some r =>
            if Qle_bool 10 (clock t - last_print_time g) then
              if Qeq_bool (clock t - start) 0 then
                (Generator IP' (partition_count g + 1) (last_print_time g)
                   (execute_insert r (conn g)) (progress g), Crashed)
              else
                generate_loop fuel clock start (t + 1)%Z
                  (Generator IP' (partition_count g + 1) (clock t)
                     (if bool_decide ((partition_count g + 1) `mod` 100000 = 0)%Z
                      then commit (execute_insert r (conn g))
                      else execute_insert r (conn g))
                     (progress g ++ [(partition_count g + 1)%Z]))
            else
              generate_loop fuel clock start (t + 1)%Z
                (Generator IP' (partition_count g + 1) (last_print_time g)
                   (execute_insert r (conn g)) (progress g))
        end
    end.
Proof. reflexivity. Qed.

(** While the readings stay within ten seconds of [last_print_time], the
    loop inserts and never commits. *)
Lemma generate_loop_quiet (clock : Z → Q) (start last : Q) (L : list (list Z)) :
  Forall (fun IP => is_Some (make_row IP)) L →
  ∀ (fuel : nat) (t : Z) (IP : list Z) (n : Z) (db : database) (pr : list Z),
    (∀ t', (t ≤ t' < t + Z.of_nat fuel)%Z → Qle_bool 10 (clock t' - last) = false) →
    follows 80 IP L →
    ∃ g', generate_loop fuel clock start t (Generator IP n last db pr)
          = (g', if bool_decide (length L < fuel)%nat then Completed else Unfinished)
          ∧ committed (conn g') = committed db
          ∧ length (pending (conn g'))
            = (length (pending db) + Nat.min fuel (length L))%nat
          ∧ partition_count g' = (n + Z.of_nat (Nat.min fuel (length L)))%Z.
Proof.
  induction 1 as [|IP' L [r Hr] _ IH]; intros fuel t IP n db pr Hquiet HL;
    cbn [follows] in HL.
  - exists (Generator IP n last db pr). destruct fuel as [|fuel].
    + cbn [generate_loop length conn committed pending partition_count].
      split_and!; [done..|lia|lia].
    + rewrite generate_loop_S. cbn [IP_of]. rewrite HL.
      cbn [length conn committed pending partition_count].
      split_and!; [done..|lia|lia].
  - destruct HL as [Hstep HL]. destruct fuel as [|fuel].
    { exists (Generator IP n last db pr).
      cbn [generate_loop length conn committed pending partition_count].
      split_and!; [done..|lia|lia]. }
    rewrite generate_loop_S.
    cbn [IP_of last_print_time conn partition_count progress].
    rewrite Hstep, Hr, Hquiet by lia.
    destruct (IH fuel (t + 1)%Z IP' (n + 1)%Z (execute_insert r db) pr)
      as (g' & E & Hc & Hp & Hn); [intros t' Ht'; apply Hquiet; lia|exact HL|].
    exists g'. rewrite E.
    cbn [committed pending execute_insert length] in *.
    split_and!.
    + f_equal. destruct (decide (length L < fuel)%nat);
        [rewrite !bool_decide_true by lia|rewrite !bool_decide_false by lia];
        reflexivity.
    + done.
    + rewrite Hp, length_app. cbn [length]. lia.
    + lia.
Qed.

Lemma partitions_80_rows :
  ∃ L, follows 80 (initial 80) (pad <$> L)
       ∧ Forall (fun IP => is_Some (make_row IP)) (pad <$> L)
       ∧ Z.of_nat (length L) = 15796475.
Proof.
  destruct (partitions_follows 80 ltac:(lia)) as (L & E & _ & HL & _).
  exists L. split_and!; [exact HL| |].
  - apply Forall_fmap, Forall_forall. intros l Hl.
    assert (Hin : l ∈ partitions 80).
    { rewrite E. by apply list_elem_of_further. }
    apply partitions_spec in Hin as (Hpos & _ & Hsum); [|lia].
    apply make_row_pad; [exact Hpos|]. intros ->. discriminate Hsum.
  - pose proof (partitions_length 80) as Hlen. rewrite p_80, E in Hlen.
    rewrite length_cons in Hlen. lia.
Qed.

Lemma make_row_initial_80 : is_Some (make_row (initial 80)).
Proof. apply (make_row_pad [80]); [by apply Forall_singleton|done]. Qed.

Lemma generate_quiet (clock : Z → Q) (fuel : nat) :
  (∀ t, (2 ≤ t < 2 + Z.of_nat fuel)%Z → Qle_bool 10 (clock t - clock 1%Z) = false) →
  (Z.of_nat fuel < 15796475)%Z →
  ∃ g, generate_n80_partitions_sqlite_only fuel clock = (g, Unfinished)
       ∧ committed (conn g) = []
       ∧ Z.of_nat (length (pending (conn g))) = (1 + Z.of_nat fuel)%Z
       ∧ partition_count g = (1 + Z.of_nat fuel)%Z.
Proof.
  intros Hquiet Hfuel.
  destruct partitions_80_rows as (L & HL & Hrows & Hlen).
  destruct make_row_initial_80 as [r0 Hr0].
  unfold generate_n80_partitions_sqlite_only. rewrite Hr0.
  destruct (generate_loop_quiet clock (clock 0%Z) (clock 1%Z) (pad <$> L) Hrows
              fuel 2 (initial 80) 1 (execute_insert r0 (Database [] [])) []
              Hquiet HL)
    as (g & E & Hc & Hp & Hn).
  rewrite length_fmap in E, Hp, Hn.
  rewrite bool_decide_false in E by lia. rewrite E.
  exists g. cbn [committed pending conn partition_count execute_insert] in *.
  rewrite length_app in Hp. cbn [length] in Hp.
  split_and!; [done|done|lia|lia].
Qed.

Lemma steady_clock_quiet (t : Z) :
  (t < 200001)%Z → Qle_bool 10 (steady_clock t - steady_clock 1) = false.
Proof.
  intros Ht. unfold steady_clock, Qle_bool, Qminus, Qplus, Qopp. simpl.
  apply Z.leb_gt. lia.
Qed.

(** C6, on the code.  On a clock that advances 50 microseconds per
    reading, [generate_n80_partitions_sqlite_only] reaches
    [partition_count = 100000], a multiple of the batch size, with
    nothing committed, and one pass later holds 100001 rows that were
    inserted and not committed. *)
Theorem commit_skipped_at_batch_boundary :
  (generate_n80_partitions_sqlite_only (Z.to_nat 99999) steady_clock).2 = Unfinished
  ∧ partition_count
      (generate_n80_partitions_sqlite_only (Z.to_nat 99999) steady_clock).1
    = 100000
  ∧ committed
      (conn (generate_n80_partitions_sqlite_only (Z.to_nat 99999) steady_clock).1)
    = []
  ∧ (generate_n80_partitions_sqlite_only (Z.to_nat 100000) steady_clock).2 = Unfinished
  ∧ committed
      (conn (generate_n80_partitions_sqlite_only (Z.to_nat 100000) steady_clock).1)
    = []
  ∧ Z.of_nat
      (length
         (pending
            (conn (generate_n80_partitions_sqlite_only (Z.to_nat 100000)
                     steady_clock).1)))
    = 100001.
Proof.
  destruct (generate_quiet steady_clock (Z.to_nat 99999)
              ltac:(intros t Ht; apply steady_clock_quiet; lia) ltac:(lia))
    as (g1 & E1 & Hc1 & Hp1 & Hn1).
  destruct (generate_quiet steady_clock (Z.to_nat 100000)
              ltac:(intros t Ht; apply steady_clock_quiet; lia) ltac:(lia))
    as (g2 & E2 & Hc2 & Hp2 & Hn2).
  rewrite E1, E2. cbn [fst snd].
  rewrite Hn1, Hc1, Hc2, Hp2. split_and!; try reflexivity; lia.
Qed.

(** ** The sampler *)

Lemma snd_draw_keys {A} (random : Z → Z) (rows : list A) :
  ∀ i, snd <$> draw_keys random i rows = rows.
Proof. induction rows as [|r rows IH]; intros i; simpl; [done|]. by rewrite IH. Qed.

Lemma draw_keys_ext {A} (r1 r2 : Z → Z) (rows : list A) :
  ∀ i, (∀ j, i ≤ j < i + Z.of_nat (length rows) → r1 j = r2 j) →
       draw_keys r1 i rows = draw_keys r2 i rows.
Proof.
  induction rows as [|r rows IH]; intros i Hagree; [done|]. simpl in *.
  rewrite (Hagree i) by lia. f_equal. apply IH. intros j Hj. apply Hagree. lia.
Qed.

Lemma order_by_random_Permutation {A} (random : Z → Z) (rows : list A) :
  order_by_random random rows ≡ₚ rows.
Proof.
  unfold order_by_random. rewrite merge_sort_Permutation.
  by rewrite snd_draw_keys.
Qed.

Lemma sample_shape {A} (table : list A) (random : Z → Z) :
  ∃ out, random_sample_sqlite table random = Sampled out
         ∧ length out = Nat.min sample_limit (length table)
         ∧ out ⊆+ table
         ∧ ((length table ≤ sample_limit)%nat → out ≡ₚ table).
Proof.
  eexists. split; [reflexivity|].
  pose proof (order_by_random_Permutation random table) as Hperm.
  split_and!.
  - rewrite length_take. by rewrite (Permutation_length Hperm).
  - transitivity (order_by_random random table).
    + apply sublist_submseteq, sublist_take.
    + by apply Permutation_submseteq.
  - intros Hle. rewrite take_ge; [done|]. by rewrite (Permutation_length Hperm).
Qed.

Lemma partitions_10_length : length (partitions 10) = 42%nat.
Proof. by vm_compute. Qed.

(** C7, as stated, fails: the 42 partitions of 10 are fewer than the
    100000 rows asked for, and the call returns all 42 of them instead of
    rejecting the size. *)
Lemma small_population_is_not_rejected :
  (length (partitions 10) < sample_limit)%nat
  ∧ random_sample_sqlite (partitions 10) rising_draws = Sampled (partitions 10)
  ∧ random_sample_sqlite (partitions 10) rising_draws ≠ Rejected InvalidSampleSize.
Proof.
  split_and!.
  - rewrite partitions_10_length. unfold sample_limit. lia.
  - by vm_compute.
  - discriminate.
Qed.

(** C7, amended.  [random_sample_sqlite] rejects no size: on every table
    and whatever [RANDOM()] returns it yields the first
    [min(100000, population)] rows of a rearrangement of the table, the
    whole population when that has at most 100000 rows. *)
Theorem sample_is_clamped_never_rejected {A} (table : list A) (random : Z → Z) :
  random_sample_sqlite table random ≠ Rejected InvalidSampleSize
  ∧ ∃ out, random_sample_sqlite table random = Sampled out
           ∧ length out = Nat.min sample_limit (length table)
           ∧ out ⊆+ table
           ∧ ((length table ≤ sample_limit)%nat → out ≡ₚ table).
Proof. split; [discriminate|apply sample_shape]. Qed.

(** C8, as stated, fails: over one table of 100001 rows, two calls whose
    [RANDOM()] values differ select different rows: row 0 is in one
    sample and not in the other. *)
Lemma two_runs_select_different_rows :
  ∃ out1 out2,
    random_sample_sqlite (id_rows (Z.to_nat 100001) 0) rising_draws = Sampled out1
    ∧ random_sample_sqlite (id_rows (Z.to_nat 100001) 0) falling_draws = Sampled out2
    ∧ (0 ∈ out1) ∧ (0 ∉ out2) ∧ out1 ≠ out2.
Proof.
  exists (take sample_limit
            (order_by_random rising_draws (id_rows (Z.to_nat 100001) 0))),
         (take sample_limit
            (order_by_random falling_draws (id_rows (Z.to_nat 100001) 0))).
  unfold random_sample_sqlite.
  split; [exact eq_refl|]. split; [exact eq_refl|].
  assert (H1 : bool_decide
                 (0 ∈ take sample_limit
                        (order_by_random rising_draws (id_rows (Z.to_nat 100001) 0)))
               = true) by (by vm_compute).
  assert (H2 : bool_decide
                 (0 ∈ take sample_limit
                        (order_by_random falling_draws (id_rows (Z.to_nat 100001) 0)))
               = false) by (by vm_compute).
  apply bool_decide_eq_true in H1. apply bool_decide_eq_false in H2.
  split_and!; [done..|]. intros Heq. apply H2. by rewrite <- Heq.
Qed.

(** C8, amended.  The function has no seed; what it returns is fixed by
    the table and the values of [RANDOM()] alone: two calls return the
    same number of rows, the same rows up to order when the table has at
    most 100000 rows, and the same data frame when [RANDOM()] returns the
    same values for the rows of the table. *)
Theorem sample_determined_by_draws {A} (table : list A) (r1 r2 : Z → Z) :
  ∃ out1 out2,
    random_sample_sqlite table r1 = Sampled out1
    ∧ random_sample_sqlite table r2 = Sampled out2
    ∧ length out1 = length out2
    ∧ ((length table ≤ sample_limit)%nat → out1 ≡ₚ out2)
    ∧ ((∀ i, 0 ≤ i < Z.of_nat (length table) → r1 i = r2 i) → out1 = out2).
Proof.
  destruct (sample_shape table r1) as (out1 & E1 & Hl1 & _ & Hp1).
  destruct (sample_shape table r2) as (out2 & E2 & Hl2 & _ & Hp2).
  exists out1, out2. split_and!; [done|done|lia| |].
  - intros Hle. by rewrite Hp1, Hp2.
  - intros Hagree. unfold random_sample_sqlite, order_by_random in E1, E2.
    rewrite (draw_keys_ext r1 r2) in E1 by (intros j Hj; apply Hagree; lia).
    congruence.
Qed.

(** * Further properties of the programs *)

(** ** No exception, and runs cut short *)

Lemma canonical_no_raise (N : Z) (IP : list Z) :
  N ≤ 80 → canonical N IP → transition N IP ≠ Raised.
Proof.
  intros H80 Hcan.
  destruct (canonical_cases N IP H80 Hcan)
    as [[-> HN]|(pre & v & k & -> & Hpre & Hv & Hsum & Hpart)].
  - by rewrite transition_all_ones by (rewrite ?length_replicate; lia).
  - by rewrite (transition_canonical N pre v k) by done.
Qed.

Lemma loop_no_crash (N : Z) (fuel : nat) :
  N ≤ 80 → ∀ IP, canonical N IP → (loop fuel N IP).2 ≠ Crashed.
Proof.
  intros H80. induction fuel as [|fuel IH]; intros IP Hcan; [done|].
  cbn [loop]. pose proof (canonical_no_raise N IP H80 Hcan) as Hno.
  destruct (transition N IP) as [|IP'|] eqn:Hstep; [done| |done].
  pose proof (IH IP' (canonical_next N IP IP' H80 Hcan Hstep)) as HIH.
  by destruct (loop fuel N IP').
Qed.

(** X1. For [0 ≤ N ≤ 80] no step from a reachable array raises an
    exception (no index out of range, no division by zero), and no run,
    however long, ends in one. *)
Theorem run_never_raises (N : Z) (HN : 0 ≤ N ≤ 80) :
  (∀ IP, reachable N IP → transition N IP ≠ Raised)
  ∧ (∀ IP fuel, reachable N IP → (loop fuel N IP).2 ≠ Crashed)
  ∧ (∀ fuel, (enumerate fuel N).2 ≠ Crashed).
Proof.
  split_and!.
  - intros IP Hr. apply canonical_no_raise; [lia|by apply reachable_canonical].
  - intros IP fuel Hr. apply loop_no_crash; [lia|by apply reachable_canonical].
  - intros fuel. rewrite enumerate_partitions by done. cbn [snd].
    by case_bool_decide.
Qed.

Lemma run_never_raises_witness :
  0 ≤ 7 ≤ 80 ∧ ∀ fuel, (enumerate fuel 7).2 ≠ Crashed.
Proof. split; [lia|]. apply (run_never_raises 7). lia. Defined.

(** X2. For [0 ≤ N ≤ 80] a run cut short after [fuel] passes has emitted
    the first [fuel + 1] arrays of the complete run, in the same order;
    it is complete exactly when the fuel reaches [p N]. *)
Theorem interrupted_run_is_a_prefix (N : Z) (HN : 0 ≤ N ≤ 80) (fuel : nat) :
  (enumerate fuel N).1 = take (S fuel) (enumerate (Z.to_nat (p N)) N).1
  ∧ Z.of_nat (length (enumerate fuel N).1) = Z.min (Z.of_nat fuel + 1) (p N)
  ∧ ((enumerate fuel N).2 = Completed ↔ p N ≤ Z.of_nat fuel)
  ∧ ((enumerate fuel N).2 = Unfinished ↔ Z.of_nat fuel < p N).
Proof.
  pose proof (partitions_length N) as Hlen.
  rewrite (enumerate_complete_run N (Z.to_nat (p N))) by (done || lia).
  rewrite enumerate_partitions by done. cbn [fst snd].
  split_and!.
  - done.
  - rewrite length_take, length_fmap. lia.
  - case_bool_decide; split; (done || lia).
  - case_bool_decide; split; (done || lia).
Qed.

Lemma interrupted_run_is_a_prefix_witness :
  0 ≤ 5 ≤ 80
  ∧ (enumerate 2 5).1 = take 3 (enumerate (Z.to_nat (p 5)) 5).1.
Proof.
  split; [lia|]. apply (interrupted_run_is_a_prefix 5 ltac:(lia) 2).
Defined.

(** ** The order of the whole enumeration *)

Lemma lex_lt_irrefl (a : list Z) : lex_lt a a = false.
Proof.
  induction a as [|x a IH]; [done|]. simpl.
  rewrite bool_decide_false by lia. by rewrite bool_decide_true by done.
Qed.

Lemma lex_lt_asym (a b : list Z) : lex_lt a b = true → lex_lt b a = false.
Proof.
  revert b. induction a as [|x a IH]; intros [|y b]; simpl; try done.
  destruct (decide (x < y)).
  - rewrite bool_decide_true by done. intros _.
    rewrite bool_decide_false by lia. by rewrite bool_decide_false by lia.
  - rewrite bool_decide_false by done. destruct (decide (x = y)) as [->|].
    + rewrite bool_decide_true by done. intros H.
      rewrite bool_decide_false by lia. rewrite ?bool_decide_true by done.
      by apply IH.
    + by rewrite bool_decide_false by done.
Qed.

Lemma lex_lt_zeros (a b : list Z) (j k : nat) :
  Forall (fun x => x > 0) a → Forall (fun x => x > 0) b →
  (length a + j = length b + k)%nat →
  lex_lt (a ++ replicate j 0) (b ++ replicate k 0) = lex_lt a b.
Proof.
  intros Ha. revert b j k. induction Ha as [|x a Hx Ha IH];
    intros b j k Hb Hlen.
  - destruct Hb as [|y b Hy Hb]; simpl in *.
    + assert (j = k) as -> by lia. apply lex_lt_irrefl.
    + destruct j as [|j]; [lia|]. simpl.
      by rewrite bool_decide_true by lia.
  - destruct Hb as [|y b Hy Hb]; simpl in *.
    + destruct k as [|k]; [lia|]. simpl.
      rewrite bool_decide_false by lia. by rewrite bool_decide_false by lia.
    + rewrite (IH b j k) by (done || lia). done.
Qed.

Lemma lex_lt_pad (a b : list Z) :
  Forall (fun x => x > 0) a → Forall (fun x => x > 0) b →
  (length a ≤ 80)%nat → (length b ≤ 80)%nat →
  lex_lt (pad a) (pad b) = lex_lt a b.
Proof. intros Ha Hb Hla Hlb. unfold pad. apply lex_lt_zeros; [done..|lia]. Qed.

(** [parts] lists its partitions from the greatest to the least. *)
Lemma parts_descending (f : nat) :
  ∀ n m, StronglySorted (fun a b => lex_lt b a = true) (parts f n m).
Proof.
  induction f as [|f IH]; intros n m; [constructor|].
  rewrite parts_S. case_bool_decide as Hn; [repeat constructor|].
  case_bool_decide as Hm; [constructor|].
  apply StronglySorted_app. split_and!.
  - intros x1 x2 Hx1 Hx2.
    case_bool_decide; [|by apply elem_of_nil in Hx1].
    apply list_elem_of_fmap in Hx1 as (t & -> & _).
    apply parts_sound in Hx2 as (_ & _ & Hsum & Hle).
    destruct x2 as [|y x2]; [done|].
    apply Forall_cons in Hle as [Hy _]. simpl.
    by rewrite bool_decide_true by lia.
  - case_bool_decide; [|constructor].
    apply (StronglySorted_fmap (cons m) (fun a b => lex_lt b a = true));
      [|apply IH].
    intros a b Hab. simpl. rewrite bool_decide_false by lia.
    by rewrite bool_decide_true by done.
  - apply IH.
Qed.

Lemma StronglySorted_lookup_lt {A} (R : relation A) (l : list A) :
  StronglySorted R l →
  ∀ (i j : nat) x y, (i < j)%nat → l !! i = Some x → l !! j = Some y → R x y.
Proof.
  induction 1 as [|z l Hl IH Hz]; intros i j x y Hij Hx Hy; [done|].
  destruct j as [|j]; [lia|]. destruct i as [|i]; simpl in *.
  - simplify_eq. eapply (Forall_lookup_1 (R x)); [exact Hz|exact Hy].
  - eapply (IH i j); [lia|done..].
Qed.

Lemma partitions_fit (N : Z) (l : list Z) :
  0 ≤ N ≤ 80 → l ∈ partitions N →
  Forall (fun x => x > 0) l ∧ (length l ≤ 80)%nat.
Proof.
  intros HN Hl. apply partitions_spec in Hl as (Hpos & _ & Hsum); [|lia].
  split; [done|]. pose proof (length_le_sum l Hpos). lia.
Qed.

(** X3. For [0 ≤ N ≤ 80] the arrays of a run come in strictly descending
    lexicographic order throughout, not only from one to the next: every
    array emitted earlier is above every array emitted later; and the
    step goes to the very next partition: no partition of [N] lies
    strictly between two arrays emitted one after the other. *)
Theorem enumeration_descends_without_gaps (N : Z) (HN : 0 ≤ N ≤ 80) (fuel : nat) :
  (∀ (i j : nat) a b, (i < j)%nat →
     (enumerate fuel N).1 !! i = Some a → (enumerate fuel N).1 !! j = Some b →
     lex_lt b a = true)
  ∧ (∀ (i : nat) a b l,
       (enumerate fuel N).1 !! i = Some a →
       (enumerate fuel N).1 !! S i = Some b →
       is_partition N l →
       ¬ (lex_lt (pad l) a = true ∧ lex_lt b (pad l) = true)).
Proof.
  rewrite enumerate_partitions by done. cbn [fst].
  pose proof (parts_descending (S (Z.to_nat N + Z.to_nat N)) N N) as Hsorted.
  fold (partitions N) in Hsorted.
  assert (Hlook : ∀ (i : nat) a,
            take (S fuel) (pad <$> partitions N) !! i = Some a →
            ∃ la, partitions N !! i = Some la ∧ a = pad la
                  ∧ Forall (fun x => x > 0) la ∧ (length la ≤ 80)%nat).
  { intros i a Ha. apply lookup_take_Some in Ha as [Ha _].
    rewrite list_lookup_fmap in Ha.
    destruct (partitions N !! i) as [la|] eqn:Hla; [|done].
    exists la. simplify_eq/=. split_and!; [done..| |];
      apply (partitions_fit N la HN); by eapply list_elem_of_lookup_2. }
  assert (Hpair : ∀ (i j : nat) la lb, (i < j)%nat →
            partitions N !! i = Some la → partitions N !! j = Some lb →
            lex_lt lb la = true).
  { intros i j la lb Hij Hla Hlb.
    by apply (StronglySorted_lookup_lt _ _ Hsorted i j la lb). }
  split.
  - intros i j a b Hij Ha Hb.
    destruct (Hlook i a Ha) as (la & Hla & -> & Hpa & Hfa).
    destruct (Hlook j b Hb) as (lb & Hlb & -> & Hpb & Hfb).
    rewrite lex_lt_pad by done. by apply (Hpair i j).
  - intros i a b l Ha Hb Hl [H1 H2].
    destruct (Hlook i a Ha) as (la & Hla & -> & Hpa & Hfa).
    destruct (Hlook (S i) b Hb) as (lb & Hlb & -> & Hpb & Hfb).
    apply partitions_spec in Hl as Hin; [|lia].
    destruct (partitions_fit N l HN Hin) as [Hpl Hfl].
    rewrite lex_lt_pad in H1, H2 by done.
    apply list_elem_of_lookup_1 in Hin as [j Hj].
    destruct (decide (j < i)%nat) as [Hlt|Hge].
    + pose proof (Hpair j i l la Hlt Hj Hla) as Hc.
      apply lex_lt_asym in Hc. congruence.
    + destruct (decide (j = i)) as [->|Hne].
      { simplify_eq. by rewrite lex_lt_irrefl in H1. }
      destruct (decide (j = S i)) as [->|Hne'].
      { simplify_eq. by rewrite lex_lt_irrefl in H2. }
      pose proof (Hpair (S i) j lb l ltac:(lia) Hlb Hj) as Hc.
      apply lex_lt_asym in Hc. congruence.
Qed.

Lemma enumeration_descends_without_gaps_witness :
  0 ≤ 5 ≤ 80
  ∧ ∀ (i j : nat) a b, (i < j)%nat →
      (enumerate 7 5).1 !! i = Some a → (enumerate 7 5).1 !! j = Some b →
      lex_lt b a = true.
Proof.
  split; [lia|]. apply (enumeration_descends_without_gaps 5 ltac:(lia) 7).
Defined.

(** ** The fields stored with a partition *)

Lemma foldl_max_head (x : Z) (t : list Z) :
  Forall (Z.ge x) t → foldl Z.max x t = x.
Proof.
  induction 1 as [|y t Hy _ IH]; [done|]. simpl.
  by rewrite Z.max_l by lia.
Qed.

Lemma foldl_min_last (t : list Z) :
  ∀ x, StronglySorted Z.ge (x :: t) → foldl Z.min x t = default x (last t).
Proof.
  induction t as [|y t IH]; intros x Hs; [done|].
  apply StronglySorted_inv in Hs as [Hs Hx]. apply Forall_cons in Hx as [Hxy _].
  simpl foldl. rewrite Z.min_r by lia. rewrite (IH y Hs).
  rewrite last_cons. by destruct (last t).
Qed.

Lemma sum_le_length_mul (l : list Z) (M : Z) :
  Forall (fun x => x ≤ M) l → Py.sum l ≤ Z.of_nat (length l) * M.
Proof. induction 1 as [|x l Hx _ IH]; simpl; lia. Qed.

Lemma sum_ge_length_mul (l : list Z) (m : Z) :
  Forall (fun x => m ≤ x) l → Z.of_nat (length l) * m ≤ Py.sum l.
Proof. induction 1 as [|x l Hx _ IH]; simpl; lia. Qed.

(** What a reachable array of a target [N ≥ 1] holds: a non-empty
    partition whose first part bounds the others from above and whose
    last part bounds them from below. *)
Lemma reachable_parts (N : Z) (IP : list Z) :
  1 ≤ N ≤ 80 → reachable N IP →
  ∃ x t, non_zero_parts IP = x :: t ∧ IP = pad (x :: t)
         ∧ IP !! 0%nat = Some x
         ∧ is_partition N (x :: t)
         ∧ StronglySorted Z.ge (x :: t)
         ∧ Forall (fun y => y ≤ x) (x :: t)
         ∧ Forall (fun y => default x (last t) ≤ y) (x :: t)
         ∧ 1 ≤ default x (last t).
Proof.
  intros HN Hr.
  destruct (reachable_canonical N IP ltac:(lia) Hr) as (l & -> & Hlen & Hpart).
  pose proof Hpart as (Hpos & Hs & Hsum)%is_partition_strongly.
  destruct l as [|x t]; [simpl in Hsum; lia|].
  exists x, t. rewrite non_zero_parts_pad by done.
  assert (Hlast : default x (last t) ∈ x :: t).
  { destruct (last t) as [z|] eqn:Hz; simpl; [|apply list_elem_of_here].
    apply list_elem_of_further. apply last_Some in Hz as [t' ->].
    apply elem_of_app. right. apply list_elem_of_here. }
  split_and!; try done.
  - pose proof Hs as [_ Hx]%StronglySorted_inv.
    constructor; [lia|]. eapply Forall_impl; [exact Hx|]. simpl. lia.
  - apply Forall_forall. intros y Hy.
    pose proof Hy as [i Hi]%list_elem_of_lookup_1.
    destruct (last t) as [z|] eqn:Hz; simpl.
    + apply last_Some in Hz as [t' ->].
      destruct (decide (i = S (length t'))) as [->|Hne].
      * rewrite (list_lookup_middle (x :: t') [] z) in Hi by done.
        simplify_eq. lia.
      * assert (Hi' : (i < S (length t'))%nat).
        { apply lookup_lt_Some in Hi. simpl in Hi.
          rewrite length_app in Hi. simpl in Hi. lia. }
        pose proof (StronglySorted_lookup_lt _ _ Hs i (S (length t')) y z Hi' Hi
                      (list_lookup_middle (x :: t') [] z _ eq_refl)) as Hge.
        lia.
    + apply last_None in Hz as ->. apply list_elem_of_singleton in Hy. lia.
  - eapply (Forall_forall (fun y => y > 0)) in Hlast; [|exact Hpos]. lia.
Qed.

(** X4. For [1 ≤ N ≤ 80] the row [generate_n80_partitions_sqlite_only]
    builds from a reachable array always exists ([max] is never taken of
    an empty list); its [largest_part] is the first cell of the array and
    bounds every part, its [part_count] is the number of parts, and
    [1 ≤ part_count ≤ N], [1 ≤ largest_part ≤ N],
    [N ≤ part_count * largest_part]. *)
Theorem stored_row_fields (N : Z) (IP : list Z)
    (HN : 1 ≤ N ≤ 80) (Hr : reachable N IP) :
  ∃ r, make_row IP = Some r
       ∧ partition_text r = non_zero_parts IP
       ∧ Py.sum (partition_text r) = N
       ∧ IP !! 0%nat = Some (largest_part r)
       ∧ Forall (fun x => x ≤ largest_part r) (partition_text r)
       ∧ part_count r = Z.of_nat (length (partition_text r))
       ∧ 1 ≤ part_count r ≤ N
       ∧ 1 ≤ largest_part r ≤ N
       ∧ N ≤ part_count r * largest_part r.
Proof.
  destruct (reachable_parts N IP HN Hr)
    as (x & t & Hnz & -> & Hhd & Hpart & Hs & Hle & Hge & Hlast).
  pose proof Hpart as (Hpos & _ & Hsum).
  pose proof (length_le_sum _ Hpos) as Hlen.
  pose proof (sum_le_length_mul _ _ Hle) as Hmul.
  unfold make_row. rewrite Hnz. cbn [py_max].
  rewrite foldl_max_head
    by (apply StronglySorted_inv in Hs as [_ Hx]; exact Hx).
  eexists. split; [reflexivity|]. cbn [partition_text largest_part part_count].
  apply Forall_cons in Hpos as [Hx _]. cbn [length] in *.
  split_and!; try done; try lia.
  cbn [Py.sum] in Hsum. pose proof (length_le_sum t) as Ht.
  apply Forall_cons in Hle as [_ Hle].
  assert (0 ≤ Py.sum t); [|lia].
  destruct Hpart as (Hp & _). apply Forall_cons in Hp as [_ Hp].
  pose proof (length_le_sum t Hp). lia.
Qed.

Lemma stored_row_fields_witness :
  1 ≤ 5 ≤ 80 ∧ reachable 5 (pad [3; 1; 1])
  ∧ ∃ r, make_row (pad [3; 1; 1]) = Some r ∧ partition_text r = [3; 1; 1].
Proof.
  assert (H5 : 1 ≤ 5 ≤ 80) by lia.
  assert (Hr : reachable 5 (pad [3; 1; 1])).
  { apply (enumerate_reachable 5 7).
    apply (list_elem_of_lookup_2 _ 3%nat). by vm_compute. }
  split_and!; [done..|].
  destruct (stored_row_fields 5 _ H5 Hr) as (r & Hrow & Htext & _).
  exists r. split; [exact Hrow|]. rewrite Htext. by vm_compute.
Defined.

(** X5. For [1 ≤ N ≤ 80] the row [write_partition_data] computes from a
    reachable array has the first part as [largest_part] and the last
    part as [smallest_part]; every part lies between them, and
    [part_count * smallest_part ≤ N ≤ part_count * largest_part]. *)
Theorem advanced_row_fields (N : Z) (IP : list Z) (is_primary : bool)
    (HN : 1 ≤ N ≤ 80) (Hr : reachable N IP) :
  let r := Advanced.row_of N IP is_primary in
  IP !! 0%nat = Some (Advanced.largest_part r)
  ∧ last (non_zero_parts IP) = Some (Advanced.smallest_part r)
  ∧ Forall (fun x => Advanced.smallest_part r ≤ x ≤ Advanced.largest_part r)
      (non_zero_parts IP)
  ∧ Advanced.part_count r = Z.of_nat (length (non_zero_parts IP))
  ∧ 1 ≤ Advanced.smallest_part r ≤ Advanced.largest_part r
  ∧ Advanced.largest_part r ≤ N
  ∧ Advanced.part_count r * Advanced.smallest_part r ≤ N
  ∧ N ≤ Advanced.part_count r * Advanced.largest_part r.
Proof.
  destruct (reachable_parts N IP HN Hr)
    as (x & t & Hnz & -> & Hhd & Hpart & Hs & Hle & Hge & Hlast).
  pose proof Hpart as (Hpos & _ & Hsum).
  pose proof (sum_le_length_mul _ _ Hle) as Hmul.
  pose proof (sum_ge_length_mul _ _ Hge) as Hmul'.
  unfold Advanced.row_of. rewrite Hnz.
  cbn [Advanced.largest_part Advanced.smallest_part Advanced.part_count].
  unfold Advanced.largest, Advanced.smallest. cbn [py_max py_min default].
  rewrite foldl_max_head
    by (apply StronglySorted_inv in Hs as [_ Hx]; exact Hx).
  rewrite (foldl_min_last t x Hs).
  pose proof (Forall_inv Hle) as Hxx. pose proof (Forall_inv Hge) as Hlx.
  assert (Hx1 : x ≤ N).
  { cbn [Py.sum] in Hsum. apply Forall_cons in Hpos as [_ Hp].
    pose proof (length_le_sum t Hp). lia. }
  unfold id. simpl in Hxx, Hlx. rewrite Hsum in Hmul, Hmul'.
  split_and!; try done; try lia.
  - rewrite last_cons. by destruct (last t).
  - apply Forall_forall. intros y Hy.
    eapply (Forall_forall (fun y => y ≤ x)) in Hle; [|exact Hy].
    eapply (Forall_forall (fun y => default x (last t) ≤ y)) in Hge; [|exact Hy].
    change (default x (last t) ≤ y ≤ x). lia.
Qed.

Lemma advanced_row_fields_witness :
  1 ≤ 5 ≤ 80 ∧ reachable 5 (pad [3; 2])
  ∧ last (non_zero_parts (pad [3; 2]))
    = Some (Advanced.smallest_part (Advanced.row_of 5 (pad [3; 2]) false)).
Proof.
  assert (H5 : 1 ≤ 5 ≤ 80) by lia.
  assert (Hr : reachable 5 (pad [3; 2])).
  { apply (enumerate_reachable 5 7).
    apply (list_elem_of_lookup_2 _ 2%nat). by vm_compute. }
  split_and!; [done..|].
  apply (advanced_row_fields 5 _ false H5 Hr).
Defined.



(** ** The rows of [generate_n80_partitions_sqlite_only] under any clock *)

Lemma gate_open_elapsed (now start last : Q) :
  (start <= last)%Q → Qle_bool 10 (now - last) = true →
  Qeq_bool (now - start) 0 = false ∧ (start <= now)%Q.
Proof.
  intros Hstart Hopen. apply Qle_bool_iff in Hopen. split; [|lra].
  destruct (Qeq_bool (now - start) 0) eqn:E; [|done].
  apply Qeq_bool_iff in E. lra.
Qed.

(** However the clock runs, as long as the gate never opens at zero
    elapsed time (which [start ≤ last_print_time] excludes), the loop
    does not crash; committed and pending rows together are the rows
    there were, followed by the rows of the new arrays in order; what is
    committed only grows; and the number of committed rows stays a
    multiple of 100000. *)
Lemma generate_loop_rows (clock : Z → Q) (start : Q) (L : list (list Z)) :
  Forall (fun IP => is_Some (make_row IP)) L →
  ∀ (fuel : nat) (t : Z) (IP : list Z) (n : Z) (last : Q) (db : database)
    (pr : list Z),
    (start <= last)%Q →
    follows 80 IP L →
    ∃ g', generate_loop fuel clock start t (Generator IP n last db pr)
          = (g', if bool_decide (length L < fuel)%nat then Completed else Unfinished)
          ∧ committed (conn g') ++ pending (conn g')
            = (committed db ++ pending db) ++ omap make_row (take fuel L)
          ∧ partition_count g' = (n + Z.of_nat (Nat.min fuel (length L)))%Z
          ∧ (∃ more, committed (conn g') = committed db ++ more)
          ∧ (Z.of_nat (length (committed db ++ pending db)) = n →
             (Z.of_nat (length (committed db)) `mod` 100000 = 0)%Z →
             (Z.of_nat (length (committed (conn g'))) `mod` 100000 = 0)%Z).
Proof.
  induction 1 as [|IP' L [r Hr] _ IH]; intros fuel t IP n last db pr Hstart HL;
    cbn [follows] in HL.
  - exists (Generator IP n last db pr). destruct fuel as [|fuel].
    + cbn [generate_loop length conn committed pending partition_count take omap list_omap].
      rewrite app_nil_r.
      split_and!; [done|done|lia|by exists []; rewrite app_nil_r|done].
    + rewrite generate_loop_S. cbn [IP_of]. rewrite HL.
      cbn [length conn committed pending partition_count take omap list_omap].
      rewrite app_nil_r.
      split_and!; [done|done|lia|by exists []; rewrite app_nil_r|done].
  - destruct HL as [Hstep HL]. destruct fuel as [|fuel].
    { exists (Generator IP n last db pr).
      cbn [generate_loop length conn committed pending partition_count take omap list_omap].
      rewrite app_nil_r.
      split_and!; [done|done|lia|by exists []; rewrite app_nil_r|done]. }
    rewrite generate_loop_S.
    cbn [IP_of last_print_time conn partition_count progress].
    rewrite Hstep, Hr.
    assert (Hrows : omap make_row (take (S fuel) (IP' :: L))
                    = r :: omap make_row (take fuel L)).
    { cbn [take omap list_omap]. by rewrite Hr. }
    rewrite Hrows. clear Hrows.
    assert (Hstatus : (if bool_decide (length (IP' :: L) < S fuel)%nat
                       then Completed else Unfinished)
                      = (if bool_decide (length L < fuel)%nat
                         then Completed else Unfinished)).
    { cbn [length]. destruct (decide (length L < fuel)%nat);
        [rewrite !bool_decide_true by lia|rewrite !bool_decide_false by lia];
        reflexivity. }
    rewrite Hstatus. clear Hstatus.
    assert (Hmin : Z.of_nat (Nat.min (S fuel) (length (IP' :: L)))
                   = (1 + Z.of_nat (Nat.min fuel (length L)))%Z)
      by (cbn [length]; lia).
    rewrite Hmin. clear Hmin.
    destruct (Qle_bool 10 (clock t - last)) eqn:Hgate.
    + destruct (gate_open_elapsed (clock t) start last Hstart Hgate)
        as [Helapsed Hstart'].
      rewrite Helapsed.
      destruct (decide ((n + 1) `mod` 100000 = 0)%Z) as [Hbatch|Hbatch];
        [rewrite bool_decide_true by done|rewrite bool_decide_false by done].
      * destruct (IH fuel (t + 1)%Z IP' (n + 1)%Z (clock t)
                    (commit (execute_insert r db)) (pr ++ [(n + 1)%Z])
                    Hstart' HL)
          as (g' & E & Hall & Hn & [more Hmore] & Hmult).
        exists g'. rewrite E.
        cbn [commit execute_insert committed pending] in *.
        rewrite app_nil_r in Hall. rewrite app_nil_r in Hmult.
        split_and!; [done| |lia| |].
        -- rewrite Hall. by rewrite <- !app_assoc.
        -- exists ((pending db ++ [r]) ++ more).
           rewrite Hmore. by rewrite <- !app_assoc.
        -- intros Htotal Hdb. apply Hmult.
           ++ rewrite !length_app in *. cbn [length]. lia.
           ++ rewrite !length_app in *. cbn [length].
              replace (Z.of_nat (length (committed db)
                                 + (length (pending db) + 1)))
                with (n + 1)%Z by lia.
              done.
      * destruct (IH fuel (t + 1)%Z IP' (n + 1)%Z (clock t)
                    (execute_insert r db) (pr ++ [(n + 1)%Z]) Hstart' HL)
          as (g' & E & Hall & Hn & [more Hmore] & Hmult).
        exists g'. rewrite E.
        cbn [execute_insert committed pending] in *.
        split_and!; [done| |lia|by exists more|].
        -- rewrite Hall. by rewrite <- !app_assoc.
        -- intros Htotal Hdb. apply Hmult; [|done].
           rewrite !length_app in *. cbn [length]. lia.
    + destruct (IH fuel (t + 1)%Z IP' (n + 1)%Z last
                  (execute_insert r db) pr Hstart HL)
        as (g' & E & Hall & Hn & [more Hmore] & Hmult).
      exists g'. rewrite E.
      cbn [execute_insert committed pending] in *.
      split_and!; [done| |lia|by exists more|].
      * rewrite Hall. by rewrite <- !app_assoc.
      * intros Htotal Hdb. apply Hmult; [|done].
        rewrite !length_app in *. cbn [length]. lia.
Qed.

Lemma texts_of_rows (L : list (list Z)) :
  Forall (fun l => Forall (fun x => x > 0) l ∧ l ≠ []) L →
  partition_text <$> omap make_row (pad <$> L) = L
  ∧ Forall (fun IP => is_Some (make_row IP)) (pad <$> L).
Proof.
  induction 1 as [|l L [Hpos Hne] _ [IH1 IH2]]; [by split|].
  rewrite fmap_cons. assert (Hrow : ∃ r, make_row (pad l) = Some r
                                         ∧ partition_text r = l).
  { unfold make_row. rewrite non_zero_parts_pad by done.
    destruct l as [|x l]; [done|]. cbn [py_max]. eauto. }
  destruct Hrow as (r & Hr & Htext). split.
  - change (omap make_row (pad l :: (pad <$> L)))
      with (match make_row (pad l) with
            | Some y => y :: omap make_row (pad <$> L)
            | None => omap make_row (pad <$> L)
            end).
    rewrite Hr, fmap_cons, IH1. by rewrite Htext.
  - constructor; [by rewrite Hr|done].
Qed.

Lemma partitions_80_chain :
  ∃ L, partitions 80 = [80] :: L
       ∧ follows 80 (initial 80) (pad <$> L)
       ∧ Forall (fun l => Forall (fun x => x > 0) l ∧ l ≠ []) L
       ∧ Z.of_nat (length L) = 15796475.
Proof.
  destruct (partitions_follows 80 ltac:(lia)) as (L & E & _ & HL & _).
  rewrite (greedy_ge 80 80) in E by lia.
  exists L. split_and!; [exact E|exact HL| |].
  - apply Forall_forall. intros l Hl.
    assert (Hin : l ∈ partitions 80).
    { rewrite E. by apply list_elem_of_further. }
    apply partitions_spec in Hin as (Hpos & _ & Hsum); [|lia].
    split; [exact Hpos|]. intros ->. discriminate Hsum.
  - pose proof (partitions_length 80) as Hlen. rewrite p_80, E in Hlen.
    rewrite length_cons in Hlen. lia.
Qed.

Lemma make_row_initial_80_value : make_row (initial 80) = Some (Row [80] 1 80).
Proof. by vm_compute. Qed.

(** The state [generate_n80_partitions_sqlite_only] is in when its loop
    stops, before the final commit of a completed run. *)
Lemma generate_state (clock : Z → Q) (fuel : nat) :
  (clock 0%Z <= clock 1%Z)%Q →
  ∃ L g,
    partitions 80 = [80] :: L
    ∧ Z.of_nat (length L) = 15796475%Z
    ∧ generate_loop fuel clock (clock 0%Z) 2
        (Generator (initial 80) 1 (clock 1%Z)
           (execute_insert (Row [80] 1 80) (Database [] [])) [])
      = (g, if bool_decide (length L < fuel)%nat then Completed else Unfinished)
    ∧ partition_text <$> (committed (conn g) ++ pending (conn g))
      = take (S fuel) (partitions 80)
    ∧ partition_count g
      = Z.of_nat (length (committed (conn g) ++ pending (conn g)))
    ∧ (Z.of_nat (length (committed (conn g))) `mod` 100000 = 0)%Z.
Proof.
  intros Hclock.
  destruct partitions_80_chain as (L & E & HL & Hpos & Hlen).
  destruct (texts_of_rows L Hpos) as [_ Hrows].
  destruct (generate_loop_rows clock (clock 0%Z) (pad <$> L) Hrows fuel 2
              (initial 80) 1 (clock 1%Z)
              (execute_insert (Row [80] 1 80) (Database [] [])) [] Hclock HL)
    as (g & Eg & Hall & Hn & _ & Hmult).
  rewrite length_fmap in Eg, Hn.
  exists L, g. split_and!; [done|done|done| | |by apply Hmult].
  - rewrite Hall, E. cbn [execute_insert committed pending]. simpl app.
    rewrite <- fmap_take.
    assert (Htake : Forall (fun l => Forall (fun x => x > 0) l ∧ l ≠ [])
                      (take fuel L))
      by (by apply Forall_take).
    destruct (texts_of_rows _ Htake) as [Htexts _].
    rewrite fmap_cons, Htexts. done.
  - rewrite Hall, Hn. cbn [execute_insert committed pending]. simpl app.
    rewrite <- fmap_take.
    assert (Htake : Forall (fun l => Forall (fun x => x > 0) l ∧ l ≠ [])
                      (take fuel L))
      by (by apply Forall_take).
    destruct (texts_of_rows _ Htake) as [Htexts _].
    apply (f_equal length) in Htexts. rewrite length_fmap in Htexts.
    cbn [length]. rewrite Htexts, length_take. lia.
Qed.

(** The closing report raises exactly when the last clock reading
    equals the first. *)
Lemma closing_report_status (clock : Z → Q) (st : run_status) :
  st = (if Qeq_bool (clock 15796477%Z - clock 0%Z) 0 then Crashed else Completed) →
  (st = Completed ∨ st = Crashed)
  ∧ (st = Completed ↔ ¬ (clock 15796477%Z == clock 0%Z)%Q)
  ∧ (st = Crashed ↔ (clock 15796477%Z == clock 0%Z)%Q).
Proof.
  intros ->. destruct (Qeq_bool (clock 15796477%Z - clock 0%Z) 0) eqn:E.
  - apply Qeq_bool_iff in E. split_and!; [by right| |].
    + split; [discriminate|]. intros Hne. destruct Hne. lra.
    + split; [intros _; lra|reflexivity].
  - apply Qeq_bool_neq in E. split_and!; [by left| |].
    + split; [|reflexivity]. intros _ Heq. apply E. lra.
    + split; [discriminate|]. intros Heq. destruct E. lra.
Qed.

Lemma partitions_80_nonempty :
  Forall (fun l => Forall (fun x => x > 0) l ∧ l ≠ []) (partitions 80).
Proof.
  destruct partitions_80_chain as (L & E & _ & Hpos & _).
  rewrite E. constructor; [|exact Hpos].
  split; [repeat constructor; lia|discriminate].
Qed.

(** A run that is given the passes it needs: the state after the final
    commit, and how the closing report ends. *)
Lemma generate_closing (clock : Z → Q) (fuel : nat) :
  (clock 0%Z <= clock 1%Z)%Q → 15796476 ≤ Z.of_nat fuel →
  ∃ g, generate_n80_partitions_sqlite_only fuel clock
       = (g, if Qeq_bool (clock 15796477%Z - clock 0%Z) 0
             then Crashed else Completed)
       ∧ pending (conn g) = []
       ∧ committed (conn g) = omap make_row (pad <$> partitions 80)
       ∧ partition_text <$> committed (conn g) = partitions 80
       ∧ Z.of_nat (length (committed (conn g))) = 15796476
       ∧ partition_count g = 15796476.
Proof.
  intros Hclock Hfuel.
  destruct partitions_80_chain as (L & E & HL & Hpos & Hlen).
  destruct (texts_of_rows L Hpos) as [_ Hrows].
  destruct (generate_loop_rows clock (clock 0%Z) (pad <$> L) Hrows fuel 2
              (initial 80) 1 (clock 1%Z)
              (execute_insert (Row [80] 1 80) (Database [] [])) [] Hclock HL)
    as (g & Eg & Hall & Hn & _).
  rewrite length_fmap in Eg, Hn. rewrite bool_decide_true in Eg by lia.
  assert (Hcount : partition_count g = 15796476) by lia.
  assert (Htable : committed (conn g) ++ pending (conn g)
                   = omap make_row (pad <$> partitions 80)).
  { rewrite Hall, E. rewrite take_ge by (rewrite length_fmap; lia).
    rewrite fmap_cons. cbn [omap list_omap].
    change (pad [80]) with (initial 80). rewrite make_row_initial_80_value.
    reflexivity. }
  destruct (texts_of_rows _ partitions_80_nonempty) as [Htexts _].
  unfold generate_n80_partitions_sqlite_only.
  rewrite make_row_initial_80_value, Eg. cbv zeta. rewrite Hcount.
  change (15796476 + 1)%Z with 15796477%Z.
  eexists. split; [reflexivity|].
  cbn [conn commit committed pending partition_count].
  rewrite Htable, Htexts.
  split_and!; [reflexivity|reflexivity|reflexivity| |reflexivity].
  rewrite <- (length_fmap partition_text), Htexts.
  pose proof (partitions_length 80) as Hp. rewrite p_80 in Hp. exact Hp.
Qed.

(** X7. Whatever the clock shows afterwards, provided the second reading
    is not before the first, a run of
    [generate_n80_partitions_sqlite_only] that is given the passes it
    needs gets through its loop and the final commit: no row is pending,
    the committed rows are the 15796476 partitions of 80 in the order of
    the enumeration, and [partition_count] is their number.  The closing
    report then raises (a division by zero) exactly when the last clock
    reading equals the first; otherwise the run completes. *)
Theorem generate_commits_every_row (clock : Z → Q) (fuel : nat)
    (Hclock : (clock 0%Z <= clock 1%Z)%Q) (Hfuel : 15796476 ≤ Z.of_nat fuel) :
  ∃ g st, generate_n80_partitions_sqlite_only fuel clock = (g, st)
          ∧ (st = Completed ∨ st = Crashed)
          ∧ (st = Completed ↔ ¬ (clock 15796477%Z == clock 0%Z)%Q)
          ∧ (st = Crashed ↔ (clock 15796477%Z == clock 0%Z)%Q)
          ∧ pending (conn g) = []
          ∧ partition_text <$> committed (conn g) = partitions 80
          ∧ Z.of_nat (length (committed (conn g))) = 15796476
          ∧ partition_count g = 15796476.
Proof.
  destruct (generate_closing clock fuel Hclock Hfuel)
    as (g & Eg & Hpending & _ & Htexts & Hlen & Hcount).
  destruct (closing_report_status clock _ eq_refl) as (Hst & Hdone & Hraise).
  exists g. eexists. split; [exact Eg|].
  split; [exact Hst|]. split; [exact Hdone|]. split; [exact Hraise|].
  split; [exact Hpending|]. split; [exact Htexts|].
  split; [exact Hlen | exact Hcount].
Qed.

Lemma steady_clock_advances :
  ¬ (steady_clock 15796477 == steady_clock 0)%Q.
Proof. unfold steady_clock, Qeq. simpl. lia. Qed.

Lemma generate_commits_every_row_witness :
  (steady_clock 0 <= steady_clock 1)%Q
  ∧ 15796476 ≤ Z.of_nat (Z.to_nat 15796476)
  ∧ ∃ g, generate_n80_partitions_sqlite_only (Z.to_nat 15796476) steady_clock
         = (g, Completed)
         ∧ pending (conn g) = [].
Proof.
  assert (Hclock : (steady_clock 0 <= steady_clock 1)%Q)
    by (unfold steady_clock, Qle; simpl; lia).
  assert (Hfuel : 15796476 ≤ Z.of_nat (Z.to_nat 15796476)) by lia.
  split; [exact Hclock|]. split; [exact Hfuel|].
  destruct (generate_commits_every_row steady_clock (Z.to_nat 15796476)
              Hclock Hfuel) as (g & st & Eg & _ & Hdone & _ & Hp & _).
  exists g. split; [|exact Hp].
  rewrite Eg. f_equal. apply Hdone, steady_clock_advances.
Defined.

(** X8. Under the same condition on the clock, a run of
    [generate_n80_partitions_sqlite_only] stopped after any number of
    passes has raised nothing in its loop: it is unfinished exactly when
    it was given fewer than 15796476 passes, and the one exception it can
    end in is the division of the closing report, when the loop is
    through, every row is committed and the last clock reading equals the
    first.  The rows it has inserted, committed and pending together, are
    the first partitions of 80 in the order of the enumeration,
    [partition_count] of them; as long as the run is unfinished the
    committed rows number a multiple of 100000, and afterwards no row is
    pending. *)
Theorem generate_rows_at_any_time (clock : Z → Q) (fuel : nat)
    (Hclock : (clock 0%Z <= clock 1%Z)%Q) :
  ∃ g st, generate_n80_partitions_sqlite_only fuel clock = (g, st)
          ∧ (st = Unfinished ↔ Z.of_nat fuel < 15796476)
          ∧ (st = Crashed ↔
               15796476 ≤ Z.of_nat fuel
               ∧ (clock 15796477%Z == clock 0%Z)%Q)
          ∧ partition_text <$> (committed (conn g) ++ pending (conn g))
            = take (S fuel) (partitions 80)
          ∧ partition_count g
            = Z.of_nat (length (committed (conn g) ++ pending (conn g)))
          ∧ (st = Unfinished →
             (Z.of_nat (length (committed (conn g))) `mod` 100000 = 0)%Z)
          ∧ (st ≠ Unfinished → pending (conn g) = []).
Proof.
  destruct (decide (15796476 ≤ Z.of_nat fuel)) as [Hfuel|Hfuel].
  - destruct (generate_closing clock fuel Hclock Hfuel)
      as (g & Eg & Hpending & _ & Htexts & Hlen & Hcount).
    destruct (closing_report_status clock _ eq_refl) as (Hst & Hdone & Hraise).
    exists g. eexists. split; [exact Eg|].
    rewrite Hpending, app_nil_r, Htexts, Hlen, Hcount.
    split_and!.
    + split; [|lia]. intros Hun. destruct Hst as [Hst|Hst];
        rewrite Hst in Hun; discriminate Hun.
    + rewrite Hraise. split; [by split|by intros [_ Heq]].
    + symmetry. apply take_ge.
      pose proof (partitions_length 80) as Hp. rewrite p_80 in Hp. lia.
    + reflexivity.
    + intros Hun. destruct Hst as [Hst|Hst];
        rewrite Hst in Hun; discriminate Hun.
    + reflexivity.
  - destruct (generate_state clock fuel Hclock)
      as (L & g & E & HL & Eg & Htexts & Hn & Hmult).
    rewrite bool_decide_false in Eg by lia.
    exists g, Unfinished. split.
    { unfold generate_n80_partitions_sqlite_only.
      by rewrite make_row_initial_80_value, Eg. }
    split_and!.
    + split; [lia|reflexivity].
    + split; [discriminate|]. intros [Hge _]. lia.
    + exact Htexts.
    + exact Hn.
    + intros _. exact Hmult.
    + intros Hne. by destruct Hne.
Qed.

Lemma generate_rows_at_any_time_witness :
  (steady_clock 0 <= steady_clock 1)%Q
  ∧ ∃ g, generate_n80_partitions_sqlite_only 3 steady_clock = (g, Unfinished).
Proof.
  assert (Hclock : (steady_clock 0 <= steady_clock 1)%Q)
    by (unfold steady_clock, Qle; simpl; lia).
  split; [exact Hclock|].
  destruct (generate_rows_at_any_time steady_clock 3 Hclock)
    as (g & st & Eg & Hun & _).
  exists g. rewrite Eg. f_equal. apply Hun. lia.
Defined.

(** ** [verify_database] *)

Lemma with_ids_lookup (table : list row) (i : nat) (r : row) :
  table !! i = Some r → with_ids table !! i = Some (Z.of_nat i + 1, r).
Proof.
  intros Hr. unfold with_ids. rewrite lookup_zip_with.
  rewrite lookup_seqZ_lt by (apply lookup_lt_Some in Hr; lia).
  rewrite Hr. simpl. do 2 f_equal. lia.
Qed.

Lemma length_with_ids (table : list row) :
  length (with_ids table) = length table.
Proof.
  unfold with_ids. rewrite length_zip_with_r_eq; [done|].
  rewrite length_seqZ. lia.
Qed.

Lemma verify_database_rows (table : list row) (first last_ : row) :
  head table = Some first → last table = Some last_ →
  verify_database table
  = Some (Verification (Z.of_nat (length table)) (1, partition_text first)
            (Z.of_nat (length table), partition_text last_)
            (take 10 (group_by_part_count table))).
Proof.
  intros Hfirst Hlast. unfold verify_database.
  rewrite head_lookup in Hfirst. rewrite last_lookup in Hlast.
  rewrite head_lookup, last_lookup, length_with_ids.
  rewrite (with_ids_lookup _ _ _ Hfirst), (with_ids_lookup _ _ _ Hlast).
  cbn [fst snd]. do 3 f_equal.
  assert (length table ≠ 0%nat); [|lia].
  intros Hz. apply nil_length_inv in Hz. by subst.
Qed.

(** X9. After a run of [generate_n80_partitions_sqlite_only] on a new
    database that got through its loop (a completed run, or one whose
    closing report raised after the final commit), [verify_database]
    finds 15796476 rows, as many as [partition_count]; the row with the
    least id, 1, holds the partition [80], and the row with the greatest
    id, 15796476, holds 80 ones.  The run is completed unless the last
    clock reading equals the first. *)
Theorem verify_after_generate (clock : Z → Q) (fuel : nat)
    (Hclock : (clock 0%Z <= clock 1%Z)%Q) (Hfuel : 15796476 ≤ Z.of_nat fuel) :
  ∃ g st v, generate_n80_partitions_sqlite_only fuel clock = (g, st)
         ∧ (st = Completed ∨ st = Crashed)
         ∧ (st = Completed ↔ ¬ (clock 15796477%Z == clock 0%Z)%Q)
         ∧ verify_database (committed (conn g)) = Some v
         ∧ total v = 15796476
         ∧ total v = partition_count g
         ∧ first_row v = (1, [80])
         ∧ last_row v = (15796476, replicate 80 1)
         ∧ (length (distribution v) ≤ 10)%nat.
Proof.
  destruct (generate_closing clock fuel Hclock Hfuel)
    as (g & Eg & _ & _ & Htexts & Hcount & Hn).
  destruct (closing_report_status clock _ eq_refl) as (Hst & Hdone & _).
  destruct (partitions_follows 80 ltac:(lia)) as (L & E & _ & _ & Hlast).
  rewrite <- E in Hlast. rewrite (greedy_ge 80 80) in E by lia.
  rewrite E in Htexts, Hlast. clear E.
  remember (committed (conn g)) as table eqn:Etable.
  assert (Hfirst : ∃ r, head table = Some r ∧ partition_text r = [80]).
  { destruct table as [|r table']; [discriminate Htexts|].
    exists r. split; [reflexivity|].
    rewrite fmap_cons in Htexts. by injection Htexts. }
  assert (Hlast' : ∃ r, last table = Some r
                        ∧ partition_text r = replicate 80 1).
  { rewrite <- Htexts, fmap_last in Hlast.
    destruct (last table) as [r|]; [|discriminate Hlast].
    exists r. split; [reflexivity|]. by injection Hlast. }
  destruct Hfirst as (r1 & Hr1 & Ht1). destruct Hlast' as (r2 & Hr2 & Ht2).
  exists g. eexists _, _. split; [exact Eg|].
  split; [exact Hst|]. split; [exact Hdone|].
  rewrite <- Etable, (verify_database_rows table r1 r2 Hr1 Hr2).
  split; [reflexivity|].
  cbn [total first_row last_row distribution].
  rewrite Ht1, Ht2, Hn, Hcount.
  split_and!; [reflexivity..|].
  rewrite length_take. lia.
Qed.

Lemma verify_after_generate_witness :
  (steady_clock 0 <= steady_clock 1)%Q
  ∧ 15796476 ≤ Z.of_nat (Z.to_nat 15796476)
  ∧ ∃ g v, generate_n80_partitions_sqlite_only (Z.to_nat 15796476) steady_clock
           = (g, Completed)
           ∧ verify_database (committed (conn g)) = Some v
           ∧ total v = 15796476.
Proof.
  assert (Hclock : (steady_clock 0 <= steady_clock 1)%Q)
    by (unfold steady_clock, Qle; simpl; lia).
  assert (Hfuel : 15796476 ≤ Z.of_nat (Z.to_nat 15796476)) by lia.
  split; [exact Hclock|]. split; [exact Hfuel|].
  destruct (verify_after_generate steady_clock (Z.to_nat 15796476)
              Hclock Hfuel) as (g & st & v & Eg & _ & Hdone & Ev & Ht & _).
  exists g, v. split; [|split; [exact Ev | exact Ht]].
  rewrite Eg. f_equal. apply Hdone, steady_clock_advances.
Defined.

(** X10. [verify_database] raises exactly on an empty table (the row
    fetched first is [None]); on any other table it reports the number of
    rows, 1 as the least id and the number of rows as the greatest. *)
Theorem verify_database_empty (table : list row) :
  (verify_database table = None ↔ table = [])
  ∧ (∀ v, verify_database table = Some v →
          total v = Z.of_nat (length table)
          ∧ (first_row v).1 = 1
          ∧ (last_row v).1 = Z.of_nat (length table)
          ∧ Some (first_row v).2 = partition_text <$> head table
          ∧ Some (last_row v).2 = partition_text <$> last table).
Proof.
  destruct table as [|r table]; [by split|].
  destruct (last (r :: table)) as [r'|] eqn:Hlast.
  - rewrite (verify_database_rows (r :: table) r r' eq_refl Hlast).
    split; [done|]. intros v [= <-]. by cbn.
  - by apply last_None in Hlast.
Qed.

(** ** [main]: all the targets *)

Lemma main_from_complete (fuel : nat) (targets : list Z) :
  Forall (fun N => 0 ≤ N ≤ 80 ∧ p N ≤ Z.of_nat fuel) targets →
  main_from fuel targets
  = ((fun N => (N, pad <$> partitions N)) <$> targets, Completed).
Proof.
  induction 1 as [|N rest [HN Hp] _ IH]; [reflexivity|].
  cbn [main_from]. rewrite enumerate_complete_run, IH by (done || lia).
  reflexivity.
Qed.

Lemma main_from_stops (fuel : nat) (finished : list Z) (N : Z) (rest : list Z) :
  Forall (fun N => 0 ≤ N ≤ 80 ∧ p N ≤ Z.of_nat fuel) finished →
  0 ≤ N ≤ 80 → Z.of_nat fuel < p N →
  main_from fuel (finished ++ N :: rest)
  = (((fun N => (N, pad <$> partitions N)) <$> finished)
       ++ [(N, take (S fuel) (pad <$> partitions N))], Unfinished).
Proof.
  intros Hdone HN Hp.
  induction Hdone as [|M finished' [HM HpM] _ IH].
  - cbn [app main_from fmap list_fmap].
    rewrite enumerate_partitions by done.
    rewrite bool_decide_false; [reflexivity|].
    pose proof (partitions_length N). lia.
  - cbn [app main_from]. rewrite enumerate_complete_run, IH by (done || lia).
    reflexivity.
Qed.

(** The partition numbers [p 0], ..., [p 80], from the table. *)
Lemma p_le_p_80 (N : Z) : 0 ≤ N ≤ 80 → p N ≤ 15796476.
Proof.
  intros HN.
  assert (Htab : forallb (fun n => default 0 (count_row n n !! n) <=? 15796476)
                   (seq 0 81) = true) by (vm_compute; reflexivity).
  rewrite forallb_forall in Htab.
  specialize (Htab (Z.to_nat N)).
  rewrite <- p_row, Z2Nat.id in Htab by lia.
  apply Z.leb_le, Htab, in_seq. lia.
Qed.

Lemma p_table (l : list nat) :
  p <$> (Z.of_nat <$> l) = (fun n => default 0 (count_row n n !! n)) <$> l.
Proof.
  induction l as [|n l IH]; [reflexivity|].
  rewrite !fmap_cons, IH, p_row. reflexivity.
Qed.

Lemma sum_p_targets : Py.sum (p <$> main_targets) = 123223638.
Proof.
  assert (Hseq : main_targets = Z.of_nat <$> seq 1 80) by (vm_compute; reflexivity).
  rewrite Hseq, p_table. vm_compute. reflexivity.
Qed.

Lemma first_failing {A} (P : A → Prop) `{∀ x, Decision (P x)} (l : list A) :
  ¬ Forall P l → ∃ l1 x l2, l = l1 ++ x :: l2 ∧ Forall P l1 ∧ ¬ P x.
Proof.
  induction l as [|a l IH]; intros Hnot.
  - destruct Hnot. constructor.
  - destruct (decide (P a)) as [Ha|Ha].
    + destruct IH as (l1 & x & l2 & -> & Hl1 & Hx).
      { intros Hl. apply Hnot. by constructor. }
      exists (a :: l1), x, l2. split_and!; [reflexivity| by constructor | exact Hx].
    + exists [], a, l. split_and!; [reflexivity| constructor | exact Ha].
Qed.

Lemma main_targets_range (N : Z) : N ∈ main_targets ↔ 1 ≤ N ≤ 80.
Proof. unfold main_targets, Py.range. rewrite elem_of_seqZ. lia. Qed.

Lemma sum_run_lengths (targets : list Z) :
  Py.sum ((fun run : Z * list (list Z) => Z.of_nat (length run.2))
            <$> ((fun N => (N, pad <$> partitions N)) <$> targets))
  = Py.sum (p <$> targets).
Proof.
  induction targets as [|N rest IH]; [reflexivity|].
  rewrite !fmap_cons. cbn [Py.sum snd]. rewrite IH, length_fmap, partitions_length.
  reflexivity.
Qed.

(** X11. [main] given the passes the largest target needs (15796476, the
    number of partitions of 80) completes every target of
    [range(1, 81)] in order; the arrays of the target [N] are the
    partitions of [N], and the run emits 123223638 arrays in all. *)
Theorem main_completes_all_targets (fuel : nat)
    (Hfuel : 15796476 ≤ Z.of_nat fuel) :
  main fuel = ((fun N => (N, pad <$> partitions N)) <$> main_targets, Completed)
  ∧ fst <$> (main fuel).1 = Py.range 1 81
  ∧ Py.sum ((fun run => Z.of_nat (length run.2)) <$> (main fuel).1) = 123223638.
Proof.
  assert (Hmain : main fuel
    = ((fun N => (N, pad <$> partitions N)) <$> main_targets, Completed)).
  { apply main_from_complete, Forall_forall. intros N HN.
    apply main_targets_range in HN. pose proof (p_le_p_80 N). lia. }
  rewrite Hmain. cbn [fst]. split; [reflexivity|]. split.
  - rewrite <- list_fmap_compose. apply list_fmap_id.
  - rewrite sum_run_lengths. apply sum_p_targets.
Qed.

Lemma main_completes_all_targets_witness :
  15796476 ≤ Z.of_nat (Z.to_nat 15796476)
  ∧ (main (Z.to_nat 15796476)).2 = Completed.
Proof.
  assert (Hfuel : 15796476 ≤ Z.of_nat (Z.to_nat 15796476)) by lia.
  split; [exact Hfuel|].
  destruct (main_completes_all_targets (Z.to_nat 15796476) Hfuel) as [E _].
  rewrite E. reflexivity.
Defined.

(** X12. [main] stopped after fewer passes per target than the partitions
    of 80 number does not raise: the targets before the first one that
    needs more passes are complete, that one has its first [fuel + 1]
    arrays, and no later target is started. *)
Theorem main_stops_at_first_unfinished (fuel : nat)
    (Hfuel : Z.of_nat fuel < 15796476) :
  ∃ finished N rest,
    main_targets = finished ++ N :: rest
    ∧ Forall (fun M => p M ≤ Z.of_nat fuel) finished
    ∧ Z.of_nat fuel < p N
    ∧ main fuel
      = (((fun M => (M, pad <$> partitions M)) <$> finished)
           ++ [(N, take (S fuel) (pad <$> partitions N))], Unfinished)
    ∧ length (take (S fuel) (pad <$> partitions N)) = S fuel.
Proof.
  destruct (first_failing (fun M => p M ≤ Z.of_nat fuel) main_targets)
    as (finished & N & rest & E & Hdone & HN).
  { intros Hall. rewrite Forall_forall in Hall.
    specialize (Hall 80). rewrite p_80 in Hall.
    assert (80 ∈ main_targets) by (apply main_targets_range; lia).
    specialize (Hall ltac:(assumption)). lia. }
  exists finished, N, rest.
  assert (Hin : ∀ M, M ∈ finished ++ N :: rest → 1 ≤ M ≤ 80).
  { intros M HM. apply main_targets_range. by rewrite E. }
  split_and!; [exact E|exact Hdone|lia| |].
  - assert (1 ≤ N ≤ 80).
    { apply Hin, elem_of_app. right. apply list_elem_of_here. }
    unfold main. rewrite E. apply main_from_stops; [|lia..].
    apply Forall_forall. intros M HM. split.
    + assert (1 ≤ M ≤ 80); [|lia]. apply Hin, elem_of_app. by left.
    + by eapply (proj1 (Forall_forall _ _) Hdone).
  - rewrite length_take, length_fmap.
    pose proof (partitions_length N). lia.
Qed.

Lemma main_stops_at_first_unfinished_witness :
  Z.of_nat 3 < 15796476
  ∧ ∃ finished N rest, main_targets = finished ++ N :: rest ∧ Z.of_nat 3 < p N.
Proof.
  assert (Hfuel : Z.of_nat 3 < 15796476) by lia.
  split; [exact Hfuel|].
  destruct (main_stops_at_first_unfinished 3 Hfuel)
    as (finished & N & rest & E & _ & HN & _).
  exists finished, N, rest. split; [exact E | exact HN].
Defined.

(** ** The lines printed by [partitions_file.py] *)

Lemma length_append (s t : string) :
  String.length (s +:+ t) = (String.length s + String.length t)%nat.
Proof.
  induction s as [|c s IH]; [reflexivity|].
  change (String c s +:+ t) with (String c (s +:+ t)).
  cbn [String.length]. by rewrite IH.
Qed.

Lemma append_inj_length (s1 s2 t1 t2 : string) :
  String.length s1 = String.length s2 →
  s1 +:+ t1 = s2 +:+ t2 → s1 = s2 ∧ t1 = t2.
Proof.
  revert s2. induction s1 as [|c s1 IH]; intros [|c' s2] Hlen E;
    try discriminate Hlen.
  - by split.
  - change (String c (s1 +:+ t1) = String c' (s2 +:+ t2)) in E.
    injection E as -> E. injection Hlen as Hlen.
    destruct (IH s2 Hlen E) as [-> ->]. by split.
Qed.

Lemma print_loop_lines (fuel : nat) (N : Z) :
  ∀ IP lines,
    print_loop fuel N IP lines
    = (lines ++ (partition_line <$> (loop fuel N IP).1), (loop fuel N IP).2).
Proof.
  induction fuel as [|fuel IH]; intros IP lines; cbn [print_loop loop].
  - by rewrite app_nil_r.
  - destruct (transition N IP) as [|IP'|]; cbn [fst snd fmap list_fmap];
      rewrite ?app_nil_r; try reflexivity.
    rewrite IH. destruct (loop fuel N IP') as [out st].
    cbn [fst snd]. rewrite fmap_cons, <- app_assoc. reflexivity.
Qed.

Lemma cell_width (x : Z) :
  0 ≤ x ≤ 80 → String.length (format_d 3 x) = 3%nat.
Proof.
  intros Hx.
  assert (Htab : forallb (fun n => bool_decide
                   (String.length (format_d 3 (Z.of_nat n)) = 3%nat))
                   (seq 0 81) = true) by (vm_compute; reflexivity).
  rewrite forallb_forall in Htab. specialize (Htab (Z.to_nat x)).
  rewrite Z2Nat.id in Htab by lia.
  eapply bool_decide_eq_true_1, Htab, in_seq. lia.
Qed.

Lemma number_width (N : Z) :
  0 ≤ N ≤ 80 → String.length (format_d 10 N) = 10%nat.
Proof.
  intros Hx.
  assert (Htab : forallb (fun n => bool_decide
                   (String.length (format_d 10 (Z.of_nat n)) = 10%nat))
                   (seq 0 81) = true) by (vm_compute; reflexivity).
  rewrite forallb_forall in Htab. specialize (Htab (Z.to_nat N)).
  rewrite Z2Nat.id in Htab by lia.
  eapply bool_decide_eq_true_1, Htab, in_seq. lia.
Qed.

Lemma cell_inj (x y : Z) :
  0 ≤ x ≤ 80 → 0 ≤ y ≤ 80 → format_d 3 x = format_d 3 y → x = y.
Proof.
  intros Hx Hy E.
  assert (Htab : forallb (fun a => forallb (fun b =>
                   bool_decide (format_d 3 (Z.of_nat a) = format_d 3 (Z.of_nat b)
                                → a = b))
                   (seq 0 81)) (seq 0 81) = true) by (vm_compute; reflexivity).
  assert (Hin : ∀ z, 0 ≤ z ≤ 80 → In (Z.to_nat z) (seq 0 81))
    by (intros z Hz; apply in_seq; lia).
  pose proof (proj1 (forallb_forall _ _) Htab _ (Hin x Hx)) as Hrow.
  pose proof (proj1 (forallb_forall _ _) Hrow _ (Hin y Hy)) as Hxy.
  cbv beta in Hxy. rewrite !Z2Nat.id in Hxy by lia.
  apply bool_decide_eq_true_1 in Hxy. specialize (Hxy E). lia.
Qed.

Lemma partition_line_cons (x : Z) (IP : list Z) :
  partition_line (x :: IP) = format_d 3 x +:+ partition_line IP.
Proof.
  unfold partition_line. rewrite fmap_cons. cbn [py_join].
  destruct (format_d 3 <$> IP) as [|s rest] eqn:E; [|reflexivity].
  cbn [py_join]. induction (format_d 3 x) as [|c w IH]; [reflexivity|].
  change (String c w +:+ EmptyString) with (String c (w +:+ EmptyString)).
  by rewrite <- IH.
Qed.

Lemma line_width (IP : list Z) :
  Forall (fun x => 0 ≤ x ≤ 80) IP →
  String.length (partition_line IP) = (3 * length IP)%nat.
Proof.
  induction 1 as [|x IP Hx _ IH]; [reflexivity|].
  rewrite partition_line_cons, length_append, cell_width, IH by done.
  cbn [length]. lia.
Qed.

Lemma partition_line_inj (IP IP' : list Z) :
  Forall (fun x => 0 ≤ x ≤ 80) IP → Forall (fun x => 0 ≤ x ≤ 80) IP' →
  length IP = length IP' →
  partition_line IP = partition_line IP' → IP = IP'.
Proof.
  intros H. revert IP'.
  induction H as [|x IP Hx _ IH]; intros [|y IP'] H' Hlen E;
    try discriminate Hlen; [reflexivity|].
  apply Forall_cons in H' as [Hy H'].
  rewrite !partition_line_cons in E.
  apply append_inj_length in E as [Ex E]; [|by rewrite !cell_width].
  f_equal; [by apply cell_inj|]. apply IH; [done|by injection Hlen|done].
Qed.

Lemma sum_bounds_parts (l : list Z) :
  Forall (fun x => x > 0) l → Forall (fun x => 0 ≤ x ≤ Py.sum l) l.
Proof.
  induction 1 as [|x l Hx Hl IH]; [constructor|].
  cbn [Py.sum]. pose proof (length_le_sum l Hl).
  constructor; [lia|]. eapply Forall_impl; [exact IH|]. cbn. lia.
Qed.

Lemma canonical_cells (N : Z) (IP : list Z) :
  N ≤ 80 → canonical N IP →
  Forall (fun x => 0 ≤ x ≤ 80) IP ∧ length IP = 80%nat.
Proof.
  intros HN (l & -> & Hlen & Hpos & _ & Hsum). split.
  - unfold pad. apply Forall_app. split.
    + eapply Forall_impl; [apply sum_bounds_parts, Hpos|]. cbn. lia.
    + apply Forall_replicate. lia.
  - by apply length_pad.
Qed.

(** ** [main] of [partions_file2.py]: the CSV file and the table *)

Lemma Basic_foldl_write (N : Z) (arrays : list (list Z)) :
  ∀ f, foldl (fun f IP => Basic.write N IP f) f arrays
       = Basic.Files (Basic.csv f ++ (Basic.csv_row N <$> arrays))
           (Connection (durable (Basic.db f))
              (uncommitted (Basic.db f) ++ (Basic.row_of N <$> arrays))).
Proof.
  induction arrays as [|IP arrays IH]; intros f.
  - cbn [foldl fmap list_fmap]. rewrite !app_nil_r. by destruct f as [? []].
  - cbn [foldl]. rewrite IH, !fmap_cons.
    unfold Basic.write, conn_insert. cbn [Basic.csv Basic.db durable uncommitted].
    by rewrite <- !app_assoc.
Qed.

Lemma Basic_write_loop_spec (fuel : nat) (N : Z) :
  ∀ IP f, Basic.write_loop fuel N IP f
          = (foldl (fun f IP => Basic.write N IP f) f (loop fuel N IP).1,
             (loop fuel N IP).2).
Proof.
  induction fuel as [|fuel IH]; intros IP f; cbn [Basic.write_loop loop];
    [reflexivity|].
  destruct (transition N IP) as [|IP'|]; try reflexivity.
  rewrite IH. by destruct (loop fuel N IP').
Qed.

Lemma Basic_number_spec (fuel : nat) (N : Z) (f : Basic.files) :
  Basic.write_loop fuel N (initial N) (Basic.write N (initial N) f)
  = (Basic.Files (Basic.csv f ++ (Basic.csv_row N <$> (enumerate fuel N).1))
       (Connection (durable (Basic.db f))
          (uncommitted (Basic.db f)
             ++ (Basic.row_of N <$> (enumerate fuel N).1))),
     (enumerate fuel N).2).
Proof.
  rewrite Basic_write_loop_spec.
  change (foldl _ (Basic.write N (initial N) f) ?l)
    with (foldl (fun f IP => Basic.write N IP f) f (initial N :: l)).
  rewrite Basic_foldl_write. unfold enumerate.
  by destruct (loop fuel N (initial N)).
Qed.

Lemma Basic_main_from_complete (fuel : nat) (targets : list Z) :
  Forall (fun N => 0 ≤ N ≤ 80 ∧ p N ≤ Z.of_nat fuel) targets →
  ∀ f, uncommitted (Basic.db f) = [] →
  Basic.main_from fuel targets f
  = (Basic.Files
       (Basic.csv f
          ++ (targets ≫= fun N => Basic.csv_row N <$> (pad <$> partitions N)))
       (Connection
          (durable (Basic.db f)
             ++ (targets ≫= fun N => Basic.row_of N <$> (pad <$> partitions N)))
          []),
     Completed).
Proof.
  induction 1 as [|N rest [HN Hp] _ IH]; intros f Hf.
  - cbn [Basic.main_from mbind list_bind]. rewrite !app_nil_r.
    destruct f as [? []]. cbn in Hf. by subst.
  - cbn [Basic.main_from]. rewrite Basic_number_spec.
    rewrite enumerate_complete_run by (done || lia).
    cbn [fst snd]. rewrite IH by done.
    cbn [Basic.csv Basic.db conn_commit durable uncommitted].
    rewrite Hf, app_nil_l, !bind_cons, <- !app_assoc. reflexivity.
Qed.

Lemma Basic_main_from_stops (fuel : nat) (finished : list Z) (N : Z)
    (rest : list Z) :
  Forall (fun N => 0 ≤ N ≤ 80 ∧ p N ≤ Z.of_nat fuel) finished →
  0 ≤ N ≤ 80 → Z.of_nat fuel < p N →
  ∀ f, uncommitted (Basic.db f) = [] →
  Basic.main_from fuel (finished ++ N :: rest) f
  = (Basic.Files
       (Basic.csv f
          ++ (finished ≫= fun N => Basic.csv_row N <$> (pad <$> partitions N))
          ++ (Basic.csv_row N <$> take (S fuel) (pad <$> partitions N)))
       (Connection
          (durable (Basic.db f)
             ++ (finished ≫= fun N => Basic.row_of N <$> (pad <$> partitions N)))
          (Basic.row_of N <$> take (S fuel) (pad <$> partitions N))),
     Unfinished).
Proof.
  intros Hdone HN Hp.
  induction Hdone as [|M finished' [HM HpM] _ IH]; intros f Hf.
  - cbn [app Basic.main_from mbind list_bind]. rewrite Basic_number_spec.
    rewrite enumerate_partitions by done.
    rewrite bool_decide_false by (pose proof (partitions_length N); lia).
    cbn [fst snd]. rewrite Hf, app_nil_l, app_nil_r. reflexivity.
  - cbn [app Basic.main_from]. rewrite Basic_number_spec.
    rewrite enumerate_complete_run by (done || lia).
    cbn [fst snd]. rewrite IH by done.
    cbn [Basic.csv Basic.db conn_commit durable uncommitted].
    rewrite Hf, app_nil_l, !bind_cons, <- !app_assoc. reflexivity.
Qed.

Lemma length_bind_partitions {A} (g : Z → list Z → A) (targets : list Z) :
  Z.of_nat (length (targets ≫= fun N => g N <$> (pad <$> partitions N)))
  = Py.sum (p <$> targets).
Proof.
  induction targets as [|N rest IH]; [reflexivity|].
  rewrite bind_cons, length_app, !length_fmap, fmap_cons. cbn [Py.sum].
  rewrite <- IH, <- partitions_length. lia.
Qed.

Lemma Basic_header_length : length Basic.header = 83%nat.
Proof. reflexivity. Qed.

Lemma Basic_csv_row_length (N : Z) (IP : list Z) :
  length IP = 80%nat → length (Basic.csv_row N IP) = 83%nat.
Proof.
  intros H. unfold Basic.csv_row. rewrite length_app, length_fmap, H. reflexivity.
Qed.

Lemma length_pad_partitions (N : Z) :
  0 ≤ N ≤ 80 → Forall (fun IP => length IP = 80%nat) (pad <$> partitions N).
Proof.
  intros HN. apply Forall_fmap, Forall_forall. intros l Hl.
  apply partitions_spec in Hl; [|lia]. cbn.
  apply length_pad. destruct Hl as (Hpos & _ & Hsum).
  pose proof (length_le_sum l Hpos). lia.
Qed.

(** X13. What [main] of [partitions_file.py] prints for a target
    [0 ≤ N ≤ 80]: the number in a field of 10 characters, one line of 240
    characters (80 cells of 3) for each array of the enumeration, and,
    once the loop has broken out, an empty line. *)
Theorem printed_lines_of_a_number (N : Z) (HN : 0 ≤ N ≤ 80) (fuel : nat)
    (lines : list string) :
  print_number fuel N lines
  = (lines ++ [format_d 10 N] ++ (partition_line <$> (enumerate fuel N).1)
       ++ (if bool_decide (p N ≤ Z.of_nat fuel) then [EmptyString] else []),
     (enumerate fuel N).2)
  ∧ String.length (format_d 10 N) = 10%nat
  ∧ Forall (fun line => String.length line = 240%nat)
      (partition_line <$> (enumerate fuel N).1)
  ∧ Z.of_nat (length (partition_line <$> (enumerate fuel N).1))
    = Z.min (Z.of_nat fuel + 1) (p N).
Proof.
  split_and!.
  - unfold print_number. rewrite print_loop_lines.
    rewrite enumerate_partitions by done.
    pose proof (enumerate_partitions N fuel HN) as E. unfold enumerate in E.
    destruct (loop fuel N (initial N)) as [out st]. injection E as E ->.
    cbn [fst snd]. rewrite <- E, fmap_cons.
    pose proof (partitions_length N) as Hp.
    destruct (decide (length (partitions N) ≤ fuel)%nat) as [Hle|Hgt].
    + rewrite !bool_decide_true by lia. by rewrite <- !app_assoc.
    + rewrite !bool_decide_false by lia. by rewrite app_nil_r, <- !app_assoc.
  - by apply number_width.
  - apply Forall_fmap, Forall_forall. intros IP HIP. cbn.
    apply enumerate_reachable, reachable_canonical in HIP; [|done].
    destruct (canonical_cells N IP ltac:(lia) HIP) as [Hcells Hlen].
    by rewrite line_width, Hlen.
  - rewrite enumerate_partitions by done. cbn [fst].
    rewrite length_fmap, length_take, length_fmap.
    pose proof (partitions_length N). lia.
Qed.

Lemma printed_lines_of_a_number_witness :
  0 ≤ 5 ≤ 80
  ∧ length (print_number 9 5 []).1 = 9%nat
  ∧ (print_number 9 5 []).2 = Completed.
Proof.
  assert (HN : 0 ≤ 5 ≤ 80) by lia.
  split; [exact HN|].
  destruct (printed_lines_of_a_number 5 HN 9 []) as [E _].
  rewrite E. split; vm_compute; reflexivity.
Defined.

(** X14. The printed line determines the array: two arrays reached in
    runs for targets of at most 80 that print as the same line are the
    same array, of the same target. *)
Theorem printed_line_determines_array (N N' : Z) (IP IP' : list Z)
    (HN : 0 ≤ N ≤ 80) (HN' : 0 ≤ N' ≤ 80)
    (Hr : reachable N IP) (Hr' : reachable N' IP')
    (Hline : partition_line IP = partition_line IP') :
  IP = IP' ∧ N = N'.
Proof.
  apply reachable_canonical in Hr; [|done].
  apply reachable_canonical in Hr'; [|done].
  destruct (canonical_cells N IP ltac:(lia) Hr) as [Hcells Hlen].
  destruct (canonical_cells N' IP' ltac:(lia) Hr') as [Hcells' Hlen'].
  assert (IP = IP') as <-
    by (apply partition_line_inj; [done..|congruence|done]).
  split; [reflexivity|].
  apply canonical_invariant in Hr as [Hsum _].
  apply canonical_invariant in Hr' as [Hsum' _]. congruence.
Qed.

Lemma printed_line_determines_array_witness :
  0 ≤ 5 ≤ 80
  ∧ reachable 5 (initial 5)
  ∧ partition_line (initial 5) = partition_line (initial 5)
  ∧ initial 5 = initial 5 ∧ 5 = 5.
Proof.
  assert (HN : 0 ≤ 5 ≤ 80) by lia.
  split; [exact HN|]. split; [apply reach_initial|]. split; [reflexivity|].
  exact (printed_line_determines_array 5 5 (initial 5) (initial 5) HN HN
           (reach_initial 5) (reach_initial 5) eq_refl).
Defined.

(** X15. [main] of [partions_file2.py] commits once per number.  Stopped
    before the partitions of 80 are through, over a table holding the rows
    [old], it has made durable the rows of the numbers it finished and
    nothing else; the rows of the number it was working on are in the
    open transaction, while the CSV file holds the lines of both. *)
Theorem basic_main_commits_whole_numbers (fuel : nat) (old : list Basic.row)
    (Hfuel : Z.of_nat fuel < 15796476) :
  ∃ finished N rest,
    main_targets = finished ++ N :: rest
    ∧ Forall (fun M => p M ≤ Z.of_nat fuel) finished
    ∧ Z.of_nat fuel < p N
    ∧ Basic.main_from fuel main_targets
        (Basic.Files [CStr <$> Basic.header] (Connection old []))
      = (Basic.Files
           ([CStr <$> Basic.header]
              ++ (finished ≫= fun M => Basic.csv_row M <$> (pad <$> partitions M))
              ++ (Basic.csv_row N <$> take (S fuel) (pad <$> partitions N)))
           (Connection
              (old ++ (finished ≫= fun M =>
                         Basic.row_of M <$> (pad <$> partitions M)))
              (Basic.row_of N <$> take (S fuel) (pad <$> partitions N))),
         Unfinished)
    ∧ length (take (S fuel) (pad <$> partitions N)) = S fuel.
Proof.
  destruct (first_failing (fun M => p M ≤ Z.of_nat fuel) main_targets)
    as (finished & N & rest & E & Hdone & HN).
  { intros Hall. rewrite Forall_forall in Hall.
    specialize (Hall 80). rewrite p_80 in Hall.
    assert (80 ∈ main_targets) by (apply main_targets_range; lia).
    specialize (Hall ltac:(assumption)). lia. }
  exists finished, N, rest.
  assert (Hin : ∀ M, M ∈ finished ++ N :: rest → 1 ≤ M ≤ 80).
  { intros M HM. apply main_targets_range. by rewrite E. }
  assert (1 ≤ N ≤ 80).
  { apply Hin, elem_of_app. right. apply list_elem_of_here. }
  split_and!; [exact E|exact Hdone|lia| |].
  - rewrite E. rewrite Basic_main_from_stops; [reflexivity| |lia|lia|reflexivity].
    apply Forall_forall. intros M HM. split.
    + assert (1 ≤ M ≤ 80); [|lia]. apply Hin, elem_of_app. by left.
    + by eapply (proj1 (Forall_forall _ _) Hdone).
  - rewrite length_take, length_fmap.
    pose proof (partitions_length N). lia.
Qed.

Lemma basic_main_commits_whole_numbers_witness :
  Z.of_nat 1 < 15796476 ∧ ∃ f, Basic.main 1 = (f, Unfinished).
Proof.
  assert (Hfuel : Z.of_nat 1 < 15796476) by lia.
  split; [exact Hfuel|].
  destruct (basic_main_commits_whole_numbers 1 [] Hfuel)
    as (finished & N & rest & _ & _ & _ & E & _).
  eexists. exact E.
Defined.

(** X16. [main] of [partions_file2.py] given the passes it needs
    completes with no row left uncommitted; it appends 123223638 rows to
    the table and writes as many lines after the header, the rows and the
    lines being those of the partitions of 1, 2, ..., 80 in order; every
    line has the 83 fields of the header. *)
Theorem basic_main_complete (fuel : nat) (old : list Basic.row)
    (Hfuel : 15796476 ≤ Z.of_nat fuel) :
  ∃ lines rows,
    Basic.main_from fuel main_targets
      (Basic.Files [CStr <$> Basic.header] (Connection old []))
    = (Basic.Files ((CStr <$> Basic.header) :: lines)
         (Connection (old ++ rows) []), Completed)
    ∧ lines = (main_targets ≫= fun N =>
                 Basic.csv_row N <$> (pad <$> partitions N))
    ∧ rows = (main_targets ≫= fun N =>
                Basic.row_of N <$> (pad <$> partitions N))
    ∧ Z.of_nat (length lines) = 123223638
    ∧ Z.of_nat (length rows) = 123223638
    ∧ Forall (fun line => length line = length Basic.header) lines.
Proof.
  eexists _, _. split_and!; [|reflexivity|reflexivity| | |].
  - rewrite Basic_main_from_complete; [reflexivity| |reflexivity].
    apply Forall_forall. intros N HN.
    apply main_targets_range in HN. pose proof (p_le_p_80 N). lia.
  - rewrite length_bind_partitions. apply sum_p_targets.
  - rewrite length_bind_partitions. apply sum_p_targets.
  - apply Forall_forall. intros line Hline.
    apply list_elem_of_bind in Hline as (N & Hline & HN).
    apply main_targets_range in HN.
    apply list_elem_of_fmap in Hline as (IP & -> & HIP).
    rewrite Basic_header_length. apply Basic_csv_row_length.
    by eapply (proj1 (Forall_forall _ _) (length_pad_partitions N ltac:(lia))).
Qed.

Lemma basic_main_complete_witness :
  15796476 ≤ Z.of_nat (Z.to_nat 15796476)
  ∧ ∃ f, Basic.main (Z.to_nat 15796476) = (f, Completed)
         ∧ uncommitted (Basic.db f) = [].
Proof.
  assert (Hfuel : 15796476 ≤ Z.of_nat (Z.to_nat 15796476)) by lia.
  split; [exact Hfuel|].
  destruct (basic_main_complete (Z.to_nat 15796476) [] Hfuel)
    as (lines & rows & E & _).
  eexists. split; [exact E|reflexivity].
Defined.

(** ** [advanced_main]: the flag [is_primary] *)

Lemma positive_sum_zero (t : list Z) :
  Forall (fun x => x > 0) t → Py.sum t ≤ 0 → t = [].
Proof.
  intros Hpos Hsum. pose proof (length_le_sum t Hpos).
  destruct t; [reflexivity|]. cbn [length] in *. lia.
Qed.

Lemma next_not_initial (N : Z) (IP IP' : list Z) :
  1 ≤ N ≤ 80 → canonical N IP → transition N IP = Next IP' → IP' ≠ initial N.
Proof.
  intros HN Hcan Hstep ->.
  pose proof (step_decreases N IP (initial N) ltac:(lia) Hcan Hstep) as Hlt.
  destruct Hcan as (l & -> & Hlen & Hpos & _ & Hsum).
  change (initial N) with (pad [N]) in Hlt.
  rewrite lex_lt_pad in Hlt
    by (done || (repeat constructor; lia) || (cbn [length]; lia)).
  destruct l as [|x t]; [discriminate Hlt|].
  cbn [lex_lt Py.sum] in Hlt, Hsum.
  apply Forall_cons in Hpos as [Hx Ht].
  pose proof (length_le_sum t Ht).
  rewrite bool_decide_false in Hlt by lia.
  destruct (decide (N = x)) as [->|Hne].
  - rewrite bool_decide_true in Hlt by done.
    rewrite (positive_sum_zero t Ht) in Hlt by lia. discriminate Hlt.
  - rewrite bool_decide_false in Hlt by done. discriminate Hlt.
Qed.

Lemma initial_parts (N : Z) : 1 ≤ N → non_zero_parts (initial N) = [N].
Proof.
  intros HN. change (initial N) with (pad [N]).
  apply non_zero_parts_pad. repeat constructor. lia.
Qed.

(** Among the arrays of a run the initial one alone has a single part,
    and it alone has a part equal to [N]. *)
Lemma single_part_initial (N : Z) (IP : list Z) :
  1 ≤ N ≤ 80 → canonical N IP →
  (length (non_zero_parts IP) = 1%nat ↔ IP = initial N)
  ∧ (Advanced.largest (non_zero_parts IP) = N ↔ IP = initial N).
Proof.
  intros HN (l & -> & Hlen & Hpos & Hsorted & Hsum).
  rewrite non_zero_parts_pad by done.
  change (initial N) with (pad [N]).
  assert (Hl : l = [N] ↔ pad l = pad [N]).
  { split; [by intros ->|]. intros E.
    apply (f_equal non_zero_parts) in E.
    rewrite !non_zero_parts_pad in E by (done || (repeat constructor; lia)).
    exact E. }
  rewrite <- !Hl. split.
  - split; [|by intros ->].
    destruct l as [|x [|y t]]; try discriminate. cbn [Py.sum] in Hsum.
    intros _. f_equal. lia.
  - split; [|intros ->; cbn; reflexivity].
    destruct l as [|x t]; [cbn; lia|].
    unfold Advanced.largest. cbn [py_max default].
    apply (Sorted_StronglySorted Z.ge (Transitive0 := Zge_transitive)) in Hsorted.
    apply StronglySorted_inv in Hsorted as [_ Hx].
    rewrite foldl_max_head by exact Hx. unfold id. intros ->.
    apply Forall_cons in Hpos as [_ Ht]. cbn [Py.sum] in Hsum.
    by rewrite (positive_sum_zero t Ht) by lia.
Qed.

Section rows_written.

Variable P : Advanced.row → Prop.

Local Abbreviation rows f :=
  (durable (Advanced.db f) ++ uncommitted (Advanced.db f)).

Lemma Advanced_write_rows (N : Z) (IP : list Z) (b : bool) (f : Advanced.files) :
  rows (Advanced.write_partition_data N IP f b)
  = rows f ++ [Advanced.row_of N IP b].
Proof. cbn. by rewrite app_assoc. Qed.

Lemma Advanced_write_loop_rows (N : Z) (fuel : nat) :
  1 ≤ N ≤ 80 →
  (∀ IP, canonical N IP → IP ≠ initial N → P (Advanced.row_of N IP false)) →
  ∀ IP f, canonical N IP → Forall P (rows f) →
          Forall P (rows (Advanced.write_loop fuel N IP f).1).
Proof.
  intros HN HP. induction fuel as [|fuel IH]; intros IP f Hcan Hf;
    cbn [Advanced.write_loop]; [exact Hf|].
  destruct (transition N IP) as [|IP'|] eqn:Hstep; try exact Hf.
  assert (canonical N IP')
    by (eapply canonical_next; [|exact Hcan|exact Hstep]; lia).
  apply IH; [done|]. rewrite Advanced_write_rows.
  apply Forall_app. split; [exact Hf|]. constructor; [|constructor].
  apply HP; [done|]. exact (next_not_initial N IP IP' HN Hcan Hstep).
Qed.

Lemma Advanced_main_from_rows (fuel : nat) (targets : list Z) :
  Forall (fun N => 1 ≤ N ≤ 80) targets →
  (∀ N, 1 ≤ N ≤ 80 → P (Advanced.row_of N (initial N) true)) →
  (∀ N IP, 1 ≤ N ≤ 80 → canonical N IP → IP ≠ initial N →
           P (Advanced.row_of N IP false)) →
  ∀ f, Forall P (rows f) →
       Forall P (rows (Advanced.main_from fuel targets f).1).
Proof.
  intros Htargets Hfirst Hnext.
  induction Htargets as [|N rest HN _ IH]; intros f Hf; [exact Hf|].
  cbn [Advanced.main_from].
  pose proof (Advanced_write_loop_rows N fuel HN (fun IP => Hnext N IP HN)
                (initial N) (Advanced.write_partition_data N (initial N) f true)
                (canonical_initial N ltac:(lia))) as Hloop.
  destruct (Advanced.write_loop fuel N (initial N)
              (Advanced.write_partition_data N (initial N) f true))
    as [f' st].
  cbn [fst] in Hloop.
  assert (Hf' : Forall P (rows f')).
  { apply Hloop. rewrite Advanced_write_rows. apply Forall_app.
    split; [exact Hf|]. constructor; [|constructor]. by apply Hfirst. }
  destruct st; [|exact Hf'..].
  apply IH. cbn. by rewrite app_nil_r.
Qed.

End rows_written.

(** X17. In the table [advanced_main] fills, however far the run gets,
    [is_primary_partition] is set on exactly the rows of a single part,
    which are the rows whose [largest_part] is the number itself; the
    [partition_text] of such a row is the number. *)
Theorem primary_flag_marks_the_single_part (fuel : nat) :
  Forall (fun r =>
            1 ≤ Advanced.number r ≤ 80
            ∧ (Advanced.is_primary_partition r = true
               ↔ Advanced.part_count r = 1)
            ∧ (Advanced.is_primary_partition r = true
               ↔ Advanced.largest_part r = Advanced.number r)
            ∧ (Advanced.is_primary_partition r = true
               → Advanced.partition_text r = py_str (Advanced.number r)))
    (durable (Advanced.db (Advanced.advanced_main fuel).1)
       ++ uncommitted (Advanced.db (Advanced.advanced_main fuel).1)).
Proof.
  apply Advanced_main_from_rows.
  - apply Forall_forall. intros N. apply main_targets_range.
  - intros N HN. unfold Advanced.row_of.
    cbn [Advanced.number Advanced.part_count Advanced.largest_part
         Advanced.is_primary_partition Advanced.partition_text].
    unfold partition_str. rewrite initial_parts by lia.
    split_and!; [lia..|done|done|done].
  - intros N IP HN Hcan Hne.
    destruct (single_part_initial N IP HN Hcan) as [Hcount Hlargest].
    unfold Advanced.row_of.
    cbn [Advanced.number Advanced.part_count Advanced.largest_part
         Advanced.is_primary_partition Advanced.partition_text].
    split_and!; [lia..| | |discriminate].
    + split; [discriminate|]. intros E. destruct Hne. apply Hcount. lia.
    + split; [discriminate|]. intros E. destruct Hne. by apply Hlargest.
  - constructor.
Qed.

(** ** The sample drawn from the generated table *)

Lemma make_row_partition (N : Z) (l : list Z) (r : row) :
  (length l ≤ 80)%nat → is_partition N l → make_row (pad l) = Some r →
  partition_text r = l
  ∧ part_count r = Z.of_nat (length l)
  ∧ head l = Some (largest_part r).
Proof.
  intros Hlen (Hpos & Hsorted & Hsum). unfold make_row.
  rewrite non_zero_parts_pad by done.
  destruct l as [|x t]; [discriminate|]. cbn [py_max].
  apply (Sorted_StronglySorted Z.ge (Transitive0 := Zge_transitive)) in Hsorted.
  apply StronglySorted_inv in Hsorted as [_ Hx].
  rewrite foldl_max_head by exact Hx. intros [= <-]. by split_and!.
Qed.

(** X18. [random_sample_sqlite] over the table a run of
    [generate_n80_partitions_sqlite_only] leaves once it is through its
    loop (completed, or stopped by the closing report after the final
    commit): whatever [RANDOM()] returns, the data frame has exactly
    100000 rows, no row more often than the table has it, and every row
    holds a partition of 80 with its number of parts and its largest
    part.  The run is completed unless the last clock reading equals the
    first. *)
Theorem sample_of_the_generated_table (clock : Z → Q) (fuel : nat)
    (random : Z → Z)
    (Hclock : (clock 0%Z <= clock 1%Z)%Q) (Hfuel : 15796476 ≤ Z.of_nat fuel) :
  ∃ g st sampled_df,
    generate_n80_partitions_sqlite_only fuel clock = (g, st)
    ∧ (st = Completed ∨ st = Crashed)
    ∧ (st = Completed ↔ ¬ (clock 15796477%Z == clock 0%Z)%Q)
    ∧ random_sample_sqlite (committed (conn g)) random = Sampled sampled_df
    ∧ Z.of_nat (length sampled_df) = 100000
    ∧ sampled_df ⊆+ committed (conn g)
    ∧ Forall (fun r => is_partition 80 (partition_text r)
                       ∧ part_count r = Z.of_nat (length (partition_text r))
                       ∧ head (partition_text r) = Some (largest_part r))
        sampled_df.
Proof.
  destruct (generate_closing clock fuel Hclock Hfuel)
    as (g & Eg & _ & Htable & _ & Hrows & _).
  destruct (closing_report_status clock _ eq_refl) as (Hst & Hdone & _).
  destruct (sample_shape (committed (conn g)) random)
    as (out & Eout & Hlen & Hsub & _).
  exists g. eexists. exists out. split; [exact Eg|].
  split; [exact Hst|]. split; [exact Hdone|]. split; [exact Eout|].
  split; [|split; [exact Hsub|]].
  - rewrite Hlen. unfold sample_limit. lia.
  - apply Forall_forall. intros r Hr.
    apply (elem_of_submseteq _ _ _ Hr) in Hsub.
    rewrite Htable in Hsub.
    apply list_elem_of_omap in Hsub as (IP & HIP & Hrow).
    apply list_elem_of_fmap in HIP as (l & -> & Hl).
    apply partitions_spec in Hl; [|lia].
    assert (Hlen80 : (length l ≤ 80)%nat).
    { destruct Hl as (Hpos & _ & Hsum). pose proof (length_le_sum l Hpos). lia. }
    destruct (make_row_partition 80 l r Hlen80 Hl Hrow) as (-> & -> & Hhead).
    by split_and!.
Qed.

Lemma sample_of_the_generated_table_witness :
  (steady_clock 0 <= steady_clock 1)%Q
  ∧ 15796476 ≤ Z.of_nat (Z.to_nat 15796476)
  ∧ ∃ g sampled_df,
      generate_n80_partitions_sqlite_only (Z.to_nat 15796476) steady_clock
      = (g, Completed)
      ∧ random_sample_sqlite (committed (conn g)) rising_draws
        = Sampled sampled_df
      ∧ Z.of_nat (length sampled_df) = 100000.
Proof.
  assert (Hclock : (steady_clock 0 <= steady_clock 1)%Q)
    by (unfold steady_clock, Qle; simpl; lia).
  assert (Hfuel : 15796476 ≤ Z.of_nat (Z.to_nat 15796476)) by lia.
  split; [exact Hclock|]. split; [exact Hfuel|].
  destruct (sample_of_the_generated_table steady_clock (Z.to_nat 15796476)
              rising_draws Hclock Hfuel)
    as (g & st & out & Eg & _ & Hdone & Eout & Hlen & _).
  exists g, out. split; [|split; [exact Eout | exact Hlen]].
  rewrite Eg. f_equal. apply Hdone, steady_clock_advances.
Defined.

(** ** The distribution [verify_database] prints *)

Lemma count_into_keys (k : Z) (groups : list (Z * Z)) (k' : Z) :
  k' ∈ (count_into k groups).*1 ↔ k' = k ∨ k' ∈ groups.*1.
Proof.
  induction groups as [|[k0 c0] rest IH]; cbn [count_into].
  - cbn. rewrite list_elem_of_singleton, elem_of_nil. tauto.
  - repeat case_bool_decide; subst; rewrite ?fmap_cons, ?elem_of_cons; cbn [fst].
    + tauto.
    + tauto.
    + rewrite IH. tauto.
Qed.

Lemma count_into_sorted (k : Z) (groups : list (Z * Z)) :
  StronglySorted group_lt groups → StronglySorted group_lt (count_into k groups).
Proof.
  induction 1 as [|[k0 c0] rest Hrest IH Hk0]; cbn [count_into].
  - repeat constructor.
  - repeat case_bool_decide; subst.
    + constructor; [by constructor|]. constructor; [done|].
      eapply Forall_impl; [exact Hk0|]. unfold group_lt. cbn. lia.
    + by constructor.
    + constructor; [exact IH|]. apply Forall_forall. intros [k' c'] Hin.
      assert (Hk' : k' ∈ (count_into k rest).*1).
      { apply list_elem_of_fmap. by exists (k', c'). }
      apply count_into_keys in Hk' as [->|Hk'].
      * unfold group_lt. cbn. lia.
      * apply list_elem_of_fmap in Hk' as ([k'' c''] & -> & Hin').
        by eapply (proj1 (Forall_forall _ _) Hk0) in Hin'.
Qed.

Lemma count_into_counts (k : Z) (groups : list (Z * Z)) (k' c' : Z) :
  StronglySorted group_lt groups →
  (k', c') ∈ count_into k groups →
  (k' ≠ k ∧ (k', c') ∈ groups)
  ∨ (k' = k ∧ ((k, c' - 1) ∈ groups ∨ (c' = 1 ∧ k ∉ groups.*1))).
Proof.
  induction 1 as [|[k0 c0] rest Hrest IH Hk0]; cbn [count_into].
  - rewrite list_elem_of_singleton. intros [= -> ->].
    right. split; [done|]. right. split; [done|]. apply not_elem_of_nil.
  - assert (Hfresh : k ≤ k0 → k ∉ rest.*1).
    { intros Hle Hin. apply list_elem_of_fmap in Hin as ([k'' c''] & -> & Hin).
      eapply (proj1 (Forall_forall _ _) Hk0) in Hin. unfold group_lt in Hin.
      cbn in Hin, Hle. lia. }
    repeat case_bool_decide; subst; rewrite !elem_of_cons.
    + intros [[= -> ->]|[[= -> ->]|Hin]].
      * right. split; [done|]. right. split; [done|].
        rewrite fmap_cons, not_elem_of_cons. cbn. split; [lia|].
        apply Hfresh. lia.
      * left. split; [lia|]. by left.
      * left. split; [|by right].
        eapply (proj1 (Forall_forall _ _) Hk0) in Hin. unfold group_lt in Hin.
        cbn in Hin. lia.
    + intros [[= -> ->]|Hin].
      * right. split; [done|]. left. left. f_equal. lia.
      * left. split; [|by right].
        eapply (proj1 (Forall_forall _ _) Hk0) in Hin. unfold group_lt in Hin.
        cbn in Hin. lia.
    + intros [[= -> ->]|Hin].
      * left. split; [done|]. by left.
      * destruct (IH Hin) as [[Hne Hin']|[-> [Hin'|[-> Hnot]]]].
        -- left. split; [done|]. by right.
        -- right. split; [done|]. left. by right.
        -- right. split; [done|]. right. split; [done|].
           rewrite fmap_cons, not_elem_of_cons. by cbn.
Qed.

Lemma group_by_snoc (table : list row) (r : row) :
  group_by_part_count (table ++ [r])
  = count_into (part_count r) (group_by_part_count table).
Proof. unfold group_by_part_count. by rewrite foldl_snoc. Qed.

Lemma group_by_sorted (table : list row) :
  StronglySorted group_lt (group_by_part_count table).
Proof.
  induction table as [|r table IH] using rev_ind; [constructor|].
  rewrite group_by_snoc. by apply count_into_sorted.
Qed.

Lemma group_by_keys (table : list row) (k : Z) :
  k ∈ (group_by_part_count table).*1 ↔ ∃ r, r ∈ table ∧ part_count r = k.
Proof.
  induction table as [|r table IH] using rev_ind.
  - cbn. rewrite elem_of_nil. split; [done|]. by intros (r & Hr%elem_of_nil & _).
  - rewrite group_by_snoc, count_into_keys, IH. split.
    + intros [->|(r' & Hr' & <-)].
      * exists r. split; [|done]. apply elem_of_app. right. apply list_elem_of_here.
      * exists r'. split; [|done]. apply elem_of_app. by left.
    + intros (r' & [Hr'|Hr']%elem_of_app & <-).
      * right. by exists r'.
      * apply list_elem_of_singleton in Hr' as ->. by left.
Qed.

Lemma group_by_counts (table : list row) (k c : Z) :
  (k, c) ∈ group_by_part_count table →
  c = Z.of_nat (length (filter (fun r => part_count r = k) table)).
Proof.
  revert c. induction table as [|r table IH] using rev_ind; intros c.
  - cbn. by intros ?%elem_of_nil.
  - rewrite group_by_snoc, filter_app, length_app. intros Hin.
    apply count_into_counts in Hin; [|apply group_by_sorted].
    destruct Hin as [[Hne Hin]|[-> [Hin|[-> Hnot]]]].
    + rewrite (IH _ Hin). rewrite filter_cons_False, filter_nil by done.
      cbn [length]. lia.
    + pose proof (IH _ Hin). rewrite filter_cons_True, filter_nil by done.
      cbn [length]. lia.
    + rewrite filter_cons_True, filter_nil by done.
      assert (Hnone : filter (fun r0 => part_count r0 = part_count r) table = []).
      { destruct (filter _ table) as [|r' t] eqn:E; [done|]. destruct Hnot.
        apply group_by_keys. exists r'.
        assert (Hr' : r' ∈ filter (fun r0 => part_count r0 = part_count r) table)
          by (rewrite E; apply list_elem_of_here).
        apply list_elem_of_filter in Hr' as [Hk Hr']. by split. }
      rewrite Hnone. reflexivity.
Qed.

(** X19. The distribution of [verify_database]: the groups come in
    increasing order of [part_count], each [part_count] of the table once,
    with the number of rows that have it; the first ten are reported. *)
Theorem distribution_counts_rows (table : list row) :
  StronglySorted group_lt (group_by_part_count table)
  ∧ (∀ k c, (k, c) ∈ group_by_part_count table →
       1 ≤ c
       ∧ c = Z.of_nat (length (filter (fun r => part_count r = k) table)))
  ∧ (∀ r, r ∈ table → part_count r ∈ (group_by_part_count table).*1)
  ∧ (∀ v, verify_database table = Some v →
       distribution v = take 10 (group_by_part_count table)
       ∧ (length (distribution v) ≤ 10)%nat).
Proof.
  split_and!.
  - apply group_by_sorted.
  - intros k c Hin. pose proof (group_by_counts table k c Hin) as Hc.
    split; [|exact Hc].
    assert (Hk : k ∈ (group_by_part_count table).*1).
    { apply list_elem_of_fmap. by exists (k, c). }
    apply group_by_keys in Hk as (r & Hr & Hk).
    assert (Hr' : r ∈ filter (fun r => part_count r = k) table)
      by (by apply list_elem_of_filter).
    destruct (filter _ table); [by apply elem_of_nil in Hr'|].
    rewrite Hc. cbn [length]. lia.
  - intros r Hr. apply group_by_keys. by exists r.
  - intros v Hv. unfold verify_database in Hv.
    destruct (head (with_ids table)); [|discriminate Hv].
    destruct (last (with_ids table)); [|discriminate Hv].
    injection Hv as <-. cbn [distribution]. split; [reflexivity|].
    rewrite length_take. lia.
Qed.

(** ** The text of a partition *)

(** What follows an item in a joined text: nothing, or the separator and
    the rest. *)
Lemma split_at_space (s1 s2 t1 t2 : string) :
  has_space s1 = false → has_space s2 = false →
  (t1 = EmptyString ∨ ∃ r, t1 = String " " r) →
  (t2 = EmptyString ∨ ∃ r, t2 = String " " r) →
  s1 +:+ t1 = s2 +:+ t2 → s1 = s2 ∧ t1 = t2.
Proof.
  revert s2. induction s1 as [|c s1 IH]; intros [|c' s2] H1 H2 Ht1 Ht2 E.
  - by split.
  - change (t1 = String c' (s2 +:+ t2)) in E.
    cbn [has_space] in H2. apply orb_false_elim in H2 as [Hc _].
    apply bool_decide_eq_false in Hc.
    destruct Ht1 as [->|[r ->]]; [discriminate E|]. by injection E as <- _.
  - change (String c (s1 +:+ t1) = t2) in E.
    cbn [has_space] in H1. apply orb_false_elim in H1 as [Hc _].
    apply bool_decide_eq_false in Hc.
    destruct Ht2 as [->|[r ->]]; [discriminate E|]. by injection E as -> _.
  - change (String c (s1 +:+ t1) = String c' (s2 +:+ t2)) in E.
    injection E as -> E.
    cbn [has_space] in H1, H2.
    apply orb_false_elim in H1 as [_ H1]. apply orb_false_elim in H2 as [_ H2].
    destruct (IH s2 H1 H2 Ht1 Ht2 E) as [-> ->]. by split.
Qed.

Lemma py_join_cons (s : string) (rest : list string) :
  py_join " " (s :: rest)
  = s +:+ (match rest with
           | [] => EmptyString
           | _ :: _ => String " " (py_join " " rest)
           end).
Proof.
  destruct rest as [|s' rest]; cbn [py_join]; [|reflexivity].
  induction s as [|c s IH]; [reflexivity|].
  change (String c s = String c (s +:+ EmptyString)). by rewrite <- IH.
Qed.

Lemma py_join_inj (ss ts : list string) :
  Forall (fun s => s ≠ EmptyString ∧ has_space s = false) ss →
  Forall (fun s => s ≠ EmptyString ∧ has_space s = false) ts →
  py_join " " ss = py_join " " ts → ss = ts.
Proof.
  intros Hss. revert ts.
  induction Hss as [|s ss [Hs Hsp] _ IH]; intros ts Hts E.
  - destruct Hts as [|t ts [Ht _] _]; [reflexivity|].
    rewrite py_join_cons in E. cbn [py_join] in E.
    destruct t; [done|discriminate E].
  - destruct Hts as [|t ts [Ht Htp] Hts].
    { rewrite py_join_cons in E. cbn [py_join] in E.
      destruct s; [done|discriminate E]. }
    rewrite !py_join_cons in E.
    apply split_at_space in E as [-> E]; [|done|done|..].
    + f_equal. destruct ss as [|s' ss], ts as [|t' ts];
        try discriminate E; [reflexivity|].
      injection E as E. by apply IH.
    + destruct ss; [by left|right; by eexists].
    + destruct ts; [by left|right; by eexists].
Qed.

Lemma py_str_part (x : Z) :
  1 ≤ x ≤ 80 → py_str x ≠ EmptyString ∧ has_space (py_str x) = false.
Proof.
  intros Hx.
  assert (Htab : forallb (fun n =>
                   bool_decide (py_str (Z.of_nat n) ≠ EmptyString
                                ∧ has_space (py_str (Z.of_nat n)) = false))
                   (seq 1 80) = true) by (vm_compute; reflexivity).
  pose proof (proj1 (forallb_forall _ _) Htab (Z.to_nat x)) as Hrow.
  cbv beta in Hrow. rewrite Z2Nat.id in Hrow by lia.
  assert (Hin : In (Z.to_nat x) (seq 1 80)) by (apply in_seq; lia).
  specialize (Hrow Hin). by apply bool_decide_eq_true in Hrow.
Qed.

Lemma partition_str_inj (l l' : list Z) :
  Forall (fun x => 1 ≤ x ≤ 80) l → Forall (fun x => 1 ≤ x ≤ 80) l' →
  partition_str (pad l) = partition_str (pad l') → l = l'.
Proof.
  intros Hl Hl' E. unfold partition_str in E.
  rewrite !non_zero_parts_pad in E
    by (eapply Forall_impl; [eassumption|]; cbn; lia).
  apply py_join_inj in E.
  - by apply (inj (fmap py_str)) in E.
  - apply Forall_fmap. eapply Forall_impl; [exact Hl|]. apply py_str_part.
  - apply Forall_fmap. eapply Forall_impl; [exact Hl'|]. apply py_str_part.
Qed.

Lemma partition_parts_range (N : Z) (l : list Z) :
  N ≤ 80 → is_partition N l → Forall (fun x => 1 ≤ x ≤ 80) l.
Proof.
  intros HN (Hpos & _ & Hsum).
  assert (Hb : Forall (fun x => 0 ≤ x ≤ Py.sum l) l).
  { clear Hsum. induction Hpos as [|x l Hx Hl IH]; [constructor|].
    cbn [Py.sum]. pose proof (length_le_sum l Hl).
    constructor; [lia|]. eapply Forall_impl; [exact IH|]. cbn. lia. }
  rewrite Forall_forall in Hb, Hpos. apply Forall_forall. intros x Hx.
  specialize (Hb x Hx). specialize (Hpos x Hx). lia.
Qed.

(** X20. The [partition_text] written to the table and the CSV file
    determines the array: two arrays reached in runs for targets of at
    most 80 with the same text of parts joined by spaces are the same
    array, of the same target. *)
Theorem partition_text_determines_array (N N' : Z) (IP IP' : list Z)
    (HN : 0 ≤ N ≤ 80) (HN' : 0 ≤ N' ≤ 80)
    (Hr : reachable N IP) (Hr' : reachable N' IP')
    (Htext : partition_str IP = partition_str IP') :
  IP = IP' ∧ N = N'.
Proof.
  apply reachable_canonical in Hr as (l & -> & _ & Hl); [|done].
  apply reachable_canonical in Hr' as (l' & -> & _ & Hl'); [|done].
  assert (l = l') as <-.
  { apply partition_str_inj; [..|exact Htext].
    - apply (partition_parts_range N); [lia|exact Hl].
    - apply (partition_parts_range N'); [lia|exact Hl']. }
  split; [reflexivity|].
  destruct Hl as (_ & _ & <-). by destruct Hl' as (_ & _ & <-).
Qed.

Lemma partition_text_determines_array_witness :
  0 ≤ 5 ≤ 80
  ∧ reachable 5 (initial 5)
  ∧ partition_str (initial 5) = partition_str (initial 5)
  ∧ initial 5 = initial 5 ∧ 5 = 5.
Proof.
  assert (HN : 0 ≤ 5 ≤ 80) by lia.
  split; [exact HN|]. split; [apply reach_initial|]. split; [reflexivity|].
  exact (partition_text_determines_array 5 5 (initial 5) (initial 5) HN HN
           (reach_initial 5) (reach_initial 5) eq_refl).
Defined.

Lemma all_texts_NoDup :
  NoDup (main_targets ≫= fun N =>
           (fun l => partition_str (pad l)) <$> partitions N).
Proof.
  apply NoDup_bind.
  - intros N N' text HN HN' Hin Hin'.
    apply main_targets_range in HN, HN'.
    apply list_elem_of_fmap in Hin as (l & -> & Hl).
    apply list_elem_of_fmap in Hin' as (l' & E & Hl').
    apply partitions_spec in Hl; [|lia]. apply partitions_spec in Hl'; [|lia].
    apply partition_str_inj in E.
    + subst l'. destruct Hl as (_ & _ & <-). by destruct Hl' as (_ & _ & <-).
    + apply (partition_parts_range N); [lia|exact Hl].
    + apply (partition_parts_range N'); [lia|exact Hl'].
  - intros N HN. apply main_targets_range in HN.
    apply NoDup_fmap_2_strong; [|apply parts_NoDup].
    intros l l' Hl Hl' E.
    apply partitions_spec in Hl; [|lia]. apply partitions_spec in Hl'; [|lia].
    apply partition_str_inj in E; [exact E|..];
      apply (partition_parts_range N); (lia || assumption).
  - apply NoDup_seqZ.
Qed.

Lemma Basic_texts (targets : list Z) :
  Basic.partition_text
    <$> (targets ≫= fun N => Basic.row_of N <$> (pad <$> partitions N))
  = targets ≫= fun N => (fun l => partition_str (pad l)) <$> partitions N.
Proof.
  induction targets as [|N rest IH]; [reflexivity|].
  rewrite !bind_cons, fmap_app, IH. f_equal.
  rewrite <- !list_fmap_compose. reflexivity.
Qed.

(** X21. In the table [main] of [partions_file2.py] fills from empty,
    however far the run gets, no two rows have the same [partition_text]. *)
Theorem basic_partition_text_is_a_key (fuel : nat) :
  NoDup (Basic.partition_text
           <$> (durable (Basic.db (Basic.main fuel).1)
                  ++ uncommitted (Basic.db (Basic.main fuel).1))).
Proof.
  destruct (decide (15796476 ≤ Z.of_nat fuel)) as [Hfuel|Hfuel].
  - unfold Basic.main. rewrite Basic_main_from_complete; [|..|reflexivity].
    + cbn [fst Basic.db durable uncommitted app]. rewrite app_nil_r.
      rewrite Basic_texts. apply all_texts_NoDup.
    + apply Forall_forall. intros N HN.
      apply main_targets_range in HN. pose proof (p_le_p_80 N). lia.
  - destruct (first_failing (fun M => p M ≤ Z.of_nat fuel) main_targets)
      as (finished & N & rest & E & Hdone & HN).
    { intros Hall. rewrite Forall_forall in Hall.
      specialize (Hall 80). rewrite p_80 in Hall.
      assert (80 ∈ main_targets) by (apply main_targets_range; lia).
      specialize (Hall ltac:(assumption)). lia. }
    assert (Hin : ∀ M, M ∈ finished ++ N :: rest → 1 ≤ M ≤ 80).
    { intros M HM. apply main_targets_range. by rewrite E. }
    assert (1 ≤ N ≤ 80).
    { apply Hin, elem_of_app. right. apply list_elem_of_here. }
    pose proof all_texts_NoDup as Hall. rewrite E in Hall.
    unfold Basic.main. rewrite E.
    rewrite Basic_main_from_stops; [| |lia|lia|reflexivity].
    + cbn [fst Basic.db durable uncommitted app].
      rewrite fmap_app, Basic_texts.
      eapply sublist_NoDup; [exact Hall|].
      rewrite bind_app, bind_cons. apply sublist_app; [reflexivity|].
      apply sublist_inserts_r.
      rewrite <- !fmap_take, <- !list_fmap_compose.
      apply fmap_sublist, sublist_take.
    + apply Forall_forall. intros M HM. split.
      * assert (1 ≤ M ≤ 80); [|lia]. apply Hin, elem_of_app. by left.
      * by eapply (proj1 (Forall_forall _ _) Hdone).
Qed.

(** ** [advanced_main] and [main] *)

Lemma basic_files_write (N : Z) (IP : list Z) (b : bool) (f : Advanced.files) :
  basic_files (Advanced.write_partition_data N IP f b)
  = Basic.write N IP (basic_files f).
Proof.
  unfold basic_files, Advanced.write_partition_data, Basic.write, conn_insert.
  cbn [Advanced.csv Advanced.db Basic.csv Basic.db durable uncommitted].
  by rewrite !fmap_app.
Qed.

Lemma basic_files_write_loop (fuel : nat) (N : Z) :
  ∀ IP f,
    Basic.write_loop fuel N IP (basic_files f)
    = (basic_files (Advanced.write_loop fuel N IP f).1,
       (Advanced.write_loop fuel N IP f).2).
Proof.
  induction fuel as [|fuel IH]; intros IP f;
    cbn [Basic.write_loop Advanced.write_loop]; [reflexivity|].
  destruct (transition N IP) as [|IP'|]; try reflexivity.
  by rewrite <- (basic_files_write N IP' false), IH.
Qed.

Lemma basic_files_main_from (fuel : nat) (targets : list Z) :
  ∀ f,
    Basic.main_from fuel targets (basic_files f)
    = (basic_files (Advanced.main_from fuel targets f).1,
       (Advanced.main_from fuel targets f).2).
Proof.
  induction targets as [|N rest IH]; intros f;
    cbn [Basic.main_from Advanced.main_from]; [reflexivity|].
  rewrite <- (basic_files_write N (initial N) true), basic_files_write_loop.
  destruct (Advanced.write_loop fuel N (initial N)
              (Advanced.write_partition_data N (initial N) f true))
    as [f' st].
  cbn [fst snd]. destruct st; try reflexivity.
  rewrite <- IH. f_equal. unfold basic_files, conn_commit.
  cbn [Advanced.csv Advanced.db Basic.csv Basic.db durable uncommitted].
  by rewrite fmap_app.
Qed.

(** X22. [advanced_main] writes what [main] writes and more: run with
    the same bound it ends the same way, and dropping the columns
    [largest_part], [smallest_part] and [is_primary_partition] from its
    rows, and the fourth, fifth and sixth field from its CSV lines, gives
    the rows and the lines of [main], committed and uncommitted alike. *)
Theorem advanced_main_extends_main (fuel : nat) :
  Basic.main fuel
  = (basic_files (Advanced.advanced_main fuel).1,
     (Advanced.advanced_main fuel).2).
Proof.
  unfold Basic.main, Advanced.advanced_main.
  rewrite <- basic_files_main_from. f_equal.
Qed.

(** ** The distribution of the generated table *)

(** The row stored for a partition. *)
Lemma make_row_of_partition (l : list Z) :
  Forall (fun x => x > 0) l → l ≠ [] →
  ∃ largest, make_row (pad l) = Some (Row l (Z.of_nat (length l)) largest).
Proof.
  intros Hpos Hne. unfold make_row. rewrite non_zero_parts_pad by done.
  destruct l as [|x t]; [done|]. cbn [py_max]. by eexists.
Qed.

Lemma part_counts_of_rows (L : list (list Z)) (k : Z) :
  Forall (fun l => Forall (fun x => x > 0) l ∧ l ≠ []) L →
  length (filter (fun r => part_count r = k) (omap make_row (pad <$> L)))
  = length (filter (fun l => Z.of_nat (length l) = k) L).
Proof.
  induction 1 as [|l L [Hpos Hne] _ IH]; [reflexivity|].
  rewrite fmap_cons. cbn [omap list_omap].
  destruct (make_row_of_partition l Hpos Hne) as (largest & ->).
  rewrite !filter_cons. cbn [part_count].
  destruct (decide (Z.of_nat (length l) = k)); cbn [length]; by rewrite IH.
Qed.

(** Every number of parts from 1 to 80 occurs, and no other. *)
Lemma part_counts_present (k : Z) :
  (∃ l, l ∈ partitions 80 ∧ Z.of_nat (length l) = k) ↔ 1 ≤ k ≤ 80.
Proof.
  split.
  - intros (l & Hl & <-). apply partitions_spec in Hl as (Hpos & _ & Hsum); [|lia].
    pose proof (length_le_sum l Hpos). destruct l; [discriminate Hsum|].
    cbn [length] in *. lia.
  - intros Hk. exists ((81 - k) :: replicate (Z.to_nat (k - 1)) 1). split.
    + apply partitions_spec; [lia|]. split_and!.
      * constructor; [lia|]. apply Forall_replicate. lia.
      * apply StronglySorted_Sorted. constructor.
        -- apply Sorted_StronglySorted; [apply Zge_transitive|].
           induction (Z.to_nat (k - 1)) as [|n IH]; [constructor|].
           cbn [replicate]. constructor; [exact IH|].
           destruct n; constructor. lia.
        -- apply Forall_replicate. lia.
      * cbn [Py.sum]. rewrite sum_replicate. lia.
    + cbn [length]. rewrite length_replicate. lia.
Qed.

Lemma sorted_keys_unique (l1 l2 : list Z) :
  StronglySorted Z.lt l1 → StronglySorted Z.lt l2 →
  (∀ k, k ∈ l1 ↔ k ∈ l2) → l1 = l2.
Proof.
  intros H1 H2 Hsame.
  assert (Hnodup : ∀ l, StronglySorted Z.lt l → NoDup l).
  { induction 1 as [|x l _ IH Hx]; constructor; [|exact IH].
    intros Hin. eapply (proj1 (Forall_forall _ _) Hx) in Hin. lia. }
  apply (StronglySorted_unique_strong Z.lt); [intros; lia|done|done|].
  apply NoDup_Permutation; auto.
Qed.

Lemma groups_of_keys (groups : list (Z * Z)) (count : Z → Z) :
  Forall (fun g => g.2 = count g.1) groups →
  groups = (fun k => (k, count k)) <$> groups.*1.
Proof.
  induction 1 as [|[k c] groups Hc _ IH]; [reflexivity|].
  rewrite !fmap_cons. cbn in Hc. cbn [fst]. by rewrite <- IH, Hc.
Qed.

Lemma partitions_NoDup (N : Z) : NoDup (partitions N).
Proof. apply parts_NoDup. Qed.

Lemma single_part_partitions :
  filter (fun l : list Z => Z.of_nat (length l) = 1) (partitions 80) = [[80]].
Proof.
  destruct partitions_80_chain as (L & E & _ & _ & _).
  pose proof (partitions_NoDup 80) as Hnodup.
  assert (Hin : ∀ l, l ∈ L → l ∈ partitions 80)
    by (intros l Hl; rewrite E; by apply list_elem_of_further).
  rewrite E in Hnodup |- *. apply NoDup_cons in Hnodup as [Hnotin _].
  rewrite filter_cons_True by reflexivity. f_equal.
  clear E. induction L as [|l L IH]; [reflexivity|].
  rewrite filter_cons_False.
  - apply IH.
    + intros Hl. apply Hnotin. by apply list_elem_of_further.
    + intros l' Hl'. apply Hin. by apply list_elem_of_further.
  - intros Hlen.
    assert (Hl : l ∈ partitions 80) by (apply Hin, list_elem_of_here).
    apply partitions_spec in Hl as (_ & _ & Hsum); [|lia].
    destruct l as [|x [|y t]]; try (cbn [length] in Hlen; lia).
    cbn [Py.sum] in Hsum. apply Hnotin.
    assert (x = 80) as -> by lia. apply list_elem_of_here.
Qed.

Lemma sorted_seqZ_1_80 : StronglySorted Z.lt (seqZ 1 80).
Proof. apply (bool_decide_unpack _). by vm_compute. Qed.

Lemma verify_database_distribution (table : list row) :
  table ≠ [] →
  ∃ v, verify_database table = Some v
       ∧ distribution v = take 10 (group_by_part_count table).
Proof.
  intros Hne. destruct table as [|r table]; [done|].
  destruct (last (r :: table)) as [r'|] eqn:Hlast.
  - rewrite (verify_database_rows (r :: table) r r' eq_refl Hlast).
    eexists. split; reflexivity.
  - by apply last_None in Hlast.
Qed.

Lemma generated_groups :
  group_by_part_count (omap make_row (pad <$> partitions 80))
  = (fun k => (k, Z.of_nat (length (filter
                 (fun l : list Z => Z.of_nat (length l) = k) (partitions 80)))))
      <$> seqZ 1 80.
Proof.
  set (table := omap make_row (pad <$> partitions 80)).
  assert (Hkeys : (group_by_part_count table).*1 = seqZ 1 80).
  { apply sorted_keys_unique; [|apply sorted_seqZ_1_80|].
    - eapply (StronglySorted_fmap fst group_lt Z.lt); [|apply group_by_sorted].
      by intros [] [].
    - intros k. rewrite group_by_keys, elem_of_seqZ.
      transitivity (1 ≤ k ≤ 80); [|lia].
      rewrite <- part_counts_present. split.
      + intros (r & Hr & <-).
        apply list_elem_of_omap in Hr as (IP & HIP & Hrow).
        apply list_elem_of_fmap in HIP as (l & -> & Hl).
        pose proof (proj1 (Forall_forall _ _) partitions_80_nonempty l Hl)
          as [Hpos Hne].
        destruct (make_row_of_partition l Hpos Hne) as (largest & E).
        rewrite E in Hrow. injection Hrow as <-. by exists l.
      + intros (l & Hl & <-).
        pose proof (proj1 (Forall_forall _ _) partitions_80_nonempty l Hl)
          as [Hpos Hne].
        destruct (make_row_of_partition l Hpos Hne) as (largest & E).
        exists (Row l (Z.of_nat (length l)) largest). split; [|reflexivity].
        apply list_elem_of_omap. exists (pad l). split; [|exact E].
        apply list_elem_of_fmap. by exists l. }
  rewrite <- Hkeys. apply groups_of_keys, Forall_forall. intros [k c] Hin.
  cbn [fst snd]. rewrite (group_by_counts table k c Hin).
  unfold table. by rewrite part_counts_of_rows by apply partitions_80_nonempty.
Qed.

(** X23. [verify_database] after a run of
    [generate_n80_partitions_sqlite_only] on a new database that got
    through its loop (completed, or stopped by the closing report after
    the final commit): the distribution lists the part counts 1, 2, ...,
    10, each with the number of partitions of 80 into that many parts;
    the first line reports one partition of one part.  The run is
    completed unless the last clock reading equals the first. *)
Theorem distribution_of_the_generated_table (clock : Z → Q) (fuel : nat)
    (Hclock : (clock 0%Z <= clock 1%Z)%Q) (Hfuel : 15796476 ≤ Z.of_nat fuel) :
  ∃ g st v,
    generate_n80_partitions_sqlite_only fuel clock = (g, st)
    ∧ (st = Completed ∨ st = Crashed)
    ∧ (st = Completed ↔ ¬ (clock 15796477%Z == clock 0%Z)%Q)
    ∧ verify_database (committed (conn g)) = Some v
    ∧ distribution v
      = (fun k => (k, Z.of_nat (length (filter
                     (fun l : list Z => Z.of_nat (length l) = k)
                     (partitions 80)))))
          <$> seqZ 1 10
    ∧ head (distribution v) = Some (1, 1).
Proof.
  destruct (generate_closing clock fuel Hclock Hfuel)
    as (g & Eg & _ & Htable & _).
  destruct (closing_report_status clock _ eq_refl) as (Hst & Hdone & _).
  destruct (verify_database_distribution (committed (conn g)))
    as (v & Ev & Hv).
  { rewrite Htable. intros Hnil.
    pose proof generated_groups as Hgroups. rewrite Hnil in Hgroups.
    discriminate Hgroups. }
  exists g. eexists. exists v. split; [exact Eg|].
  split; [exact Hst|]. split; [exact Hdone|]. split; [exact Ev|].
  rewrite Hv, Htable, generated_groups, <- fmap_take.
  change (take 10 (seqZ 1 80)) with (seqZ 1 10).
  split; [reflexivity|].
  change (seqZ 1 10) with (1 :: seqZ 2 9). rewrite fmap_cons. cbn [head].
  by rewrite single_part_partitions.
Qed.

Lemma distribution_of_the_generated_table_witness :
  (steady_clock 0 <= steady_clock 1)%Q
  ∧ 15796476 ≤ Z.of_nat (Z.to_nat 15796476)
  ∧ ∃ g v,
      generate_n80_partitions_sqlite_only (Z.to_nat 15796476) steady_clock
      = (g, Completed)
      ∧ verify_database (committed (conn g)) = Some v
      ∧ head (distribution v) = Some (1, 1).
Proof.
  assert (Hclock : (steady_clock 0 <= steady_clock 1)%Q)
    by (unfold steady_clock, Qle; simpl; lia).
  assert (Hfuel : 15796476 ≤ Z.of_nat (Z.to_nat 15796476)) by lia.
  split; [exact Hclock|]. split; [exact Hfuel|].
  destruct (distribution_of_the_generated_table steady_clock
              (Z.to_nat 15796476) Hclock Hfuel)
    as (g & st & v & Eg & _ & Hdone & Ev & _ & Hhead).
  exists g, v. split; [|split; [exact Ev | exact Hhead]].
  rewrite Eg. f_equal. apply Hdone, steady_clock_advances.
Defined.
